(** * Archit-Search: dependency analysis and violation-detection engine

    A shallow embedding of the analysis core of the extension
    (ImportParser, DeepCycleDetector, GraphAnalyzer, RuleEngine,
    SmartAdvisor, AIKernel, MetricsCalculator, the checks that
    ValidationService makes on one import, and the line numbers of
    UnusedImportDetector) together with the properties established about
    it.

    Conventions of the embedding:
    - a JavaScript string is the [string] of its UTF-16 code units, for
      the strings whose code units are all below 256 (ASCII and the
      Latin-1 supplement U+0080 to U+00FF); offsets and lengths count
      code units, a character above U+007F is the one unit of its code
      and not its UTF-8 bytes, and texts with other characters are
      outside the embedding.  The fixed wording of two messages is the
      one exception: its symbols are written in UTF-8, and no function
      looks into a message;
    - a JavaScript [Map] used as a dictionary is a [gmap], a [Set] is a
      [gset]; a [Map] whose insertion order is observable (the LRU cache,
      a term vector that is iterated) is an association list;
    - the file system read through [fs] is an explicit value;
    - JavaScript numbers that are computed with [Math.sqrt] and [/] are
      IEEE-754 binary64 values ([float]); counters and indices are [nat],
      [N] or [Z]. *)

From Stdlib Require Import Floats ZArith Ascii String List Sorted Lia Uint63.
From stdpp Require Import gmap strings list pretty.

Local Open Scope string_scope.
Local Open Scope list_scope.
#[local] Set Warnings "-clear-no-such-hyp".

(** * Part I: the embedding *)

(** ** JavaScript strings *)

Module JsString.

(** The capital letters among the code units below 256: A to Z, and
    U+00C0 to U+00DE without the multiplication sign U+00D7. *)
Definition is_upper (c : ascii) : bool :=
  let n := nat_of_ascii c in
  ((65 <=? n)%nat && (n <=? 90)%nat) ||
  ((192 <=? n)%nat && (n <=? 222)%nat && negb (n =? 215)%nat).

(** Each of these capitals is 32 below its small letter. *)
Definition lower_char (c : ascii) : ascii :=
  if is_upper c then ascii_of_nat (nat_of_ascii c + 32) else c.

(** [s.toLowerCase()].  On strings of code units below 256 the default
    case conversion of Unicode works unit by unit: the capitals above
    are the only characters it changes, and the two characters whose
    lower-case form depends on the context or is longer than one unit
    (U+03A3 and U+0130) do not occur. *)
Fixpoint toLowerCase (s : string) : string :=
  match s with
  | EmptyString => EmptyString
  | String c s' => String (lower_char c) (toLowerCase s')
  end.

(** [s.replace(/\\/g, '/')] *)
Fixpoint slashes (s : string) : string :=
  match s with
  | EmptyString => EmptyString
  | String c s' =>
      String (if Ascii.eqb c "\"%char then "/"%char else c) (slashes s')
  end.

(** [s.startsWith(p)] *)
Definition startsWith (s p : string) : bool := String.prefix p s.

(** [parts.join(sep)] *)
Fixpoint join (sep : string) (parts : list string) : string :=
  match parts with
  | [] => EmptyString
  | [p] => p
  | p :: rest => p +:+ sep +:+ join sep rest
  end.

Definition chars (s : string) : list ascii := list_ascii_of_string s.
Definition of_chars (l : list ascii) : string := string_of_list_ascii l.

(** [s.split(sep)] for a separator that is a single character matched by
    [is_sep]: the pieces between separators, empty pieces included. *)
Fixpoint split_chars (is_sep : ascii -> bool) (l : list ascii)
    (piece : list ascii) : list string :=
  match l with
  | [] => [of_chars (rev piece)]
  | c :: l' =>
      if is_sep c then of_chars (rev piece) :: split_chars is_sep l' []
      else split_chars is_sep l' (c :: piece)
  end.

Definition split (is_sep : ascii -> bool) (s : string) : list string :=
  split_chars is_sep (chars s) [].

Fixpoint take_while {A} (p : A -> bool) (l : list A) : list A :=
  match l with
  | x :: l' => if p x then x :: take_while p l' else []
  | [] => []
  end.

Fixpoint drop_while {A} (p : A -> bool) (l : list A) : list A :=
  match l with
  | x :: l' => if p x then drop_while p l' else l
  | [] => []
  end.

Definition slash : ascii := "/"%char.
Definition dot : ascii := "."%char.
Definition dquote : ascii := "034"%char.
Definition is_slash (c : ascii) : bool := Ascii.eqb c slash.

(** [s.includes(sub)] *)
Fixpoint includes (s sub : string) : bool :=
  String.prefix sub s ||
  match s with
  | EmptyString => false
  | String _ s' => includes s' sub
  end.

(** [s.endsWith(suffix)] *)
Definition endsWith (s suffix : string) : bool :=
  let n := String.length s in
  let m := String.length suffix in
  (m <=? n)%nat && String.eqb (substring (n - m) m s) suffix.

(** [l.slice(-n)] *)
Definition slice_last {A} (n : nat) (l : list A) : list A :=
  drop (length l - n) l.

(** A value is falsy when it is [undefined] or the empty string. *)
Definition truthy (v : option string) : bool :=
  match v with
  | Some (String _ _) => true
  | _ => false
  end.

(** [a || b] on values that are strings or [undefined]. *)
Definition or_else (a b : option string) : option string :=
  if truthy a then a else b.

End JsString.

(** ** Node's [path] module, POSIX flavour *)

Module NodePath.
Import JsString.

(** [normalizeString(path, allowAboveRoot)]: the segments that remain
    once empty segments, [.] and resolvable [..] are gone. *)
Fixpoint normalize_segments (allowAboveRoot : bool) (segs : list string)
    (acc : list string) : list string :=
  match segs with
  | [] => rev acc
  | seg :: rest =>
      if String.eqb seg EmptyString || String.eqb seg "." then
        normalize_segments allowAboveRoot rest acc
      else if String.eqb seg ".." then
        match acc with
        | top :: acc' =>
            if String.eqb top ".."
            then normalize_segments allowAboveRoot rest (seg :: acc)
            else normalize_segments allowAboveRoot rest acc'
        | [] =>
            normalize_segments allowAboveRoot rest
              (if allowAboveRoot then [seg] else [])
        end
      else normalize_segments allowAboveRoot rest (seg :: acc)
  end.

Definition isAbsolute (p : string) : bool := startsWith p "/".

(** [path.resolve(from, to)] in the working directory [cwd] (an absolute
    path): the last absolute argument starts the path, the arguments
    after it are appended, and the result is normalised. *)
Definition resolve (cwd from to : string) : string :=
  let joined :=
    if isAbsolute to then to
    else if isAbsolute from then from +:+ "/" +:+ to
    else cwd +:+ "/" +:+ from +:+ "/" +:+ to in
  "/" +:+ join "/" (normalize_segments false (split is_slash joined) []).

(** [path.normalize(p)] *)
Definition normalize (p : string) : string :=
  match p with
  | EmptyString => "."
  | _ =>
      let abs := isAbsolute p in
      let trailing :=
        match rev (chars p) with c :: _ => is_slash c | [] => false end in
      let body :=
        join "/" (normalize_segments (negb abs) (split is_slash p) []) in
      match body with
      | EmptyString => if abs then "/" else if trailing then "./" else "."
      | _ =>
          (if abs then "/" else EmptyString) +:+ body +:+
          (if trailing then "/" else EmptyString)
      end
  end.

(** [path.join(a, b)] *)
Definition join2 (a b : string) : string :=
  match a, b with
  | EmptyString, EmptyString => "."
  | EmptyString, _ => normalize b
  | _, EmptyString => normalize a
  | _, _ => normalize (a +:+ "/" +:+ b)
  end.

Definition drop_trailing_slashes (r : list ascii) : list ascii :=
  drop_while is_slash r.

(** [path.basename(p)] *)
Definition basename (p : string) : string :=
  of_chars (rev (take_while (fun c => negb (is_slash c))
                  (drop_trailing_slashes (rev (chars p))))).

(** [path.dirname(p)] *)
Definition dirname (p : string) : string :=
  match chars p with
  | [] => "."
  | c0 :: rest =>
      let hasRoot := is_slash c0 in
      match drop_while (fun c => negb (is_slash c))
              (drop_trailing_slashes (rev rest)) with
      | [] => if hasRoot then "/" else "."
      | _ :: before =>
          match before with
          | [] => if hasRoot then "//" else of_chars [c0]
          | _ => of_chars (c0 :: rev before)
          end
      end
  end.

(** [path.extname(p)] *)
Definition extname (p : string) : string :=
  let base := rev (chars (basename p)) in
  let ext := take_while (fun c => negb (Ascii.eqb c dot)) base in
  match drop_while (fun c => negb (Ascii.eqb c dot)) base with
  | [] => EmptyString
  | _ :: [] => EmptyString
  | _ :: _ =>
      if String.eqb (basename p) ".." then EmptyString
      else of_chars (dot :: rev ext)
  end.

End NodePath.

(** ** A JavaScript [Map] whose insertion order can be observed *)

Module JsMap.
Section Ops.
Context {V : Type}.

Definition t := list (string * V).

Fixpoint get (m : t) (key : string) : option V :=
  match m with
  | [] => None
  | (k, v) :: m' => if String.eqb k key then Some v else get m' key
  end.

Definition has (m : t) (key : string) : bool :=
  match get m key with Some _ => true | None => false end.

Definition delete (m : t) (key : string) : t :=
  filter (fun kv => negb (String.eqb (fst kv) key)) m.

(** [m.set(key, v)]: a present key keeps its place. *)
Fixpoint set (m : t) (key : string) (v : V) : t :=
  match m with
  | [] => [(key, v)]
  | (k, w) :: m' =>
      if String.eqb k key then (k, v) :: m' else (k, w) :: set m' key v
  end.

Definition values (m : t) : list V := map snd m.
Definition size (m : t) : nat := length m.
End Ops.
Arguments t : clear implicits.
End JsMap.

(** ** Regular expressions

    The fragment of JavaScript regular expressions the patterns of the
    program are written in, with the backtracking semantics of
    [RegExp.prototype.exec]: literals, character classes, greedy and lazy
    repetition of a class, optional parts, alternation, one capture group,
    [$] under the [m] flag and [\b]. *)

Module Regex.
Import JsString.

Inductive cls :=
| Dot                      (* [.]: any character but a line terminator *)
| Space                    (* [\s] *)
| AnyChar                  (* [[\s\S]] *)
| OneOf (cs : string)      (* [[...]] *)
| NoneOf (cs : string).    (* [[^...]] *)

Inductive re :=
| Lit (s : string)
| Cls (c : cls)
| Star (c : cls)           (* [c*] *)
| StarLazy (c : cls)       (* [c*?] *)
| Plus (c : cls)           (* [c+] *)
| Opt (r : re)             (* [(?:r)?] *)
| Seq (r1 r2 : re)
| Alt (r1 r2 : re)
| Group (r : re)           (* [(r)], the capture group 1 *)
| Eol                      (* [$] under the [m] flag *)
| WordB.                   (* [\b] *)

Definition code (c : ascii) : nat := nat_of_ascii c.

Definition is_line_terminator (c : ascii) : bool :=
  (code c =? 10)%nat || (code c =? 13)%nat.

Definition is_space (c : ascii) : bool :=
  let n := code c in
  ((9 <=? n)%nat && (n <=? 13)%nat) || (n =? 32)%nat || (n =? 160)%nat.

Definition is_word (c : ascii) : bool :=
  let n := code c in
  ((48 <=? n)%nat && (n <=? 57)%nat) || ((65 <=? n)%nat && (n <=? 90)%nat)
  || ((97 <=? n)%nat && (n <=? 122)%nat) || (n =? 95)%nat.

Definition in_string (c : ascii) (cs : string) : bool :=
  existsb (Ascii.eqb c) (chars cs).

Definition cls_match (k : cls) (c : ascii) : bool :=
  match k with
  | Dot => negb (is_line_terminator c)
  | Space => is_space c
  | AnyChar => true
  | OneOf cs => in_string c cs
  | NoneOf cs => negb (in_string c cs)
  end.

Section Matcher.
Context {A : Type}.

(** A continuation receives the character before the position reached,
    the text from that position on, and the capture. *)
Definition cont := option ascii -> list ascii -> option string -> option A.

Fixpoint lit (l : list ascii) (prev : option ascii) (s : list ascii)
    (k : option ascii -> list ascii -> option A) : option A :=
  match l with
  | [] => k prev s
  | c :: l' =>
      match s with
      | a :: s' => if Ascii.eqb a c then lit l' (Some a) s' k else None
      | [] => None
      end
  end.

(** [c*]: as many characters as possible first. *)
Fixpoint greedy (p : ascii -> bool) (prev : option ascii) (s : list ascii)
    (k : option ascii -> list ascii -> option A) : option A :=
  match s with
  | a :: s' =>
      if p a then
        match greedy p (Some a) s' k with
        | Some x => Some x
        | None => k prev s
        end
      else k prev s
  | [] => k prev s
  end.

(** [c*?]: as few characters as possible first. *)
Fixpoint lazy (p : ascii -> bool) (prev : option ascii) (s : list ascii)
    (k : option ascii -> list ascii -> option A) : option A :=
  match k prev s with
  | Some x => Some x
  | None =>
      match s with
      | a :: s' => if p a then lazy p (Some a) s' k else None
      | [] => None
      end
  end.

Definition at_word_boundary (prev : option ascii) (s : list ascii) : bool :=
  xorb (match prev with Some c => is_word c | None => false end)
       (match s with c :: _ => is_word c | [] => false end).

Definition at_line_end (s : list ascii) : bool :=
  match s with c :: _ => is_line_terminator c | [] => true end.

(** [m r prev s cap k]: match [r] at the start of [s], then continue
    with [k]; the alternatives are tried in the order of a backtracking
    matcher and the first success is the answer. *)
Fixpoint m (r : re) (prev : option ascii) (s : list ascii)
    (cap : option string) (k : cont) : option A :=
  match r with
  | Lit l => lit (chars l) prev s (fun p' s' => k p' s' cap)
  | Cls c =>
      match s with
      | a :: s' => if cls_match c a then k (Some a) s' cap else None
      | [] => None
      end
  | Star c => greedy (cls_match c) prev s (fun p' s' => k p' s' cap)
  | StarLazy c => lazy (cls_match c) prev s (fun p' s' => k p' s' cap)
  | Plus c =>
      match s with
      | a :: s' =>
          if cls_match c a
          then greedy (cls_match c) (Some a) s' (fun p' s' => k p' s' cap)
          else None
      | [] => None
      end
  | Opt r1 =>
      match m r1 prev s cap k with
      | Some x => Some x
      | None => k prev s cap
      end
  | Seq r1 r2 => m r1 prev s cap (fun p' s' cap' => m r2 p' s' cap' k)
  | Alt r1 r2 =>
      match m r1 prev s cap k with
      | Some x => Some x
      | None => m r2 prev s cap k
      end
  | Group r1 =>
      m r1 prev s cap
        (fun p' s' _ =>
           k p' s' (Some (of_chars (take (length s - length s') s))))
  | Eol => if at_line_end s then k prev s cap else None
  | WordB => if at_word_boundary prev s then k prev s cap else None
  end.
End Matcher.

(** The match found at a position: the text left after it and the
    capture. *)
Definition match_here (r : re) (prev : option ascii) (s : list ascii)
    : option (list ascii * option string) :=
  m r prev s None (fun _ s' cap => Some (s', cap)).

(** What [exec] returns: [match.index], [match[0]] and [match[1]]. *)
Record RegExpMatch := mkMatch {
  m_index : nat;
  m_full : string;
  m_group1 : option string
}.

(** [match[n]]: the patterns have a single group, the others are
    [undefined]. *)
Definition m_group (mt : RegExpMatch) (n : nat) : option string :=
  match n with
  | 0 => Some (m_full mt)
  | 1 => m_group1 mt
  | _ => None
  end.

(** [while ((match = regex.exec(text)) !== null)] for a regular
    expression with the [g] flag: [exec] looks for the first position at
    or after [lastIndex] where the pattern matches and moves [lastIndex]
    to the end of the match.  [skip] counts the characters of the last
    match still to pass.  A match of length zero leaves [lastIndex] in
    place, so that the loop never ends: the answer is [None]. *)
Fixpoint exec_loop (r : re) (prev : option ascii) (s : list ascii)
    (idx skip : nat) : option (list RegExpMatch) :=
  match skip with
  | S n =>
      match s with
      | a :: s' => exec_loop r (Some a) s' (S idx) n
      | [] => Some []
      end
  | O =>
      match match_here r prev s with
      | Some (rest, cap) =>
          match length s - length rest with
          | O => None
          | S n =>
              match s with
              | a :: s' =>
                  cons (mkMatch idx (of_chars (take (S n) s)) cap)
                    <$> exec_loop r (Some a) s' (S idx) n
              | [] => Some []
              end
          end
      | None =>
          match s with
          | a :: s' => exec_loop r (Some a) s' (S idx) 0
          | [] => Some []
          end
      end
  end.

(** All the matches the loop sees.  No pattern of the program matches
    the empty string, so that the loop always ends
    ([exec_loop_total]). *)
Definition exec_all (r : re) (text : string) : list RegExpMatch :=
  default [] (exec_loop r None (chars text) 0 0).

(** [text.match(regex)] with the [g] flag, as a list ([null] is the
    empty list): like the loop above, but a match of length zero is
    recorded and the search moves on by one character. *)
Fixpoint match_all_from (r : re) (prev : option ascii) (s : list ascii)
    (skip : nat) : list string :=
  match skip with
  | S n =>
      match s with
      | a :: s' => match_all_from r (Some a) s' n
      | [] => []
      end
  | O =>
      match match_here r prev s with
      | Some (rest, _) =>
          let n := length s - length rest in
          of_chars (take n s) ::
          match s with
          | a :: s' => match_all_from r (Some a) s' (pred n)
          | [] => []
          end
      | None =>
          match s with
          | a :: s' => match_all_from r (Some a) s' 0
          | [] => []
          end
      end
  end.

Definition match_all (r : re) (text : string) : list string :=
  match_all_from r None (chars text) 0.

(** The least number of characters a match consumes. *)
Fixpoint min_len (r : re) : nat :=
  match r with
  | Lit l => String.length l
  | Cls _ | Plus _ => 1
  | Star _ | StarLazy _ | Opt _ | Eol | WordB => 0
  | Seq r1 r2 => min_len r1 + min_len r2
  | Alt r1 r2 => min (min_len r1) (min_len r2)
  | Group r1 => min_len r1
  end.

Fixpoint seq (rs : list re) : re :=
  match rs with
  | [] => Lit EmptyString
  | [r] => r
  | r :: rest => Seq r (seq rest)
  end.

End Regex.

(** ** ImportParser

    The patterns are quoted in the comments with a blank between a star
    and a closing parenthesis that follows it. *)

Module ImportParser.
Import JsString Regex.

(** The class of the two quote characters. *)
Definition quote : re := Cls (OneOf (String "'" (String dquote EmptyString))).
Definition spaces1 : re := Plus Space.

(** [/(?:import\s+.*?from\s+['"](.*?)['"])/g] *)
Definition import_from : re :=
  seq [Lit "import"; spaces1; StarLazy Dot; Lit "from"; spaces1;
       quote; Group (StarLazy Dot); quote].
(** [/(?:import\s+['"](.*?)['"])/g] *)
Definition import_bare : re :=
  seq [Lit "import"; spaces1; quote; Group (StarLazy Dot); quote].
(** [/(?:export\s+.*?from\s+['"](.*?)['"])/g] *)
Definition export_from : re :=
  seq [Lit "export"; spaces1; StarLazy Dot; Lit "from"; spaces1;
       quote; Group (StarLazy Dot); quote].
(** [/(?:require\(['"](.*?)['"]\))/g] *)
Definition require_call : re :=
  seq [Lit "require("; quote; Group (StarLazy Dot); quote; Lit ")"].
(** [/(?:from\s+(.*?)\s+import)/g] *)
Definition py_from : re :=
  seq [Lit "from"; spaces1; Group (StarLazy Dot); spaces1; Lit "import"].
(** [/(?:import\s+(.*?)(?:\s+as\s+.* )?$)/gm] *)
Definition py_import : re :=
  seq [Lit "import"; spaces1; Group (StarLazy Dot);
       Opt (seq [spaces1; Lit "as"; spaces1; Star Dot]); Eol].
(** [/import\s+\(\s*([\s\S]*?)\s*\)/g] *)
Definition go_block : re :=
  seq [Lit "import"; spaces1; Lit "("; Star Space;
       Group (StarLazy AnyChar); Star Space; Lit ")"].
(** [/using\s+([^;]* );/g], [/import\s+([^;]* );/g], [/use\s+([^;]* );/g],
    [/mod\s+([^;]* );/g] *)
Definition upto_semicolon (keyword : string) : re :=
  seq [Lit keyword; spaces1; Group (Star (NoneOf ";")); Lit ";"].
(** [/(?:use|require|include|require_once|include_once)\s+['"]?(.*?)['"]?\s*;/g] *)
Definition php_include : re :=
  seq [Alt (Lit "use") (Alt (Lit "require") (Alt (Lit "include")
         (Alt (Lit "require_once") (Lit "include_once"))));
       spaces1; Opt quote; Group (StarLazy Dot); Opt quote;
       Star Space; Lit ";"].
(** [/(?:require|require_relative)\s+['"](.*?)['"]/g] *)
Definition ruby_require : re :=
  seq [Alt (Lit "require") (Lit "require_relative"); spaces1;
       quote; Group (StarLazy Dot); quote].
(** [/import\s+(.* )/g] *)
Definition swift_import : re :=
  seq [Lit "import"; spaces1; Group (Star Dot)].

(** [IMPORT_PATTERNS] *)
Definition IMPORT_PATTERNS : list (string * list re) :=
  [ ("javascript", [import_from; import_bare; export_from; require_call]);
    ("typescript", [import_from; import_bare; export_from; require_call]);
    ("javascriptreact", [import_from; import_bare; require_call]);
    ("typescriptreact", [import_from; import_bare; require_call]);
    ("python", [py_from; py_import]);
    ("go", [import_bare; go_block]);
    ("csharp", [upto_semicolon "using"]);
    ("java", [upto_semicolon "import"]);
    ("php", [php_include]);
    ("rust", [upto_semicolon "use"; upto_semicolon "mod"]);
    ("dart", [import_bare]);
    ("ruby", [ruby_require]);
    ("swift", [swift_import]) ].

(** The functions a plain object such as [IMPORT_PATTERNS] inherits
    from [Object.prototype], each with its [length]. *)
Definition OBJECT_PROTOTYPE_METHODS : list (string * nat) :=
  [ ("constructor", 1); ("hasOwnProperty", 1); ("isPrototypeOf", 1);
    ("propertyIsEnumerable", 1); ("toLocaleString", 0); ("toString", 0);
    ("valueOf", 0); ("__defineGetter__", 2); ("__defineSetter__", 2);
    ("__lookupGetter__", 1); ("__lookupSetter__", 1) ]%nat.

(** What a property access on the table evaluates to. *)
Inductive Property :=
| Patterns (regexes : list re)  (* an own property: the patterns of a language *)
| Method (len : nat)            (* an inherited function, [len] its [length] *)
| Prototype                     (* [__proto__]: an object without [length] *)
| Absent.                       (* [undefined] *)

(** [this.regexMap[languageId]] *)
Definition regexMap (languageId : string) : Property :=
  match JsMap.get IMPORT_PATTERNS languageId with
  | Some regexes => Patterns regexes
  | None =>
      match JsMap.get OBJECT_PROTOTYPE_METHODS languageId with
      | Some len => Method len
      | None =>
          if String.eqb languageId "__proto__" then Prototype else Absent
      end
  end.

Record ImportInfo := mkImport {
  path : string;
  index : nat;
  length : nat;
  fullMatch : string
}.

(** [`${match.index}:${importPath}`], where an [undefined] path prints
    as the word. *)
Definition matchKey (idx : nat) (importPath : option string) : string :=
  pretty idx +:+ ":" +:+ default "undefined" importPath.

(** The body of the [while] loop for one match. *)
Definition record_match (acc : list ImportInfo * gset string)
    (mt : RegExpMatch) : list ImportInfo * gset string :=
  let '(imports, seen) := acc in
  let importPath :=
    or_else (m_group mt 1) (or_else (m_group mt 2) (m_group mt 3)) in
  let key := matchKey (m_index mt) importPath in
  match importPath with
  | Some p =>
      if truthy importPath && negb (bool_decide (key ∈ seen))
      then (imports ++ [mkImport p (m_index mt)
                          (String.length (m_full mt)) (m_full mt)],
            {[key]} ∪ seen)
      else acc
  | None => acc
  end.

(** [_extractImports(text, regexes)] *)
Definition _extractImports (text : string) (regexes : list re)
    : list ImportInfo :=
  fst (fold_left
         (fun acc regex => fold_left record_match (exec_all regex text) acc)
         regexes ([], ∅)).

(** [parse(text, languageId)]; [None] when the call throws.  An
    inherited value is truthy, so that [|| []] keeps it; unless its
    [length] is 0 it is passed to [_extractImports], where
    [for (const regex of regexes)] throws a TypeError, as neither a
    function nor the prototype is iterable. *)
Definition parse (text languageId : string) : option (list ImportInfo) :=
  match regexMap languageId with
  | Patterns regexes =>
      if (List.length regexes =? 0)%nat then Some []
      else Some (_extractImports text regexes)
  | Method len => if (len =? 0)%nat then Some [] else None
  | Prototype => None
  | Absent => Some []
  end.

End ImportParser.

(** ** The file system and what a call returns *)

Module Fs.
Record Stats := mkStats { size : Z; mtimeMs : Z }.

(** An entry of the file system: what [statSync] reports and what
    [readFileSync] returns, [None] when reading throws (a directory, a
    file without read permission). *)
Record Node := mkNode { stats : Stats; data : option string }.

(** The file system, keyed by the path strings the program passes to
    [fs], and the working directory of the process. *)
Record t := mkFs { cwd : string; nodes : gmap string Node }.

Definition existsSync (fs : t) (p : string) : bool :=
  bool_decide (is_Some (nodes fs !! p)).

(** [None]: the call throws. *)
Definition statSync (fs : t) (p : string) : option Stats :=
  stats <$> nodes fs !! p.

Definition readFileSync (fs : t) (p : string) : option string :=
  nodes fs !! p ≫= data.
End Fs.

(** How a call ends, as its caller sees it. *)
Inductive JsResult :=
| Undefined
| Value (v : string)
| Throws (e : string).

(** ** DeepCycleDetector *)

Module DeepCycleDetector.
Import JsString.

(** [CONFIG] *)
Definition MAX_DEPTH : nat := 10.
Definition MAX_FILES_PER_CHECK : nat := 50.
Definition MAX_FILE_SIZE : Z := 500000.

Definition EXTENSION_TO_LANGUAGE : list (string * string) :=
  [ (".js", "javascript"); (".jsx", "javascriptreact");
    (".ts", "typescript"); (".tsx", "typescriptreact");
    (".py", "python"); (".go", "go"); (".cs", "csharp");
    (".java", "java"); (".php", "php"); (".rs", "rust");
    (".dart", "dart"); (".rb", "ruby") ].

(** The fields of a detector. *)
Record t := mkDetector {
  dependencyGraph : gmap string (list string);
  fileTimestamps : gmap string Z;
  isBuilding : bool
}.

(** [_getLanguageId(filePath)].  An extension is empty or starts with a
    dot, so that it is the name of no inherited property of the
    table. *)
Definition _getLanguageId (filePath : string) : string :=
  let ext := toLowerCase (NodePath.extname filePath) in
  default "javascript" (JsMap.get EXTENSION_TO_LANGUAGE ext).

Definition extensions : list string :=
  [".js"; ".jsx"; ".ts"; ".tsx"; ".mjs"; ".cjs"; EmptyString].

(** [_resolveImportPath(fromDir, importPath)] *)
Definition _resolveImportPath (fs : Fs.t) (fromDir importPath : string)
    : option string :=
  let basePath := NodePath.resolve (Fs.cwd fs) fromDir importPath in
  match List.find (Fs.existsSync fs)
          (map (fun ext => basePath +:+ ext) extensions) with
  | Some fullPath => Some fullPath
  | None =>
      List.find (Fs.existsSync fs)
        (map (fun ext => NodePath.join2 basePath ("index" +:+ ext))
             extensions)
  end.

(** The loop of [_processFileForGraph] over the parsed imports. *)
Fixpoint resolve_imports (fs : Fs.t) (fileDir : string)
    (imports : list ImportParser.ImportInfo) : list string :=
  match imports with
  | [] => []
  | imp :: rest =>
      if startsWith (ImportParser.path imp) "." then
        match _resolveImportPath fs fileDir (ImportParser.path imp) with
        | Some resolved => resolved :: resolve_imports fs fileDir rest
        | None => resolve_imports fs fileDir rest
        end
      else resolve_imports fs fileDir rest
  end.

(** [cachedTime && cachedTime === stats.mtimeMs] *)
Definition cache_valid (cachedTime : option Z) (mtime : Z) : bool :=
  match cachedTime with
  | Some t => negb (t =? 0)%Z && (t =? mtime)%Z
  | None => false
  end.

(** [_processFileForGraph(filePath)]; whatever throws inside the [try]
    leaves the detector as it is. *)
Definition _processFileForGraph (fs : Fs.t) (filePath : string) (d : t) : t :=
  if negb (Fs.existsSync fs filePath) then d
  else
    match Fs.statSync fs filePath with
    | None => d
    | Some stats =>
        if (MAX_FILE_SIZE <? Fs.size stats)%Z then d
        else if cache_valid (fileTimestamps d !! filePath) (Fs.mtimeMs stats)
        then d
        else
          match Fs.readFileSync fs filePath with
          | None => d
          | Some content =>
              let languageId := _getLanguageId filePath in
              match ImportParser.parse content languageId with
              | None => d
              | Some imports =>
                  let fileDir := NodePath.dirname filePath in
                  let resolvedImports := resolve_imports fs fileDir imports in
                  mkDetector
                    (<[filePath := resolvedImports]> (dependencyGraph d))
                    (<[filePath := Fs.mtimeMs stats]> (fileTimestamps d))
                    (isBuilding d)
              end
          end
    end.

Definition set_building (b : bool) (d : t) : t :=
  mkDetector (dependencyGraph d) (fileTimestamps d) b.

(** [buildGraph(filePaths)]: the detector afterwards and what the caller
    gets back. *)
Definition buildGraph (fs : Fs.t) (filePaths : list string) (d : t)
    : t * JsResult :=
  if isBuilding d then (d, Undefined)
  else
    let limitedFiles := take MAX_FILES_PER_CHECK filePaths in
    let d' := fold_left (fun d filePath => _processFileForGraph fs filePath d)
                limitedFiles (set_building true d) in
    (set_building false d', Undefined).

(** [file.toLowerCase().replace(/\\/g, '/')] *)
Definition normalize (file : string) : string :=
  slashes (toLowerCase file).

(** The three mutable objects [_dfs] threads through its calls. *)
Record DfsState := mkDfs {
  visited : gset string;
  recursionStack : gset string;
  cyclePath : list string
}.

Definition push_path (file : string) (st : DfsState) : DfsState :=
  mkDfs (visited st) (recursionStack st) (cyclePath st ++ [file]).

Definition enter (file : string) (st : DfsState) : DfsState :=
  mkDfs ({[normalize file]} ∪ visited st)
        ({[normalize file]} ∪ recursionStack st)
        (cyclePath st ++ [file]).

Definition leave (file : string) (st : DfsState) : DfsState :=
  mkDfs (visited st)
        (recursionStack st ∖ {[normalize file]})
        (removelast (cyclePath st)).

(** [for (const dep of dependencies) if (this._dfs(dep, ...)) return true;]
    with [visit] standing for the recursive call. *)
Fixpoint for_deps (visit : string -> DfsState -> bool * DfsState)
    (deps : list string) (st : DfsState) : bool * DfsState :=
  match deps with
  | [] => (false, st)
  | dep :: rest =>
      match visit dep st with
      | (true, st') => (true, st')
      | (false, st') => for_deps visit rest st'
      end
  end.

Record CycleResult := mkCycle {
  hasCycle : bool;
  cycle : list string;
  depth : nat;
  message : string
}.

Definition initial : DfsState := mkDfs ∅ ∅ [].

(** The text of [message]; the two symbols of the source text that are
    not ASCII are given by their UTF-8 bytes. *)
Definition cycle_message (cyclePath : list string) : string :=
  let fileNames := map NodePath.basename cyclePath in
  "🔄 Deep Circular Dependency Detected (" +:+
  pretty (length cyclePath - 1)%nat +:+ " levels) - " +:+
  join " → " fileNames.

Section Graph.
Variable dependencyGraph : gmap string (list string).

(** [_dfs(file, visited, recursionStack, cyclePath, depth)].  The
    recursion is on [fuel]; [depth] and its test are the source's.  The
    search stops at [depth > MAX_DEPTH], so a [fuel] above
    [MAX_DEPTH - depth] is never used up ([_dfs_fuel] below). *)
Fixpoint _dfs (fuel : nat) (file : string) (st : DfsState) (depth : nat)
    : bool * DfsState :=
  match fuel with
  | O => (false, st)
  | S fuel' =>
      if (MAX_DEPTH <? depth)%nat then (false, st)
      else if bool_decide (normalize file ∈ recursionStack st)
      then (true, push_path file st)
      else if bool_decide (normalize file ∈ visited st)
      then (false, st)
      else
        let dependencies := default [] (dependencyGraph !! file) in
        match for_deps (fun dep s => _dfs fuel' dep s (S depth))
                       dependencies (enter file st) with
        | (true, st') => (true, st')
        | (false, st') => (false, leave file st')
        end
  end.

(** [detectDeepCycle(startFile)]; [None] is [null]. *)
Definition detectDeepCycle (startFile : string) : option CycleResult :=
  let '(found, st) := _dfs (S MAX_DEPTH) startFile initial 0 in
  if found && (2 <? length (cyclePath st))%nat
  then Some (mkCycle true (cyclePath st) (length (cyclePath st) - 1)
                     (cycle_message (cyclePath st)))
  else None.

(** An element of the array [getAllCycles] returns. *)
Record CycleEntry := mkEntry { entry_cycle : list string; entry_depth : nat }.

(** The body of the loop of [getAllCycles] for one key. *)
Definition all_cycles_step (acc : list CycleEntry * gset string)
    (file : string) : list CycleEntry * gset string :=
  let '(allCycles, globalVisited) := acc in
  if bool_decide (toLowerCase file ∈ globalVisited) then acc
  else
    match detectDeepCycle file with
    | Some result =>
        if hasCycle result then
          (allCycles ++ [mkEntry (cycle result) (depth result)],
           list_to_set (toLowerCase <$> cycle result) ∪ globalVisited)
        else acc
    | None => acc
    end.

(** [getAllCycles()].  [keys] stands for [this.dependencyGraph.keys()]:
    the keys of the graph in the order of their first insertion, which a
    [gmap] does not record. *)
Definition getAllCycles (keys : list string) : list CycleEntry :=
  fst (fold_left all_cycles_step keys ([], ∅)).

End Graph.

(** [clear()] *)
Definition clear (d : t) : t := mkDetector ∅ ∅ (isBuilding d).

End DeepCycleDetector.

(** ** GraphAnalyzer and its LRU cache *)

Module LRUCache.
Section Cache.
Context {V : Type}.

Record t := mkCache { limit : nat; cache : JsMap.t V }.

(** [get(key)]: the value, and the cache with the entry moved to the
    most recent place. *)
Definition get (c : t) (key : string) : option V * t :=
  match JsMap.get (cache c) key with
  | None => (None, c)
  | Some val =>
      (Some val,
       mkCache (limit c) (JsMap.set (JsMap.delete (cache c) key) key val))
  end.

(** [set(key, val)]: at the limit the oldest entry goes first. *)
Definition set (c : t) (key : string) (val : V) : t :=
  let evicted :=
    if (limit c <=? JsMap.size (cache c))%nat then tail (cache c)
    else cache c in
  mkCache (limit c) (JsMap.set (JsMap.delete evicted key) key val).

(** [has(key)] *)
Definition has (c : t) (key : string) : bool := JsMap.has (cache c) key.

(** [clear()] *)
Definition clear (c : t) : t := mkCache (limit c) [].

(** The getter [size]. *)
Definition size (c : t) : nat := JsMap.size (cache c).
End Cache.
Arguments t : clear implicits.
End LRUCache.

Module GraphAnalyzer.
Import JsString.

Definition EXTENSION_TO_LANGUAGE : list (string * string) :=
  DeepCycleDetector.EXTENSION_TO_LANGUAGE ++ [(".swift", "swift")].

(** The one mutable field of an analyzer is its cache of parsed
    imports. *)
Definition t := LRUCache.t (list ImportParser.ImportInfo).

Definition create : t := LRUCache.mkCache 200 [].

Record CycleVerdict := mkVerdict { isCycle : bool; message : string }.

Definition _getLanguageId (filePath : string) : string :=
  let ext := toLowerCase (NodePath.extname filePath) in
  default "javascript" (JsMap.get EXTENSION_TO_LANGUAGE ext).

(** [normalizedB.replace(/\.[^/.]+$/, '')]: the text from the last dot on
    is dropped when at least one character follows the dot and none of
    them is a slash. *)
Definition strip_extension (s : string) : string :=
  let r := rev (chars s) in
  let ext := take_while (fun c => negb (Ascii.eqb c dot || is_slash c)) r in
  match ext, drop_while (fun c => negb (Ascii.eqb c dot || is_slash c)) r with
  | _ :: _, c :: before =>
      if Ascii.eqb c dot then of_chars (rev before) else s
  | _, _ => s
  end.

(** [_areSameFile(pathA, pathB)] *)
Definition _areSameFile (pathA pathB : string) : bool :=
  let normalizedA := slashes (toLowerCase pathA) in
  let normalizedB := slashes (toLowerCase pathB) in
  if String.eqb normalizedA normalizedB then true
  else
    let normalizedBNoExt := strip_extension normalizedB in
    if String.eqb normalizedA normalizedBNoExt
       || startsWith normalizedA normalizedBNoExt
    then true else false.

(** [_getFileImports(filePath)]; [None] when a call to [fs] or to the
    parser throws. *)
Definition _getFileImports (fs : Fs.t) (filePath : string) (a : t)
    : option (list ImportParser.ImportInfo) * t :=
  match Fs.statSync fs filePath with
  | None => (None, a)
  | Some stats =>
      let cacheKey := filePath +:+ ":" +:+ pretty (Fs.mtimeMs stats) in
      match LRUCache.get a cacheKey with
      | (Some imports, a') => (Some imports, a')
      | (None, a') =>
          match Fs.readFileSync fs filePath with
          | None => (None, a')
          | Some fileContent =>
              let languageId := _getLanguageId filePath in
              match ImportParser.parse fileContent languageId with
              | None => (None, a')
              | Some imports =>
                  (Some imports, LRUCache.set a' cacheKey imports)
              end
          end
      end
  end.

(** The loop of [checkCycle] over the imports of the target. *)
Fixpoint find_back_import (fs : Fs.t) (sourceFile targetFile : string)
    (imports : list ImportParser.ImportInfo) : option CycleVerdict :=
  match imports with
  | [] => None
  | imp :: rest =>
      if startsWith (ImportParser.path imp) "." then
        let targetDir := NodePath.dirname targetFile in
        let resolvedImportPath :=
          NodePath.resolve (Fs.cwd fs) targetDir (ImportParser.path imp) in
        if _areSameFile resolvedImportPath sourceFile then
          Some (mkVerdict true
                  ("Circular Dependency Detected! '" +:+
                   NodePath.basename sourceFile +:+ "' <-> '" +:+
                   NodePath.basename targetFile +:+ "'"))
        else find_back_import fs sourceFile targetFile rest
      else find_back_import fs sourceFile targetFile rest
  end.

(** [checkCycle(sourceFile, targetFile)]; [None] is [null]. *)
Definition checkCycle (fs : Fs.t) (sourceFile targetFile : string) (a : t)
    : option CycleVerdict * t :=
  if negb (Fs.existsSync fs targetFile) then (None, a)
  else if _areSameFile sourceFile targetFile
  then (Some (mkVerdict true "Self-import detected!"), a)
  else
    match _getFileImports fs targetFile a with
    | (Some imports, a') =>
        (find_back_import fs sourceFile targetFile imports, a')
    | (None, a') => (None, a')
    end.

(** [clearCache()] *)
Definition clearCache (a : t) : t := LRUCache.clear a.

End GraphAnalyzer.

(** ** RuleEngine *)

Module RuleEngine.
Import JsString.

Record Rule := mkRule {
  source : string;
  disallow : option (list string);
  rule_message : option string
}.

Record Layer := mkLayer { name : string; pattern : string }.

Record Violation := mkViolation { isViolation : bool; message : string }.

(** [_normalizePath(filePath)] *)
Definition _normalizePath (filePath : string) : string := slashes filePath.

Section Glob.
(** [minimatch(path, pattern, { matchBase })] of the minimatch package;
    the last argument tells whether the [matchBase] option is set. *)
Variable minimatch : string -> string -> bool -> bool.

(** [_checkRuleViolations(source, target, rules)] *)
Fixpoint _checkRuleViolations (src target : string) (rules : list Rule)
    : option Violation :=
  match rules with
  | [] => None
  | rule :: rest =>
      if minimatch src (source rule) true then
        match disallow rule with
        | Some patterns =>
            match List.find (fun pattern => minimatch target pattern true)
                    patterns with
            | Some pattern =>
                Some (mkViolation true
                  (default EmptyString
                     (or_else (rule_message rule)
                        (Some ("Violation: '" +:+ src +:+
                               "' cannot import from '" +:+ pattern +:+ "'")))))
            | None => _checkRuleViolations src target rest
            end
        | None => _checkRuleViolations src target rest
        end
      else _checkRuleViolations src target rest
  end.

(** [_findLayerIndex(filePath, layers)], counting from [i]. *)
Fixpoint find_layer_from (i : Z) (filePath : string) (layers : list Layer)
    : Z :=
  match layers with
  | [] => -1
  | layer :: rest =>
      if minimatch filePath (pattern layer) false then i
      else find_layer_from (i + 1) filePath rest
  end.

Definition _findLayerIndex (filePath : string) (layers : list Layer) : Z :=
  find_layer_from 0 filePath layers.

(** [layers[i].name] *)
Definition layer_name (layers : list Layer) (i : Z) : string :=
  default EmptyString (name <$> layers !! Z.to_nat i).

(** [_checkLayerViolations(source, target, layers)]; [layers] is [None]
    when the caller passes [null] or [undefined]. *)
Definition _checkLayerViolations (src target : string)
    (layers : option (list Layer)) : option Violation :=
  match layers with
  | None | Some [] => None
  | Some layers =>
      let sourceLayerIndex := _findLayerIndex src layers in
      let targetLayerIndex := _findLayerIndex target layers in
      if (sourceLayerIndex =? -1)%Z || (targetLayerIndex =? -1)%Z then None
      else if (sourceLayerIndex <? targetLayerIndex)%Z then
        Some (mkViolation true
          ("Layer Violation: '" +:+ layer_name layers sourceLayerIndex +:+
           "' layer cannot depend on outer '" +:+
           layer_name layers targetLayerIndex +:+ "' layer."))
      else None
  end.

(** [validate(sourceRelativePath, targetRelativePath, rules, layers)] *)
Definition validate (sourceRelativePath targetRelativePath : string)
    (rules : list Rule) (layers : option (list Layer)) : option Violation :=
  let normalizedSource := _normalizePath sourceRelativePath in
  let normalizedTarget := _normalizePath targetRelativePath in
  match _checkRuleViolations normalizedSource normalizedTarget rules with
  | Some ruleViolation => Some ruleViolation
  | None =>
      match _checkLayerViolations normalizedSource normalizedTarget layers with
      | Some layerViolation => Some layerViolation
      | None => None
      end
  end.
End Glob.

(** [INDEX_EXTENSIONS] *)
Definition INDEX_EXTENSIONS : list string := ["js"; "ts"; "jsx"; "tsx"].

(** [checkEncapsulation(targetAbsPath)]; no call inside the [try]
    throws. *)
Definition checkEncapsulation (fs : Fs.t) (targetAbsPath : string)
    : option Violation :=
  let dir := NodePath.dirname targetAbsPath in
  let filename := NodePath.basename targetAbsPath in
  if startsWith filename "index." then None
  else
    let hasIndex :=
      existsb (fun ext =>
                 let indexFile := NodePath.join2 dir ("index." +:+ ext) in
                 Fs.existsSync fs indexFile)
              INDEX_EXTENSIONS in
    if hasIndex then
      Some (mkViolation true
        ("Encapsulation Warning: Directory has an 'index' file. " +:+
         "Import from the directory '" +:+ NodePath.basename dir +:+
         "' instead of specific file '" +:+ filename +:+ "'."))
    else None.

End RuleEngine.

(** ** SmartAdvisor *)

Module SmartAdvisor.
Import JsString.

(** [CONCEPTS], in the order of the object's keys. *)
Definition CONCEPTS : list (string * list string) :=
  [ ("Presentation", ["view"; "page"; "screen"; "ui"; "component"; "widget";
                      "frontend"; "render"; "template"]);
    ("Business", ["controller"; "service"; "manager"; "logic"; "handler";
                  "processor"; "usecase"; "interactor"]);
    ("Data", ["model"; "entity"; "schema"; "repo"; "repository"; "database";
              "store"; "dao"; "dto"; "orm"]);
    ("Utility", ["util"; "utils"; "helper"; "helpers"; "common"; "lib";
                 "shared"; "config"; "constant"]) ].

(** [ALLOWED_FLOW] *)
Definition ALLOWED_FLOW : list (string * list string) :=
  [ ("Presentation", ["Business"; "Presentation"; "Utility"]);
    ("Business", ["Data"; "Business"; "Utility"]);
    ("Data", ["Data"; "Utility"]);
    ("Utility", ["Utility"]) ].

Record Analysis := mkAnalysis {
  isSuspicious : bool;
  score : nat;
  message : string
}.

(** [classify(filePath)] *)
Definition classify (filePath : string) : string :=
  let normalizedPath := slashes (toLowerCase filePath) in
  let segments := split is_slash normalizedPath in
  let significantSegments := slice_last 3 segments in
  match List.find
          (fun entry =>
             existsb (fun keyword =>
                        existsb (fun segment => includes segment keyword)
                                significantSegments)
                     (snd entry))
          CONCEPTS with
  | Some (concept, _) => concept
  | None => "Unknown"
  end.

(** [severeViolations] *)
Definition severeViolations : list (string * string) :=
  [ ("Data", "Presentation"); ("Utility", "Presentation");
    ("Utility", "Business") ].

(** [_calculateConfidence(source, target, sourceConcept, targetConcept)];
    the concepts are looked up among the own keys of [CONCEPTS]. *)
Definition _calculateConfidence (source target sourceConcept targetConcept
    : string) : nat :=
  let confidence := 70 in
  let isSevere :=
    existsb (fun v => String.eqb (fst v) sourceConcept &&
                      String.eqb (snd v) targetConcept)
            severeViolations in
  let confidence :=
    if isSevere then 95
    else
      let sourceBasename := toLowerCase (NodePath.basename source) in
      let targetBasename := toLowerCase (NodePath.basename target) in
      let sourceKeywords := default [] (JsMap.get CONCEPTS sourceConcept) in
      let targetKeywords := default [] (JsMap.get CONCEPTS targetConcept) in
      let confidence :=
        if existsb (fun k => includes sourceBasename k) sourceKeywords
        then confidence + 5 else confidence in
      if existsb (fun k => includes targetBasename k) targetKeywords
      then confidence + 5 else confidence in
  Nat.min confidence 100.

Section Messages.
(** [Localization.get(key, ...args)] of the localization singleton, in
    the language it is set to. *)
Variable Localization_get : string -> list string -> string.

(** [analyze(sourcePath, importPath)]; [None] is [null]. *)
Definition analyze (sourcePath importPath : string) : option Analysis :=
  let sourceConcept := classify sourcePath in
  let targetConcept := classify importPath in
  if String.eqb sourceConcept "Unknown" || String.eqb targetConcept "Unknown"
  then None
  else
    let allowedTargets := JsMap.get ALLOWED_FLOW sourceConcept in
    if match allowedTargets with
       | None => true
       | Some targets => negb (existsb (String.eqb targetConcept) targets)
       end
    then
      let confidence :=
        _calculateConfidence sourcePath importPath sourceConcept targetConcept in
      Some (mkAnalysis true confidence
              (Localization_get "aiSuspicious" [sourceConcept; targetConcept]))
    else None.
End Messages.

(** [getConcepts()] *)
Definition getConcepts : list string := map fst CONCEPTS.

(** [getKeywordsForConcept(concept)] *)
Definition getKeywordsForConcept (concept : string) : option (list string) :=
  JsMap.get CONCEPTS concept.

End SmartAdvisor.

(** ** AIKernel *)

Module AIKernel.
Import JsString.
Local Open Scope float_scope.

(** [CONFIG] *)
Definition MAX_FILES : nat := 500.
Definition MIN_TOKEN_LENGTH : nat := 2.

Definition STOP_WORDS : list string :=
  [ "const"; "let"; "var"; "import"; "from"; "require";
    "class"; "function"; "return"; "if"; "else"; "this";
    "new"; "export"; "default"; "async"; "await"; "for";
    "while"; "do"; "switch"; "case"; "break"; "continue";
    "try"; "catch"; "finally"; "throw"; "null"; "undefined";
    "true"; "false" ].

(** A token count as a JavaScript number. *)
Definition num (n : N) : float := PrimFloat.of_uint63 (Uint63.of_Z (Z.of_N n)).

(** A number is falsy when it is zero or NaN. *)
Definition truthy_num (x : float) : bool :=
  negb (PrimFloat.eqb x 0 || PrimFloat.is_nan x).

(** [x || y] on numbers. *)
Definition or_num (x y : float) : float := if truthy_num x then x else y.

Record StatsModel := mkStats { mean : float; stdDev : float }.

(** The fields of a kernel: a term vector per file, the import counts
    of [projectStats], the model and the flag. *)
Record t := mkKernel {
  vectors : JsMap.t (JsMap.t N);
  importCounts : list N;
  statsModel : option StatsModel;
  isLearning : bool
}.

(** [_tokenize(content)] *)
Definition _tokenize (content : string) : list string :=
  filter (fun token =>
            ((MIN_TOKEN_LENGTH <? String.length token)%nat &&
             negb (existsb (String.eqb (toLowerCase token)) STOP_WORDS)) = true)
         (split (fun c => negb (Regex.is_word c)) content).

(** [_vectorize(tokens)] *)
Definition _vectorize (tokens : list string) : JsMap.t N :=
  fold_left (fun vector token =>
               JsMap.set vector token
                 (default 0%N (JsMap.get vector token) + 1)%N)
            tokens [].

(** [/\b(import|require)\b/g] *)
Definition import_word : Regex.re :=
  Regex.seq [Regex.WordB;
             Regex.Group (Regex.Alt (Regex.Lit "import") (Regex.Lit "require"));
             Regex.WordB].

(** [_countImports(content)] *)
Definition _countImports (content : string) : N :=
  N.of_nat (length (Regex.match_all import_word content)).

(** [_processFile(file)] *)
Definition _processFile (fs : Fs.t) (file : string) (k : t) : t :=
  if negb (Fs.existsSync fs file) then k
  else
    match Fs.readFileSync fs file with
    | None => k
    | Some content =>
        let tokens := _tokenize content in
        let vector := _vectorize tokens in
        let importCount := _countImports content in
        mkKernel (JsMap.set (vectors k) file vector)
                 (importCounts k ++ [importCount])
                 (statsModel k) (isLearning k)
    end.

(** [arr.reduce((a, b) => a + b, 0)] *)
Definition sum (arr : list float) : float :=
  fold_left (fun a b => a + b) arr 0.

(** [_computeStats(arr)]; [Math.pow(d, 2)] is the product [d * d]. *)
Definition _computeStats (arr : list N) : StatsModel :=
  match arr with
  | [] => mkStats 0 1
  | _ =>
      let len := num (N.of_nat (length arr)) in
      let mean := sum (map num arr) / len in
      let squareDiffs := map (fun x => (num x - mean) * (num x - mean)) arr in
      let avgSquareDiff := sum squareDiffs / len in
      let stdDev := PrimFloat.sqrt avgSquareDiff in
      mkStats mean (or_num stdDev 1)
  end.

(** [learn(filePaths)]: the kernel afterwards and what the caller gets
    back. *)
Definition learn (fs : Fs.t) (filePaths : list string) (k : t)
    : t * JsResult :=
  if isLearning k then (k, Undefined)
  else
    let targetFiles := take MAX_FILES filePaths in
    let k1 := mkKernel [] [] (statsModel k) true in
    let k2 := fold_left (fun k file => _processFile fs file k) targetFiles k1 in
    (mkKernel (vectors k2) (importCounts k2)
              (Some (_computeStats (importCounts k2))) false,
     Undefined).

(** [_cosineSimilarity(vecA, vecB)] *)
Definition _cosineSimilarity (vecA vecB : JsMap.t N) : float :=
  let '(dotProduct, magA) :=
    fold_left (fun '(dotProduct, magA) '(key, valA) =>
                 let valB := default 0%N (JsMap.get vecB key) in
                 (dotProduct + num valA * num valB, magA + num valA * num valA))
              vecA (0, 0) in
  let magB :=
    fold_left (fun magB valB => magB + num valB * num valB)
              (JsMap.values vecB) 0 in
  if PrimFloat.eqb magA 0 || PrimFloat.eqb magB 0 then 0
  else dotProduct / (PrimFloat.sqrt magA * PrimFloat.sqrt magB).

Definition ANOMALY_THRESHOLD : float := 3.
(** [0.85] *)
Definition SIMILARITY_THRESHOLD : float := 0x1.b333333333333p-1.

Record Anomaly := mkAnomaly {
  isAnomaly : bool;
  score : string;
  anomaly_message : option string
}.

Record Classification := mkClassification {
  mostSimilarFile : string;
  similarity : string
}.

Section Builtins.
(** [x.toFixed(digits)], [Math.round(x)], and the text of a number in a
    template literal. *)
Variable toFixed : float -> nat -> string.
Variable Math_round : float -> float.
Variable Number_toString : float -> string.

(** [detectAnomaly(fileContent)]; the first symbol of the message is
    given by the bytes of the source text. *)
Definition detectAnomaly (k : t) (fileContent : string) : Anomaly :=
  match statsModel k with
  | None => mkAnomaly false "0.0" None
  | Some model =>
      let importCount := _countImports fileContent in
      let zScore :=
        if PrimFloat.ltb 0 (stdDev model)
        then (num importCount - mean model) / stdDev model
        else 0 in
      let isAnomaly := PrimFloat.ltb ANOMALY_THRESHOLD zScore in
      let score := toFixed zScore 2 in
      mkAnomaly isAnomaly score
        (if isAnomaly then
           Some ("ðŸ“ˆ Statistical Anomaly: This file has unusually high " +:+
                 "complexity (Z-Score: " +:+ score +:+ "). Typical is ~" +:+
                 Number_toString (Math_round (mean model)) +:+ " imports.")
         else None)
  end.

(** The body of the loop of [classifyLayer] for one entry. *)
Definition nearest_step (currentFile : string) (targetVector : JsMap.t N)
    (acc : float * option string) (entry : string * JsMap.t N)
    : float * option string :=
  let '(bestSimilarity, mostSimilarFile) := acc in
  let '(file, vector) := entry in
  if String.eqb file currentFile then acc
  else
    let similarity := _cosineSimilarity targetVector vector in
    if PrimFloat.ltb bestSimilarity similarity then (similarity, Some file)
    else acc.

(** [classifyLayer(currentFile)]; [None] is [null]. *)
Definition classifyLayer (k : t) (currentFile : string)
    : option Classification :=
  match JsMap.get (vectors k) currentFile with
  | None => None
  | Some targetVector =>
      let '(bestSimilarity, mostSimilarFile) :=
        fold_left (nearest_step currentFile targetVector) (vectors k)
                  (0, None) in
      if PrimFloat.ltb SIMILARITY_THRESHOLD bestSimilarity &&
         truthy mostSimilarFile
      then
        Some (mkClassification
                (NodePath.basename (default EmptyString mostSimilarFile))
                (toFixed (bestSimilarity * 100) 1))
      else None
  end.
End Builtins.

(** [getLearnedFileCount()] *)
Definition getLearnedFileCount (k : t) : nat := JsMap.size (vectors k).

(** [hasLearned()] *)
Definition hasLearned (k : t) : bool :=
  match statsModel k with Some _ => true | None => false end.

(** [reset()] *)
Definition reset (k : t) : t := mkKernel [] [] None (isLearning k).

End AIKernel.

(** ** MetricsCalculator: coupling *)

Module MetricsCalculator.
Import JsString.

Definition EXTENSION_TO_LANGUAGE : list (string * string) :=
  [ (".js", "javascript"); (".jsx", "javascriptreact");
    (".ts", "typescript"); (".tsx", "typescriptreact");
    (".py", "python"); (".go", "go") ].

Record Coupling := mkCoupling { afferent : nat; efferent : nat }.

(** The three maps of a calculator. *)
Record t := mkMetrics {
  couplingData : JsMap.t Coupling;
  dependencyMap : JsMap.t (list string);
  dependentMap : JsMap.t (list string)
}.

(** [_getFileDependencies(filePath)] *)
Definition _getFileDependencies (fs : Fs.t) (filePath : string)
    : list string :=
  if negb (Fs.existsSync fs filePath) then []
  else
    match Fs.readFileSync fs filePath with
    | None => []
    | Some content =>
        let ext := toLowerCase (NodePath.extname filePath) in
        let languageId :=
          default "javascript" (JsMap.get EXTENSION_TO_LANGUAGE ext) in
        match ImportParser.parse content languageId with
        | None => []
        | Some imports => map ImportParser.path imports
        end
    end.

(** [_normalizePath(filePath)] *)
Definition _normalizePath (filePath : string) : string :=
  GraphAnalyzer.strip_extension (slashes (toLowerCase filePath)).

(** [_findMatchingFile(normalizedPath, filePaths)] *)
Definition _findMatchingFile (normalizedPath : string)
    (filePaths : list string) : option string :=
  List.find (fun file =>
               let normalizedFile := _normalizePath file in
               endsWith normalizedFile normalizedPath ||
               endsWith normalizedPath normalizedFile)
            filePaths.

(** The body of the second pass of [analyze] for one dependency of
    [file]. *)
Definition note_dependent (filePaths : list string) (file : string)
    (dependentMap : JsMap.t (list string)) (dep : string)
    : JsMap.t (list string) :=
  let normalizedDep := _normalizePath dep in
  let matchedFile := _findMatchingFile normalizedDep filePaths in
  if truthy matchedFile then
    let matchedFile := default EmptyString matchedFile in
    let dependentMap :=
      if negb (JsMap.has dependentMap matchedFile)
      then JsMap.set dependentMap matchedFile []
      else dependentMap in
    JsMap.set dependentMap matchedFile
      (default [] (JsMap.get dependentMap matchedFile) ++ [file])
  else dependentMap.

(** [m.get(filePath)?.length || 0] *)
Definition length_or_zero (m : JsMap.t (list string)) (filePath : string)
    : nat :=
  match JsMap.get m filePath with
  | Some files => List.length files
  | None => 0
  end.

(** [analyze(filePaths)]: the maps are cleared first, so that the
    calculator afterwards depends on the file system and the list
    only. *)
Definition analyze (fs : Fs.t) (filePaths : list string) : t :=
  let dependencyMap :=
    fold_left (fun m filePath =>
                 JsMap.set m filePath (_getFileDependencies fs filePath))
              filePaths [] in
  let dependentMap :=
    fold_left (fun m entry =>
                 fold_left (note_dependent filePaths (fst entry))
                           (snd entry) m)
              dependencyMap [] in
  let couplingData :=
    fold_left (fun m filePath =>
                 let efferent := length_or_zero dependencyMap filePath in
                 let afferent := length_or_zero dependentMap filePath in
                 JsMap.set m filePath (mkCoupling afferent efferent))
              filePaths [] in
  mkMetrics couplingData dependencyMap dependentMap.

Record CouplingReport := mkReport {
  afferentCoupling : nat;
  efferentCoupling : nat;
  totalCoupling : nat;
  quality : string
}.

(** [calculateCoupling(filePath)] *)
Definition calculateCoupling (m : t) (filePath : string) : CouplingReport :=
  let coupling :=
    default (mkCoupling 0 0) (JsMap.get (couplingData m) filePath) in
  let total := afferent coupling + efferent coupling in
  let quality :=
    if (total <=? 5)%nat then "Low Coupling (Good)"
    else if (total <=? 15)%nat then "Moderate Coupling"
    else if (total <=? 25)%nat then "High Coupling (Review)"
    else "Very High Coupling (Refactor)" in
  mkReport (afferent coupling) (efferent coupling) total quality.

(** [clear()] *)
Definition clear (m : t) : t := mkMetrics [] [] [].

End MetricsCalculator.

(** ** ValidationService: the checks of one import *)

Module ValidationService.
Import JsString.

(** [vscode.DiagnosticSeverity] *)
Inductive DiagnosticSeverity := Error | Warning | Information | Hint.

Section Editor.
Context {Range : Type}.
(** [minimatch] and [Localization.get], as above. *)
Variable minimatch : string -> string -> bool -> bool.
Variable Localization_get : string -> list string -> string.
(** [vscode.workspace.asRelativePath(path, false)] *)
Variable asRelativePath : string -> string.
(** [new vscode.Range(doc.positionAt(from), doc.positionAt(to))] *)
Variable rangeBetween : nat -> nat -> Range.

Record Violation := mkViolation {
  range : Range;
  message : string;
  severity : DiagnosticSeverity
}.

(** The options [validateFile] reads from the configuration. *)
Record Options := mkOptions {
  rules : list RuleEngine.Rule;
  layers : list RuleEngine.Layer;
  checkEncapsulation : bool;
  checkCycles : bool;
  enableAI : bool
}.

(** [_createViolation(range, message, severity)] *)
Definition _createViolation (range : Range) (message : string)
    (severity : DiagnosticSeverity) : Violation :=
  mkViolation range message severity.

(** [_createRangeFromImport(doc, imp)] *)
Definition _createRangeFromImport (imp : ImportParser.ImportInfo) : Range :=
  rangeBetween (ImportParser.index imp)
               (ImportParser.index imp + ImportParser.length imp).

(** [_checkImport(imp, doc, currentFilePathRelative, options)], where
    [fsPath] is [doc.uri.fsPath]: the violations, and the analyzer with
    its cache afterwards.  [path.resolve] never returns the empty string,
    so the test [!resolvedAbsolutePath] asks whether the import is
    relative. *)
Definition _checkImport (fs : Fs.t) (graph : GraphAnalyzer.t)
    (imp : ImportParser.ImportInfo) (fsPath currentFilePathRelative : string)
    (options : Options) : list Violation * GraphAnalyzer.t :=
  let resolvedAbsolutePath :=
    if startsWith (ImportParser.path imp) "." then
      let currentDir := NodePath.dirname fsPath in
      Some (NodePath.resolve (Fs.cwd fs) currentDir (ImportParser.path imp))
    else None in
  let resolvedRelativePath :=
    match resolvedAbsolutePath with
    | Some p => asRelativePath p
    | None => ImportParser.path imp
    end in
  let archResult :=
    RuleEngine.validate minimatch currentFilePathRelative resolvedRelativePath
      (rules options) (Some (layers options)) in
  match archResult with
  | Some (RuleEngine.mkViolation true archMessage) =>
      ([_createViolation (_createRangeFromImport imp) archMessage Error],
       graph)
  | _ =>
      match resolvedAbsolutePath with
      | None => ([], graph)
      | Some resolvedAbsolutePath =>
          let encapsulation :=
            if checkEncapsulation options then
              match RuleEngine.checkEncapsulation fs resolvedAbsolutePath with
              | Some (RuleEngine.mkViolation true encMessage) =>
                  [_createViolation (_createRangeFromImport imp) encMessage
                     Warning]
              | _ => []
              end
            else [] in
          let '(cycles, graph') :=
            if checkCycles options then
              match GraphAnalyzer.checkCycle fs fsPath resolvedAbsolutePath
                      graph with
              | (Some (GraphAnalyzer.mkVerdict true cycleMessage), graph') =>
                  ([_createViolation (_createRangeFromImport imp) cycleMessage
                      Warning], graph')
              | (_, graph') => ([], graph')
              end
            else ([], graph) in
          let semantic :=
            if enableAI options then
              match SmartAdvisor.analyze Localization_get fsPath
                      resolvedAbsolutePath with
              | Some (SmartAdvisor.mkAnalysis true _ aiMessage) =>
                  [_createViolation (_createRangeFromImport imp) aiMessage
                     Warning]
              | _ => []
              end
            else [] in
          (encapsulation ++ cycles ++ semantic, graph')
      end
  end.

End Editor.
End ValidationService.

(** ** UnusedImportDetector: the line of an offset *)

Module UnusedImportDetector.
Import JsString.

Definition is_newline (c : ascii) : bool := Ascii.eqb c "010"%char.

(** [content.split('\n')] *)
Definition lines_of (content : string) : list string := split is_newline content.

(** The loop of [_getLineNumber]: [i] and [charCount] are its two
    variables; [None] when the loop ends without returning. *)
Fixpoint line_loop (lines : list string) (i charCount index : nat)
    : option nat :=
  match lines with
  | [] => None
  | line :: rest =>
      let charCount := (charCount + (String.length line + 1))%nat in
      if (index <? charCount)%nat then Some i
      else line_loop rest (S i) charCount index
  end.

(** [_getLineNumber(lines, index)] *)
Definition _getLineNumber (lines : list string) (index : nat) : Z :=
  match line_loop lines 0 0 index with
  | Some i => Z.of_nat i
  | None => (Z.of_nat (List.length lines) - 1)%Z
  end.

End UnusedImportDetector.

(** * Part II: the vocabulary of the statements *)

Section Walks.
Import DeepCycleDetector.
Variable g : gmap string (list string).

(** A list of files in which each one lists the next among its
    dependencies. *)
Fixpoint is_walk (l : list string) : Prop :=
  match l with
  | x :: (y :: _) as t => (exists deps, g !! x = Some deps /\ y ∈ deps) /\ is_walk t
  | _ => True
  end.

(** Every name on the recursion stack is the normal form of a file on the
    path. *)
Definition stack_on_path (st : DfsState) : Prop :=
  forall n, n ∈ recursionStack st ->
    exists y, y ∈ cyclePath st /\ normalize y = n.

(** What a successful search leaves on the path: the old path followed
    by a walk that starts at the file searched and ends on a file whose
    normal form already occurs before it. *)
Definition extends_by_walk (file : string) (st st' : DfsState) : Prop :=
  exists w last,
    cyclePath st' = cyclePath st ++ w ++ [last] /\
    hd last w = file /\
    is_walk (w ++ [last]) /\
    exists y, y ∈ cyclePath st ++ w /\ normalize y = normalize last.

End Walks.

Section ExampleGraphs.
Import DeepCycleDetector.

Definition cycle3_graph : gmap string (list string) :=
  <["/p/a.js" := ["/p/b.js"]]>
    (<["/p/b.js" := ["/p/c.js"]]> (<["/p/c.js" := ["/p/a.js"]]> ∅)).

Definition tail_graph : gmap string (list string) :=
  <["/p/a.js" := ["/p/b.js"]]>
    (<["/p/b.js" := ["/p/c.js"]]> (<["/p/c.js" := ["/p/b.js"]]> ∅)).

Definition self_graph : gmap string (list string) :=
  <["/p/a.js" := ["/p/b.js"; "/p/a.js"]]> (<["/p/b.js" := ["/p/a.js"]]> ∅).

Definition leaf_self_graph : gmap string (list string) :=
  <["/p/a.js" := ["/p/b.js"; "/p/a.js"]]> (<["/p/b.js" := []]> ∅).

End ExampleGraphs.

Section ExampleFiles.
Import GraphAnalyzer.

Definition empty_fs : Fs.t := Fs.mkFs "/p" ∅.

Definition one_file_fs : Fs.t :=
  Fs.mkFs "/p" {[ "/p/a.js" := Fs.mkNode (Fs.mkStats 20 1700000000000)
                                 (Some "import x from './a';") ]}.

End ExampleFiles.

Section Layers.
Import RuleEngine.
Variable minimatch : string -> string -> bool -> bool.

(** [i] is the position of the first layer of [layers] whose pattern
    matches [p]. *)
Definition first_layer (layers : list Layer) (p : string) (i : nat) : Prop :=
  (exists layer, layers !! i = Some layer /\
                 minimatch p (pattern layer) false = true) /\
  forall k layer, (k < i)%nat -> layers !! k = Some layer ->
                  minimatch p (pattern layer) false = false.

Definition no_layer (layers : list Layer) (p : string) : Prop :=
  forall layer, layer ∈ layers -> minimatch p (pattern layer) false = false.

(** The violation reported for a source in layer [i] and a target in
    layer [j]. *)
Definition layer_violation (layers : list Layer) (i j : nat) : Violation :=
  mkViolation true
    ("Layer Violation: '" +:+ layer_name layers (Z.of_nat i) +:+
     "' layer cannot depend on outer '" +:+
     layer_name layers (Z.of_nat j) +:+ "' layer.").

End Layers.

Section Settled.
Import DeepCycleDetector.
Variable fs : Fs.t.

(** The entry and the time stamp a file gets when it is processed and
    its cached time stamp is not valid. *)
Definition fresh_entry (filePath : string) : option (list string * Z) :=
  if negb (Fs.existsSync fs filePath) then None
  else
    match Fs.statSync fs filePath with
    | None => None
    | Some stats =>
        if (MAX_FILE_SIZE <? Fs.size stats)%Z then None
        else
          match Fs.readFileSync fs filePath with
          | None => None
          | Some content =>
              match ImportParser.parse content (_getLanguageId filePath) with
              | None => None
              | Some imports =>
                  Some (resolve_imports fs (NodePath.dirname filePath)
                          imports,
                        Fs.mtimeMs stats)
              end
          end
    end.

(** A file is settled when processing it changes nothing. *)
Definition settled (filePath : string) (d : t) : Prop :=
  match fresh_entry filePath with
  | None => True
  | Some (imports, mtime) =>
      cache_valid (fileTimestamps d !! filePath) mtime = true \/
      (dependencyGraph d !! filePath = Some imports /\
       fileTimestamps d !! filePath = Some mtime)
  end.

Definition process_all (files : list string) (d : t) : t :=
  fold_left (fun d filePath => _processFileForGraph fs filePath d) files d.

End Settled.

Section ExampleKernels.

Definition busy_kernel : AIKernel.t := AIKernel.mkKernel [] [] None true.
Definition idle_kernel : AIKernel.t := AIKernel.mkKernel [] [] None false.

End ExampleKernels.

Section ExampleProject.
Import AIKernel.
Local Open Scope float_scope.

Definition two_file_fs : Fs.t :=
  Fs.mkFs "/p"
    (<["/p/a.js" := Fs.mkNode (Fs.mkStats 12 1700000000000)
                      (Some "let x = 1;")]>
     (<["/p/b.js" := Fs.mkNode (Fs.mkStats 20 1700000000000)
                      (Some "import y from './a';")]> ∅)).

End ExampleProject.

Section MatchOrder.
Import JsString Regex.

Definition index_lt (a b : RegExpMatch) : Prop := (m_index a < m_index b)%nat.

End MatchOrder.

Section Records.
Import JsString Regex ImportParser.

(** The digits of a number hold no colon, so that the key of a match
    determines its offset and its path. *)
Fixpoint colon_free (s : string) : Prop :=
  match s with
  | EmptyString => True
  | String c s' => c <> ":"%char /\ colon_free s'
  end.

(** The record a match stands for: none when the group is empty. *)
Definition candidate (mt : RegExpMatch) : option ImportInfo :=
  match m_group1 mt with
  | Some (String c p) =>
      Some (mkImport (String c p) (m_index mt)
                     (String.length (m_full mt)) (m_full mt))
  | _ => None
  end.

(** The records of one pattern, from left to right. *)
Definition candidates (text : string) (r : re) : list ImportInfo :=
  omap candidate (exec_all r text).

Definition pair_of (i : ImportInfo) : nat * string := (index i, path i).

(** Keep a record when its offset and path have not been seen. *)
Fixpoint first_per_pair (seen : list (nat * string)) (l : list ImportInfo)
    : list ImportInfo :=
  match l with
  | [] => []
  | i :: l' =>
      if bool_decide (pair_of i ∈ seen) then first_per_pair seen l'
      else i :: first_per_pair (pair_of i :: seen) l'
  end.

Definition index_before (a b : ImportInfo) : Prop := (index a < index b)%nat.

Definition newline : string := String "010"%char EmptyString.

(** The language tags of the table. *)
Definition languages : list string := map fst IMPORT_PATTERNS.

(** The names of the properties the table inherits. *)
Definition inherited_names : list string :=
  map fst OBJECT_PROTOTYPE_METHODS ++ ["__proto__"].

(** A script that calls [require] on its first line and has an [import]
    statement on its second line. *)
Definition require_then_import : string :=
  "const a = require('./a');" +:+ newline +:+ "import b from './b';".

End Records.

Section Magnitudes.
Local Open Scope Z_scope.

Definition ge_one (x : spec_float) : Prop :=
  match x with
  | S754_infinity false => True
  | S754_finite false m e => 1 <= Z.log2 (Zpos m) + 1 + e
  | _ => False
  end.

(** Values: zero or at least one. *)
Definition zero_or_ge_one (x : spec_float) : Prop :=
  x = S754_zero false \/ ge_one x.

(** Values of counts: zero, or finite and at least one. *)
Definition count_like (x : spec_float) : Prop :=
  x = S754_zero false \/
  exists m e, x = S754_finite false m e /\ 0 <= Z.log2 (Zpos m) + e.

End Magnitudes.

Section Vectors.
Import AIKernel.
Local Open Scope float_scope.

(** The squared magnitude of a vector, as the second loop of
    [_cosineSimilarity] computes it. *)
Definition sqmag (vec : JsMap.t N) : float :=
  fold_left (fun mag val => mag + num val * num val) (JsMap.values vec) 0.

(** The dot product, as the first loop computes it. *)
Definition dotp (vecA vecB : JsMap.t N) : float :=
  fold_left (fun dot '(key, valA) =>
               dot + num valA * num (default 0%N (JsMap.get vecB key)))
            vecA 0.

Definition all_zero (vec : JsMap.t N) : Prop :=
  Forall (fun entry => snd entry = 0%N) vec.

Definition two_tokens : JsMap.t N := [("foo", 1%N); ("bar", 1%N)].
Definition one_token : JsMap.t N := [("foo", 1%N)].
Definition other_token : JsMap.t N := [("bar", 2%N)].

End Vectors.

Section Slices.
Import JsString Regex ImportParser.

(** The match ends before the next one starts. *)
Definition ends_before (a b : RegExpMatch) : Prop :=
  (m_index a + String.length (m_full a) <= m_index b)%nat.

Definition record_ends_before (a b : ImportInfo) : Prop :=
  (index a + ImportParser.length a <= index b)%nat.

(** [l] occurs inside [s]. *)
Definition infix_of (l s : list ascii) : Prop :=
  exists before after, s = before ++ l ++ after.

(** What a match reads of the text: [pre] is consumed, [rest] is left,
    and the capture is the old one or a piece of [pre]. *)
Definition reads (s pre rest : list ascii) (cap cap' : option string) : Prop :=
  s = pre ++ rest /\
  (cap' = cap \/ exists c, cap' = Some c /\ infix_of (chars c) pre).

(** What the loop reports about a text of which [s] is what follows the
    offset [idx]. *)
Definition located (text : list ascii) (mt : RegExpMatch) : Prop :=
  chars (m_full mt) =
    take (String.length (m_full mt)) (drop (m_index mt) text) /\
  (m_index mt + String.length (m_full mt) <= List.length text)%nat /\
  (0 < String.length (m_full mt))%nat /\
  forall c, m_group1 mt = Some c -> infix_of (chars c) (chars (m_full mt)).

End Slices.

Section Recency.
Context {V : Type}.

(** The cache_keys of a cache, from the oldest to the newest. *)
Definition cache_keys (c : LRUCache.t V) : list string := map fst (LRUCache.cache c).

(** A cache is well formed when its cache_keys are distinct and it holds at most
    [limit] entries. *)
Definition well_formed (c : LRUCache.t V) : Prop :=
  NoDup (cache_keys c) /\ (LRUCache.size c <= LRUCache.limit c)%nat.

Definition other_than (key : string) (k : string) : bool :=
  negb (String.eqb k key).

End Recency.

Section ExampleCaches.

Definition small_cache : LRUCache.t nat :=
  LRUCache.mkCache 2 [("a", 1); ("b", 2)].

End ExampleCaches.

Section Coherence.
Import GraphAnalyzer.
Variable fs : Fs.t.

(** The key under which [_getFileImports] caches the imports of a file. *)
Definition cacheKey (filePath : string) (stats : Fs.Stats) : string :=
  filePath +:+ ":" +:+ pretty (Fs.mtimeMs stats).


End Coherence.

Section Extensions.
Import JsString.

(** The characters of a file extension: neither a dot nor a slash of
    either kind. *)
Definition extension_char (c : ascii) : bool :=
  negb (Ascii.eqb c dot || is_slash c || Ascii.eqb c "\"%char).

(** A name of one segment: it is not empty and holds no slash. *)
Definition segment (s : string) : Prop :=
  s <> EmptyString /\ Forall (fun c => is_slash c = false) (chars s).

End Extensions.

Section ExampleProjects.

Definition cyclic_fs : Fs.t :=
  Fs.mkFs "/p"
    (<["/p/a.js" := Fs.mkNode (Fs.mkStats 20 1700000000000)
                      (Some "import b from './b';")]>
     (<["/p/b.js" := Fs.mkNode (Fs.mkStats 20 1700000000001)
                      (Some "import a from './a';")]> ∅)).

Definition new_detector : DeepCycleDetector.t :=
  DeepCycleDetector.mkDetector ∅ ∅ false.

End ExampleProjects.

Section Covered.
Import JsString DeepCycleDetector.

(** The file a reported cycle starts at. *)
Definition start_of (e : CycleEntry) : string :=
  hd EmptyString (entry_cycle e).

(** The names [getAllCycles] marks as visited for a reported cycle. *)
Definition covered_by (e : CycleEntry) : list string :=
  toLowerCase <$> entry_cycle e.

(** No reported cycle starts at a file that an earlier reported cycle
    covers. *)
Fixpoint starts_uncovered (seen : list string) (l : list CycleEntry) : Prop :=
  match l with
  | [] => True
  | e :: l' =>
      (toLowerCase (start_of e) ∉ seen) /\
      starts_uncovered (covered_by e ++ seen) l'
  end.

End Covered.

Section Edges.
Import DeepCycleDetector.
Variable fs : Fs.t.

(** Every dependency recorded in the graph is a file that exists. *)
Definition edges_exist (d : t) : Prop :=
  forall file deps, dependencyGraph d !! file = Some deps ->
    Forall (fun dep => Fs.existsSync fs dep = true) deps.

(** The entry and the time stamp of a file. *)
Definition record_of (file : string) (d : t) : option (list string) * option Z :=
  (dependencyGraph d !! file, fileTimestamps d !! file).

End Edges.

Section Flows.
Import SmartAdvisor.

(** The flows between concepts that [ALLOWED_FLOW] leaves out. *)
Definition suspicious_flows : list (string * string) :=
  [ ("Presentation", "Data");
    ("Business", "Presentation");
    ("Data", "Presentation"); ("Data", "Business");
    ("Utility", "Presentation"); ("Utility", "Business"); ("Utility", "Data") ].

Definition concept_names : list string :=
  ["Presentation"; "Business"; "Data"; "Utility"; "Unknown"].

End Flows.

Section Learning.
Import AIKernel.
Variable fs : Fs.t.

(** The number of tokens equal to [token]. *)
Definition occurrences (token : string) (tokens : list string) : nat :=
  List.length (filter (fun t => t = token) tokens).

(** What [learn] records for a file it can read. *)
Definition learned_vector (file : string) : option (JsMap.t N) :=
  (fun content => _vectorize (_tokenize content)) <$> Fs.readFileSync fs file.

Definition learned_count (file : string) : option N :=
  _countImports <$> Fs.readFileSync fs file.

End Learning.

Section Signs.

(** Values above zero. *)
Definition above_zero (x : spec_float) : Prop :=
  match x with
  | S754_finite false _ _ | S754_infinity false => True
  | _ => False
  end.

End Signs.

Section ExampleModels.
Import AIKernel.
Local Open Scope float_scope.

(** A kernel whose model says two imports on average, deviation one. *)
Definition taught_kernel : AIKernel.t :=
  mkKernel [] [] (Some (mkStats 2 1)) false.

Definition many_imports : string :=
  "import a; import b; import c; import d; import e; import f;".

(** Builtins for the examples: the formatting is left out. *)
Definition no_format (x : float) (digits : nat) : string := EmptyString.
Definition no_text (x : float) : string := EmptyString.
Definition no_round (x : float) : float := x.

(** A kernel that has learned two files with the same tokens. *)
Definition twin_kernel : AIKernel.t :=
  mkKernel [("/p/a.js", one_token); ("/p/b.js", one_token)] [] None false.

End ExampleModels.

Section Chains.
Import DeepCycleDetector.
Variable g : gmap string (list string).

(** The state of the search once the files of [entered] have been
    entered one after the other. *)
Definition entered_state (entered : list string) : DfsState :=
  mkDfs (list_to_set (normalize <$> entered))
        (list_to_set (normalize <$> entered)) entered.

(** Each file of [files] lists as its first dependency the file that
    follows it in [files ++ [back]]. *)
Definition first_dependency_chain (files : list string) (back : string) : Prop :=
  forall i file next,
    files !! i = Some file -> (files ++ [back]) !! S i = Some next ->
    exists rest, g !! file = Some (next :: rest).

(** Each file of [files] has a single dependency, the file that follows
    it in [files ++ [back]]. *)
Definition single_dependency_chain (files : list string) (back : string) : Prop :=
  forall i file next,
    files !! i = Some file -> (files ++ [back]) !! S i = Some next ->
    g !! file = Some [next].

End Chains.

Section ExampleChains.

Definition ring_of (names : list string) : gmap string (list string) :=
  list_to_map (zip names (map (fun n => [n]) (tail names ++ take 1 names))).

Definition eleven_files : list string :=
  ["/p/f0.js"; "/p/f1.js"; "/p/f2.js"; "/p/f3.js"; "/p/f4.js"; "/p/f5.js";
   "/p/f6.js"; "/p/f7.js"; "/p/f8.js"; "/p/f9.js"; "/p/f10.js"].

End ExampleChains.

Section Totals.
Import MetricsCalculator.

(** The number of files recorded in a map, over all its keys. *)
Definition total_length (m : JsMap.t (list string)) : nat :=
  sum_list (List.length <$> JsMap.values m).

(** [this.couplingData.get(filePath) || { afferent: 0, efferent: 0 }],
    as [calculateInstability] reads it. *)
Definition coupling_of (m : t) (filePath : string) : Coupling :=
  default (mkCoupling 0 0) (JsMap.get (couplingData m) filePath).

(** [totalAfferent] and [totalEfferent] of [getProjectSummary]: the loop
    over the keys of [couplingData] adds up what is read for each key. *)
Definition totalAfferentCoupling (m : t) : nat :=
  sum_list ((fun filePath => afferent (coupling_of m filePath))
              <$> map fst (couplingData m)).

Definition totalEfferentCoupling (m : t) : nat :=
  sum_list ((fun filePath => efferent (coupling_of m filePath))
              <$> map fst (couplingData m)).

End Totals.

Section LineCounts.
Import JsString UnusedImportDetector.

(** The number of line breaks in a text. *)
Definition line_breaks (l : list ascii) : nat :=
  List.length (filter (fun c => is_newline c = true) l).

End LineCounts.

Section LeadingAway.
Import DeepCycleDetector.
Variable g : gmap string (list string).

(** A region of the graph leads downhill when the dependencies of each
    of its files are files of the region of lower rank, the rank being
    that of the normal form: the region is closed under dependencies and
    holds no cycle. *)
Definition downhill (rank : string -> nat) (region : string -> Prop) : Prop :=
  forall x y, region x -> y ∈ default [] (g !! x) ->
    region y /\ (rank (normalize y) < rank (normalize x))%nat.

(** No file of the region has the normal form of one of [files]. *)
Definition apart_from (region : string -> Prop) (files : list string) : Prop :=
  forall x f, region x -> f ∈ files -> normalize x <> normalize f.

(** The names of [names] are normal forms of files of the region. *)
Definition within (region : string -> Prop) (names : gset string) : Prop :=
  forall n, n ∈ names -> exists x, region x /\ normalize x = n.

End LeadingAway.

Section SearchesAway.
Import DeepCycleDetector.
Variable rank : string -> nat.
Variable region : string -> Prop.

(** What a search that leads away leaves behind: the stack and the path
    as they were, and as newly visited names only names of the region. *)
Definition led_away (st st' : DfsState) : Prop :=
  recursionStack st' = recursionStack st /\
  cyclePath st' = cyclePath st /\
  exists seen, within region seen /\ visited st' = seen ∪ visited st.

(** The names of the region on the stack are all of higher rank than
    [file]. *)
Definition above (file : string) (st : DfsState) : Prop :=
  forall x, region x -> normalize x ∈ recursionStack st ->
    (rank (normalize file) < rank (normalize x))%nat.

End SearchesAway.

Section ExampleDetours.

(** x.js and X.js differ in letter case only; each file has one
    dependency and the three entries form a cycle. *)
Definition case_twin_graph : gmap string (list string) :=
  <["/p/x.js" := ["/p/X.js"]]>
    (<["/p/X.js" := ["/p/c.js"]]> (<["/p/c.js" := ["/p/x.js"]]> ∅)).

(** The cycle a, b, c, with a dependency of a listed before b that leads
    back to a. *)
Definition detour_graph : gmap string (list string) :=
  <["/p/a.js" := ["/p/d.js"; "/p/b.js"]]>
    (<["/p/b.js" := ["/p/c.js"]]>
       (<["/p/c.js" := ["/p/a.js"]]> (<["/p/d.js" := ["/p/a.js"]]> ∅))).

(** The cycle a, b, c with dependencies that lead away listed before
    those of the cycle: d has none, e leads to d, and both are listed
    more than once. *)
Definition dead_end_graph : gmap string (list string) :=
  <["/p/a.js" := ["/p/d.js"; "/p/b.js"]]>
    (<["/p/b.js" := ["/p/e.js"; "/p/d.js"; "/p/c.js"; "/p/a.js"]]>
       (<["/p/c.js" := ["/p/e.js"; "/p/a.js"]]>
          (<["/p/e.js" := ["/p/d.js"]]> ∅))).

Definition dead_end_rank (n : string) : nat :=
  if String.eqb n "/p/e.js" then 1 else 0.

Definition dead_end_region (x : string) : Prop :=
  x = "/p/d.js" \/ x = "/p/e.js".

End ExampleDetours.

Section Firing.
Import RuleEngine.
Variable minimatch : string -> string -> bool -> bool.

(** A rule fires on an import with [pattern]: the rule's source pattern
    matches the source, and [pattern] is the first of its disallowed
    patterns that matches the target. *)
Definition fires (src target : string) (rule : Rule) (pattern : string)
    : Prop :=
  minimatch src (source rule) true = true /\
  exists patterns j,
    disallow rule = Some patterns /\
    patterns !! j = Some pattern /\
    minimatch target pattern true = true /\
    forall k p, (k < j)%nat -> patterns !! k = Some p ->
                minimatch target p true = false.

(** A rule is silent on an import: its source pattern does not match
    the source, or it disallows nothing that matches the target. *)
Definition silent (src target : string) (rule : Rule) : Prop :=
  minimatch src (source rule) true = false \/
  forall patterns p, disallow rule = Some patterns -> p ∈ patterns ->
                     minimatch target p true = false.

(** The violation of a rule: its own message when it has one that is
    not empty, the standard wording otherwise. *)
Definition rule_violation (src : string) (rule : Rule) (pattern : string)
    : Violation :=
  mkViolation true
    match rule_message rule with
    | Some (String c text) => String c text
    | _ => "Violation: '" +:+ src +:+ "' cannot import from '" +:+
           pattern +:+ "'"
    end.

End Firing.

Section ExampleGlobs.
Import JsString RuleEngine.

(** The part of minimatch the examples use: paths and patterns whose
    segments are not empty and hold no character that is special in a
    glob, but that the last segment of a pattern may be the globstar.
    Such a segment matches the segment equal to it, and a globstar at
    the end matches the one or more segments that are left when none of
    them starts with a dot. *)
Fixpoint segments_match (pattern path : list string) : bool :=
  match pattern, path with
  | [], [] => true
  | p :: ps, f :: fs =>
      if String.eqb p "**" && bool_decide (ps = [])
      then forallb (fun seg => negb (startsWith seg ".")) (f :: fs)
      else String.eqb p f && segments_match ps fs
  | _, _ => false
  end.

(** With [matchBase] a pattern without slash is compared with the last
    segment of the path. *)
Definition plain_glob (path pattern : string) (matchBase : bool) : bool :=
  let pattern_segments := split is_slash pattern in
  let path_segments := split is_slash path in
  if matchBase && (List.length pattern_segments =? 1)%nat
  then segments_match pattern_segments
         [List.last path_segments EmptyString]
  else segments_match pattern_segments path_segments.

Definition glob_layers : list Layer :=
  [mkLayer "Domain" "src/domain/**"; mkLayer "Presentation" "src/ui/**"].

(** The domain may import neither the infrastructure nor the user
    interface. *)
Definition domain_rule : Rule :=
  mkRule "src/domain/**" (Some ["src/infra/**"; "src/ui/**"]) None.

(** A rule about tests, with a message of its own. *)
Definition test_rule : Rule :=
  mkRule "test/**" (Some ["src/ui/**"]) (Some "Tests stay out of the UI").

End ExampleGlobs.

Section Skipping.
Import DeepCycleDetector.
Variable fs : Fs.t.

(** A build passes over a file that is missing, that is too large, or
    whose stored time stamp is not zero and is the modification time of
    the file. *)
Definition skipped (d : t) (filePath : string) : Prop :=
  match Fs.statSync fs filePath with
  | None => True
  | Some stats =>
      (MAX_FILE_SIZE < Fs.size stats)%Z \/
      (fileTimestamps d !! filePath = Some (Fs.mtimeMs stats) /\
       Fs.mtimeMs stats <> 0%Z)
  end.

End Skipping.

Section Unchanged.
Import DeepCycleDetector.
Variables fs fs' : Fs.t.

(** A file has not changed from [fs] to [fs'] for a build: in [fs'] it
    is missing or too large, or it has a modification time other than 0
    that is the one it had in [fs], where it was within the size limit
    and could be read. *)
Definition unchanged_since (filePath : string) : Prop :=
  match Fs.statSync fs' filePath with
  | None => True
  | Some stats' =>
      (MAX_FILE_SIZE < Fs.size stats')%Z \/
      (Fs.mtimeMs stats' <> 0%Z /\
       exists stats content,
         Fs.statSync fs filePath = Some stats /\
         (Fs.size stats <= MAX_FILE_SIZE)%Z /\
         Fs.readFileSync fs filePath = Some content /\
         Fs.mtimeMs stats = Fs.mtimeMs stats')
  end.

End Unchanged.

Section ExampleRuns.

(** A project whose file a.js has the modification time 0; in the
    second state of the project the text of a.js is another one, of the
    same length, and every modification time is as before. *)
Definition epoch_fs (text : string) : Fs.t :=
  Fs.mkFs "/p"
    (<["/p/a.js" := Fs.mkNode (Fs.mkStats 20 0) (Some text)]>
     (<["/p/b.js" := Fs.mkNode (Fs.mkStats 10 1700000000000)
                       (Some "let b = 1;")]>
      (<["/p/c.js" := Fs.mkNode (Fs.mkStats 10 1700000000000)
                        (Some "let c = 1;")]> ∅))).

Definition epoch_before : Fs.t := epoch_fs "import x from './b';".
Definition epoch_after : Fs.t := epoch_fs "import x from './c';".

(** A project whose file a.js cannot be read at first and can be read
    later, its modification time being the same. *)
Definition locked_fs (data : option string) : Fs.t :=
  Fs.mkFs "/p"
    (<["/p/a.js" := Fs.mkNode (Fs.mkStats 20 1700000000000) data]>
     (<["/p/b.js" := Fs.mkNode (Fs.mkStats 10 1700000000000)
                       (Some "let b = 1;")]> ∅)).

Definition locked_before : Fs.t := locked_fs None.
Definition locked_after : Fs.t := locked_fs (Some "import x from './b';").

(** A project with a file of non-zero modification time whose text
    changes while the time does not. *)
Definition stale_fs (text : string) : Fs.t :=
  Fs.mkFs "/p"
    (<["/p/a.js" := Fs.mkNode (Fs.mkStats 20 1700000000000) (Some text)]>
     (<["/p/b.js" := Fs.mkNode (Fs.mkStats 10 1700000000000)
                       (Some "let b = 1;")]>
      (<["/p/c.js" := Fs.mkNode (Fs.mkStats 10 1700000000000)
                        (Some "let c = 1;")]> ∅))).

Definition stale_before : Fs.t := stale_fs "import x from './b';".
Definition stale_after : Fs.t := stale_fs "import x from './c';".

End ExampleRuns.

(** * Part III: properties *)

(** ** Lookups in a table *)

Section Lookups.

Lemma JsMap_get_elem {V} (m : JsMap.t V) key v :
  JsMap.get m key = Some v -> (exists k, (k, v) ∈ m).
Proof.
  induction m as [|[k w] m IH]; simpl; [done|].
  destruct (String.eqb k key).
  - intros [= ->]. exists k. by left.
  - intros H. destruct (IH H) as [k' Hk']. exists k'. by right.
Qed.

Lemma JsMap_get_None {V} (m : JsMap.t V) key :
  key ∉ map fst m -> JsMap.get m key = None.
Proof.
  induction m as [|[k v] m IH]; simpl; [done|]. intros Hk.
  destruct (String.eqb_spec k key) as [->|_]; [set_solver|].
  apply IH. set_solver.
Qed.

Lemma JsMap_get_Some {V} (m : JsMap.t V) key :
  key ∈ map fst m -> exists v, JsMap.get m key = Some v.
Proof.
  induction m as [|[k v] m IH]; simpl; [by intros ?%elem_of_nil|].
  intros Hk. destruct (String.eqb_spec k key) as [->|Hne]; [by eexists|].
  apply IH. set_solver.
Qed.

End Lookups.

(** ** The depth-first search *)

Section DfsFacts.
Import DeepCycleDetector.
Variable g : gmap string (list string).

Lemma for_deps_cons visit d rest st :
  for_deps visit (d :: rest) st =
  match visit d st with
  | (true, st') => (true, st')
  | (false, st') => for_deps visit rest st'
  end.
Proof. reflexivity. Qed.

Lemma for_deps_app visit pre rest st :
  for_deps visit (pre ++ rest) st =
  match for_deps visit pre st with
  | (true, st') => (true, st')
  | (false, st') => for_deps visit rest st'
  end.
Proof.
  revert st. induction pre as [|d pre IH]; intros st; simpl; [done|].
  destruct (visit d st) as [[] st']; [done|]. apply IH.
Qed.

Lemma _dfs_unfold fuel file st depth :
  _dfs g (S fuel) file st depth =
  if (MAX_DEPTH <? depth)%nat then (false, st)
  else if bool_decide (normalize file ∈ recursionStack st)
  then (true, push_path file st)
  else if bool_decide (normalize file ∈ visited st)
  then (false, st)
  else
    match for_deps (fun dep s => _dfs g fuel dep s (S depth))
                   (default [] (g !! file)) (enter file st) with
    | (true, st') => (true, st')
    | (false, st') => (false, leave file st')
    end.
Proof. reflexivity. Qed.

Lemma _dfs_hit fuel file st depth :
  (depth <= MAX_DEPTH)%nat ->
  normalize file ∈ recursionStack st ->
  _dfs g (S fuel) file st depth = (true, push_path file st).
Proof.
  intros Hd Hin. rewrite _dfs_unfold.
  destruct (Nat.ltb_spec MAX_DEPTH depth); [lia|].
  by rewrite bool_decide_eq_true_2.
Qed.

Lemma _dfs_enter fuel file st depth :
  (depth <= MAX_DEPTH)%nat ->
  normalize file ∉ recursionStack st ->
  normalize file ∉ visited st ->
  _dfs g (S fuel) file st depth =
  match for_deps (fun dep s => _dfs g fuel dep s (S depth))
                 (default [] (g !! file)) (enter file st) with
  | (true, st') => (true, st')
  | (false, st') => (false, leave file st')
  end.
Proof.
  intros Hd Hstk Hvis. rewrite _dfs_unfold.
  destruct (Nat.ltb_spec MAX_DEPTH depth); [lia|].
  by rewrite !bool_decide_eq_false_2.
Qed.

(** Descending along the first dependency of a fresh file. *)
Lemma _dfs_descend fuel file dep rest st depth st' :
  (depth <= MAX_DEPTH)%nat ->
  normalize file ∉ recursionStack st ->
  normalize file ∉ visited st ->
  g !! file = Some (dep :: rest) ->
  _dfs g fuel dep (enter file st) (S depth) = (true, st') ->
  _dfs g (S fuel) file st depth = (true, st').
Proof.
  intros Hd Hstk Hvis Hg Hdep. rewrite _dfs_enter by done.
  rewrite Hg. simpl. by rewrite Hdep.
Qed.

(** The fuel is never the reason for an answer: once it exceeds the
    number of levels the depth test lets through, more fuel changes nothing. *)
Lemma _dfs_fuel fuel1 fuel2 file st depth :
  (MAX_DEPTH < fuel1 + depth)%nat ->
  (MAX_DEPTH < fuel2 + depth)%nat ->
  _dfs g fuel1 file st depth = _dfs g fuel2 file st depth.
Proof.
  revert fuel2 file st depth.
  induction fuel1 as [|f1 IH]; intros fuel2 file st depth H1 H2.
  all: pose proof (eq_refl : MAX_DEPTH = 10%nat) as HM.
  - destruct fuel2 as [|f2]; [done|]. rewrite _dfs_unfold.
    destruct (Nat.ltb_spec MAX_DEPTH depth); [done | simpl in H1; lia].
  - destruct fuel2 as [|f2].
    + rewrite _dfs_unfold.
      destruct (Nat.ltb_spec MAX_DEPTH depth); [done | simpl in H2; lia].
    + rewrite !_dfs_unfold.
      destruct (Nat.ltb_spec MAX_DEPTH depth) as [|Hd]; [done|].
      repeat case_bool_decide; try done.
      assert (Hloop : forall deps s,
        for_deps (fun dep s => _dfs g f1 dep s (S depth)) deps s =
        for_deps (fun dep s => _dfs g f2 dep s (S depth)) deps s).
      { induction deps as [|d deps IHd]; intros s; simpl; [done|].
        rewrite (IH f2 d s (S depth)) by lia.
        destruct (_dfs g f2 d s (S depth)) as [[] s']; [done|]. apply IHd. }
      by rewrite Hloop.
Qed.

(** A search that finds nothing restores the stack and the path. *)
Lemma for_deps_false visit deps st st' :
  (forall d s s', visit d s = (false, s') ->
     recursionStack s' = recursionStack s /\ cyclePath s' = cyclePath s) ->
  for_deps visit deps st = (false, st') ->
  recursionStack st' = recursionStack st /\ cyclePath st' = cyclePath st.
Proof.
  intros Hvisit. revert st.
  induction deps as [|d deps IHd]; intros s Hs; simpl in Hs.
  - by inversion Hs.
  - destruct (visit d s) as [[] s1] eqn:Hd; [done|].
    apply Hvisit in Hd as [Hd1 Hd2]. apply IHd in Hs as [Hs1 Hs2].
    split; congruence.
Qed.

Lemma _dfs_false fuel file st depth st' :
  _dfs g fuel file st depth = (false, st') ->
  recursionStack st' = recursionStack st /\ cyclePath st' = cyclePath st.
Proof.
  revert file st depth st'.
  induction fuel as [|fuel IH]; intros file st depth st' H.
  - simpl in H. by inversion H.
  - rewrite _dfs_unfold in H.
    destruct (MAX_DEPTH <? depth)%nat; [by inversion H|].
    case_bool_decide as Hstk; [done|].
    case_bool_decide as Hvis; [by inversion H|].
    assert (Hloop : forall deps s s',
      for_deps (fun dep s => _dfs g fuel dep s (S depth)) deps s = (false, s') ->
      recursionStack s' = recursionStack s /\ cyclePath s' = cyclePath s).
    { induction deps as [|d deps IHd]; intros s s' Hs; simpl in Hs.
      - by inversion Hs.
      - destruct (_dfs g fuel d s (S depth)) as [[] s1] eqn:Hd; [done|].
        apply IH in Hd as [Hd1 Hd2]. apply IHd in Hs as [Hs1 Hs2].
        split; congruence. }
    destruct (for_deps _ _ _) as [[] s1] eqn:Hfor; [done|].
    inversion H; subst st'; clear H.
    apply Hloop in Hfor as [Hs Hp]. unfold leave; simpl.
    rewrite Hs, Hp. simpl. split.
    + apply set_eq. intros x. rewrite elem_of_difference, elem_of_union,
        elem_of_singleton. naive_solver.
    + apply removelast_last.
Qed.

Lemma _dfs_true fuel file st depth st' :
  stack_on_path st ->
  _dfs g fuel file st depth = (true, st') ->
  extends_by_walk g file st st'.
Proof.
  revert file st depth st'.
  induction fuel as [|fuel IH]; intros file st depth st' Hinv H.
  - done.
  - rewrite _dfs_unfold in H.
    destruct (MAX_DEPTH <? depth)%nat; [done|].
    case_bool_decide as Hstk.
    { inversion H; subst st'; clear H.
      destruct (Hinv _ Hstk) as (y & Hy & Hn).
      exists [], file. simpl. split; [done|]. split; [done|]. split; [done|].
      exists y. by rewrite app_nil_r. }
    case_bool_decide as Hvis; [done|].
    destruct (for_deps _ _ _) as [[] s1] eqn:Hfor; [|done].
    inversion H; subst s1; clear H.
    assert (Hinv1 : stack_on_path (enter file st)).
    { intros n Hn. simpl in Hn. apply elem_of_union in Hn as [Hn|Hn].
      - apply elem_of_singleton in Hn as ->. exists file. simpl. set_solver.
      - destruct (Hinv _ Hn) as (y & Hy & Hyn). exists y. simpl. set_solver. }
    assert (Hloop : forall deps s,
      stack_on_path s ->
      for_deps (fun dep s => _dfs g fuel dep s (S depth)) deps s = (true, st') ->
      exists d, d ∈ deps /\ exists s0,
        cyclePath s0 = cyclePath s /\ extends_by_walk g d s0 st').
    { induction deps as [|d deps IHd]; intros s Hs Hrun; simpl in Hrun; [done|].
      destruct (_dfs g fuel d s (S depth)) as [[] s2] eqn:Hd.
      - inversion Hrun; subst s2. exists d. split; [set_solver|].
        exists s. split; [done|]. by eapply IH.
      - apply _dfs_false in Hd as [Hstack Hpath].
        destruct (IHd s2) as (d' & Hd' & s0 & Hs0 & Hext); [|done|].
        + intros n Hn. rewrite Hstack in Hn. rewrite Hpath. by apply Hs.
        + exists d'. split; [set_solver|]. exists s0. by rewrite Hs0, Hpath. }
    destruct (Hloop _ _ Hinv1 Hfor) as (d & Hd & s0 & Hs0 & w & last & Hp & Hhd & Hw & y & Hy & Hyn).
    rewrite Hs0 in Hp, Hy. simpl in Hp, Hy.
    exists (file :: w), last. split; [|split; [done|split]].
    + by rewrite Hp, <- !app_assoc.
    + simpl. destruct (w ++ [last]) as [|z t] eqn:Hwl.
      { by destruct w. }
      split; [|done].
      assert (z = d) as ->.
      { destruct w as [|z' w']; simpl in *; congruence. }
      destruct (g !! file) as [deps|] eqn:Hg; simpl in Hd; [|by apply elem_of_nil in Hd].
      by exists deps.
    + exists y. split; [|done]. by rewrite <- app_assoc in Hy.
Qed.

End DfsFacts.

(** ** Searches that lead away *)

Section AwayFacts.
Import DeepCycleDetector.
Variable g : gmap string (list string).
Variable rank : string -> nat.
Variable region : string -> Prop.
Hypothesis Hdown : downhill g rank region.

Lemma led_away_refl st : led_away region st st.
Proof.
  split; [done|]. split; [done|]. exists ∅. split; [|set_solver].
  by intros n ?%not_elem_of_empty.
Qed.

Lemma led_away_trans st1 st2 st3 :
  led_away region st1 st2 -> led_away region st2 st3 -> led_away region st1 st3.
Proof.
  intros (Hs1 & Hp1 & seen1 & Hw1 & Hv1) (Hs2 & Hp2 & seen2 & Hw2 & Hv2).
  split; [congruence|]. split; [congruence|].
  exists (seen2 ∪ seen1). split.
  - intros n [Hn|Hn]%elem_of_union; [by apply Hw2|by apply Hw1].
  - rewrite Hv2, Hv1. set_solver.
Qed.

Lemma _dfs_leads_away fuel : forall file st depth,
  region file -> above rank region file st ->
  exists st', _dfs g fuel file st depth = (false, st') /\ led_away region st st'.
Proof.
  induction fuel as [|fuel IH]; intros file st depth Hfile Habove.
  { exists st. split; [done|apply led_away_refl]. }
  rewrite _dfs_unfold.
  destruct (MAX_DEPTH <? depth)%nat.
  { exists st. split; [done|apply led_away_refl]. }
  case_bool_decide as Hstk.
  { specialize (Habove file Hfile Hstk). lia. }
  case_bool_decide as Hvis.
  { exists st. split; [done|apply led_away_refl]. }
  assert (Hloop : forall deps s,
    (forall y, y ∈ deps -> region y /\ above rank region y s) ->
    exists s', for_deps (fun dep s => _dfs g fuel dep s (S depth)) deps s
               = (false, s') /\ led_away region s s').
  { induction deps as [|y deps IHd]; intros s Hdeps.
    { exists s. split; [done|apply led_away_refl]. }
    destruct (Hdeps y) as [Hy Hyabove]; [by left|].
    destruct (IH y s (S depth) Hy Hyabove) as (s1 & Hrun & Haway).
    destruct (IHd s1) as (s2 & Hrest & Haway2).
    { intros z Hz. destruct (Hdeps z) as [Hz1 Hz2]; [by right|].
      split; [done|]. intros x Hx Hin. apply Hz2; [done|].
      destruct Haway as [Hs _]. by rewrite <- Hs. }
    exists s2. split.
    - rewrite for_deps_cons, Hrun. exact Hrest.
    - by eapply led_away_trans. }
  destruct (Hloop (default [] (g !! file)) (enter file st))
    as (s' & Hrun & Hs & Hp & seen & Hw & Hv).
  { intros y Hy. destruct (Hdown file y Hfile Hy) as [Hry Hlt].
    split; [done|]. intros x Hx Hin. simpl in Hin.
    apply elem_of_union in Hin as [->%elem_of_singleton|Hin]; [done|].
    specialize (Habove x Hx Hin). lia. }
  rewrite Hrun. eexists. split; [done|].
  unfold leave, led_away. simpl in *. rewrite Hs, Hp. split; [|split].
  - set_solver.
  - apply removelast_last.
  - exists ({[normalize file]} ∪ seen). split; [|set_solver].
    intros n [->%elem_of_singleton|Hn]%elem_of_union; [by exists file|by apply Hw].
Qed.

(** The search through dependencies that lead away finds nothing. *)
Lemma for_deps_lead_away fuel depth deps st :
  Forall region deps ->
  (forall x, region x -> normalize x ∉ recursionStack st) ->
  exists st', for_deps (fun dep s => _dfs g fuel dep s depth) deps st
              = (false, st') /\ led_away region st st'.
Proof.
  intros Hdeps. revert st. induction Hdeps as [|y deps Hy _ IH]; intros st Hst.
  { exists st. split; [done|apply led_away_refl]. }
  destruct (_dfs_leads_away fuel y st depth Hy) as (s1 & Hrun & Haway).
  { intros x Hx Hin. by apply Hst in Hin. }
  destruct (IH s1) as (s2 & Hrest & Haway2).
  { intros x Hx. destruct Haway as [-> _]. by apply Hst. }
  exists s2. split.
  - rewrite for_deps_cons, Hrun. exact Hrest.
  - by eapply led_away_trans.
Qed.

End AwayFacts.

(** ** Deep cycles *)

Section ThreeCycle.
Import DeepCycleDetector.
Variable g : gmap string (list string).
Variable rank : string -> nat.
Variable region : string -> Prop.
Hypothesis Hdown : downhill g rank region.

(** Entering a fresh file whose dependencies lead away up to [next]: the
    search goes on with [next], the file entered, the stack and the path
    being those after [enter]. *)
Lemma _dfs_past_dead_ends fuel file pre next rest st depth :
  (depth <= MAX_DEPTH)%nat ->
  normalize file ∉ recursionStack st ->
  normalize file ∉ visited st ->
  g !! file = Some (pre ++ next :: rest) ->
  Forall region pre ->
  (forall x, region x -> normalize x ∉ recursionStack (enter file st)) ->
  exists s1, led_away region (enter file st) s1 /\
    _dfs g (S fuel) file st depth =
    match _dfs g fuel next s1 (S depth) with
    | (true, st') => (true, st')
    | (false, st') =>
        match for_deps (fun dep s => _dfs g fuel dep s (S depth)) rest st' with
        | (true, st'') => (true, st'')
        | (false, st'') => (false, leave file st'')
        end
    end.
Proof.
  intros Hd Hstk Hvis Hg Hpre Hapart.
  destruct (for_deps_lead_away g rank region Hdown fuel (S depth) pre
              (enter file st) Hpre Hapart) as (s1 & Hrun & Haway).
  exists s1. split; [done|].
  rewrite _dfs_enter by done. rewrite Hg.
  change (default [] (Some (pre ++ next :: rest))) with (pre ++ next :: rest).
  rewrite for_deps_app, Hrun, for_deps_cons.
  by destruct (_dfs g fuel next s1 (S depth)) as [[] st'].
Qed.

(** C1, amended: three files A, B, C that are distinct for the detector
    (pairwise different normal forms) and whose graph entries list B, C
    and A, the dependencies listed before these being files of a region
    that leads downhill and lies apart from A, B and C, so that the
    search through them finds nothing: [detectDeepCycle A] answers
    hasCycle = true, depth = 3 and the path [A; B; C; A].  This is so in
    particular when B, C and A are the first dependencies listed. *)
Theorem detectDeepCycle_three_cycle A B C preA restA preB restB preC restC :
  normalize A <> normalize B ->
  normalize B <> normalize C ->
  normalize A <> normalize C ->
  g !! A = Some (preA ++ B :: restA) ->
  g !! B = Some (preB ++ C :: restB) ->
  g !! C = Some (preC ++ A :: restC) ->
  apart_from region [A; B; C] ->
  Forall region (preA ++ preB ++ preC) ->
  detectDeepCycle g A =
  Some (mkCycle true [A; B; C; A] 3 (cycle_message [A; B; C; A])).
Proof.
  intros HAB HBC HAC HA HB HC Hapart Hpre.
  apply Forall_app in Hpre as [HpreA Hpre].
  apply Forall_app in Hpre as [HpreB HpreC].
  assert (HnA : forall x, region x -> normalize x <> normalize A).
  { intros x Hx. apply Hapart; [done|set_solver]. }
  assert (HnB : forall x, region x -> normalize x <> normalize B).
  { intros x Hx. apply Hapart; [done|set_solver]. }
  assert (HnC : forall x, region x -> normalize x <> normalize C).
  { intros x Hx. apply Hapart; [done|set_solver]. }
  assert (Hfresh : forall file seen (old : gset string),
            within region seen -> (forall x, region x -> normalize x <> normalize file) ->
            normalize file ∉ old -> normalize file ∉ seen ∪ old).
  { intros file seen old Hw Hfile Hold [Hin|Hin]%elem_of_union; [|done].
    destruct (Hw _ Hin) as (x & Hx & Heq). by apply (Hfile x). }
  assert (Hrun : exists st, _dfs g (S MAX_DEPTH) A initial 0 = (true, st) /\
                            cyclePath st = [A; B; C; A]).
  { destruct (_dfs_past_dead_ends MAX_DEPTH A preA B restA initial 0)
      as (s1 & (Hs1 & Hp1 & seen1 & Hw1 & Hv1) & ->);
      [unfold MAX_DEPTH; lia|set_solver|set_solver|done|done| |].
    { intros x Hx. specialize (HnA x Hx). simpl. set_solver. }
    simpl in Hs1, Hp1, Hv1.
    unfold MAX_DEPTH at 1.
    destruct (_dfs_past_dead_ends 9 B preB C restB s1 1)
      as (s2 & (Hs2 & Hp2 & seen2 & Hw2 & Hv2) & ->);
      [unfold MAX_DEPTH; lia| | |done|done| |].
    { rewrite Hs1. set_solver. }
    { rewrite Hv1. apply Hfresh; [done|done|set_solver]. }
    { intros x Hx. specialize (HnA x Hx). specialize (HnB x Hx).
      simpl. rewrite Hs1. set_solver. }
    simpl in Hs2, Hp2, Hv2.
    destruct (_dfs_past_dead_ends 8 C preC A restC s2 2)
      as (s3 & (Hs3 & Hp3 & seen3 & Hw3 & Hv3) & ->);
      [unfold MAX_DEPTH; lia| | |done|done| |].
    { rewrite Hs2, Hs1. set_solver. }
    { rewrite Hv2, Hv1. apply Hfresh; [done|done|].
      apply not_elem_of_union. split; [set_solver|].
      apply Hfresh; [done|done|set_solver]. }
    { intros x Hx. specialize (HnA x Hx). specialize (HnB x Hx).
      specialize (HnC x Hx). simpl. rewrite Hs2, Hs1. set_solver. }
    simpl in Hs3, Hp3, Hv3.
    rewrite _dfs_hit; [|unfold MAX_DEPTH; lia|rewrite Hs3, Hs2, Hs1; set_solver].
    eexists. split; [done|]. simpl. rewrite Hp3, Hp2, Hp1. done. }
  destruct Hrun as (st & Hrun & Hpath).
  unfold detectDeepCycle. by rewrite Hrun, Hpath.
Qed.

End ThreeCycle.

(** C1, as stated, fails.  Two files whose paths differ in letter case
    only are one file to the search: for the cycle x.js, X.js, c.js the
    path closes on X.js with two entries and the answer is null.  And a
    cycle met earlier in the search is the one returned: in
    [detour_graph] the files a, b, c form a cycle, yet the answer is the
    cycle through d, of depth 2. *)
Lemma detectDeepCycle_three_cycle_missed :
  (case_twin_graph !! "/p/x.js" = Some ["/p/X.js"] /\
   case_twin_graph !! "/p/X.js" = Some ["/p/c.js"] /\
   case_twin_graph !! "/p/c.js" = Some ["/p/x.js"] /\
   DeepCycleDetector.detectDeepCycle case_twin_graph "/p/x.js" = None) /\
  (exists depsA, detour_graph !! "/p/a.js" = Some depsA /\ "/p/b.js" ∈ depsA) /\
  detour_graph !! "/p/b.js" = Some ["/p/c.js"] /\
  detour_graph !! "/p/c.js" = Some ["/p/a.js"] /\
  exists r, DeepCycleDetector.detectDeepCycle detour_graph "/p/a.js" = Some r /\
    DeepCycleDetector.cycle r = ["/p/a.js"; "/p/d.js"; "/p/a.js"] /\
    DeepCycleDetector.depth r = 2%nat.
Proof.
  split; [repeat split; vm_compute; reflexivity|].
  split; [eexists; split; [vm_compute; reflexivity|set_solver]|].
  split; [vm_compute; reflexivity|]. split; [vm_compute; reflexivity|].
  eexists. split; [vm_compute; reflexivity|]. split; reflexivity.
Qed.

Lemma detectDeepCycle_three_cycle_witness :
  DeepCycleDetector.detectDeepCycle dead_end_graph "/p/a.js" =
  Some (DeepCycleDetector.mkCycle true
          ["/p/a.js"; "/p/b.js"; "/p/c.js"; "/p/a.js"] 3
          (DeepCycleDetector.cycle_message
             ["/p/a.js"; "/p/b.js"; "/p/c.js"; "/p/a.js"])).
Proof.
  apply (detectDeepCycle_three_cycle dead_end_graph dead_end_rank
           dead_end_region)
    with (preA := ["/p/d.js"]) (restA := [])
         (preB := ["/p/e.js"; "/p/d.js"]) (restB := ["/p/a.js"])
         (preC := ["/p/e.js"]) (restC := []).
  - intros x y [->| ->] Hy; vm_compute in Hy.
    + by apply elem_of_nil in Hy.
    + apply list_elem_of_singleton in Hy as ->. split; [by left|].
      vm_compute. lia.
  - vm_compute. intros H; discriminate H.
  - vm_compute. intros H; discriminate H.
  - vm_compute. intros H; discriminate H.
  - reflexivity.
  - reflexivity.
  - reflexivity.
  - intros x f [->| ->] Hf;
      repeat (apply elem_of_cons in Hf as [->|Hf];
              [vm_compute; intros H; discriminate H|]);
      by apply elem_of_nil in Hf.
  - repeat constructor; unfold dead_end_region; tauto.
Defined.

Section DeepCycles.
Import DeepCycleDetector.

(** C2, as stated, fails: from a.js the search runs into the cycle
    between b.js and c.js and returns the path a, b, c, b, whose last
    file is not the start file. *)
Lemma detectDeepCycle_last_not_start :
  exists r, detectDeepCycle tail_graph "/p/a.js" = Some r /\
    cycle r = ["/p/a.js"; "/p/b.js"; "/p/c.js"; "/p/b.js"] /\
    normalize (List.last (cycle r) EmptyString) <> normalize "/p/a.js".
Proof.
  eexists. split; [vm_compute; reflexivity|]. split; [reflexivity|].
  vm_compute. intros H; discriminate H.
Qed.

(** C2, amended: every non-null result of [detectDeepCycle start] has
    hasCycle = true and depth = length of the path minus one; the path
    starts at [start], follows dependency edges of the graph, and its
    last element denotes the same file (same normal form) as an earlier
    element of the path, the file found on the recursion stack. *)
Theorem detectDeepCycle_closes_on_path g start r :
  detectDeepCycle g start = Some r ->
  hasCycle r = true /\
  depth r = (length (cycle r) - 1)%nat /\
  exists mid last,
    cycle r = start :: mid ++ [last] /\
    is_walk g (cycle r) /\
    exists y, y ∈ start :: mid /\ normalize y = normalize last.
Proof.
  unfold detectDeepCycle.
  destruct (_dfs g (S MAX_DEPTH) start initial 0) as [found st] eqn:Hrun.
  destruct found; simpl; [|done].
  destruct (2 <? length (cyclePath st))%nat; [|done].
  intros [= <-]. simpl. split; [done|]. split; [done|].
  apply _dfs_true in Hrun as (w & last & Hp & Hhd & Hw & y & Hy & Hyn).
  2:{ intros n Hn. simpl in Hn. by apply not_elem_of_empty in Hn. }
  simpl in Hp, Hy. destruct w as [|x w].
  { by apply elem_of_nil in Hy. }
  simpl in Hhd. subst x. exists w, last. rewrite Hp. by eauto.
Qed.

Lemma detectDeepCycle_closes_on_path_witness :
  exists mid last,
    ["/p/a.js"; "/p/b.js"; "/p/c.js"; "/p/b.js"] = "/p/a.js" :: mid ++ [last] /\
    is_walk tail_graph ["/p/a.js"; "/p/b.js"; "/p/c.js"; "/p/b.js"] /\
    exists y, y ∈ "/p/a.js" :: mid /\ normalize y = normalize last.
Proof.
  apply (detectDeepCycle_closes_on_path tail_graph "/p/a.js"
    (mkCycle true ["/p/a.js"; "/p/b.js"; "/p/c.js"; "/p/b.js"] 3
             (cycle_message ["/p/a.js"; "/p/b.js"; "/p/c.js"; "/p/b.js"]))).
  vm_compute. reflexivity.
Defined.

(** C10, as stated, fails: a.js lists itself among its dependencies,
    yet the search first follows b.js back to a.js and returns the path
    a, b, a. *)
Lemma detectDeepCycle_self_loop_not_null :
  exists deps, self_graph !! "/p/a.js" = Some deps /\
    "/p/a.js" ∈ deps /\
    detectDeepCycle self_graph "/p/a.js" <> None.
Proof.
  exists ["/p/b.js"; "/p/a.js"]. split; [by vm_compute|]. split.
  - set_solver.
  - vm_compute. intros H; discriminate H.
Qed.

(** C10, amended: a non-null result has a path of more than two entries
    (depth at least 2); and for a file whose dependency list contains
    itself, if the search through the dependencies listed before that
    entry finds no cycle (in particular if there are none), then
    [detectDeepCycle] on that file returns null. *)
Theorem detectDeepCycle_short_path_null g file :
  (forall r, detectDeepCycle g file = Some r ->
     (2 < length (cycle r))%nat /\ (2 <= depth r)%nat) /\
  (forall before self after st,
     g !! file = Some (before ++ self :: after) ->
     normalize self = normalize file ->
     for_deps (fun dep s => _dfs g MAX_DEPTH dep s 1) before
              (enter file initial) = (false, st) ->
     detectDeepCycle g file = None).
Proof.
  split.
  - intros r. unfold detectDeepCycle.
    destruct (_dfs g (S MAX_DEPTH) file initial 0) as [found st].
    destruct found; simpl; [|done].
    destruct (Nat.ltb_spec 2 (length (cyclePath st))); [|done].
    intros [= <-]. simpl. lia.
  - intros before self after st Hg Hself Hbefore.
    unfold detectDeepCycle.
    rewrite _dfs_enter by (unfold MAX_DEPTH; lia || set_solver).
    rewrite Hg. simpl default. rewrite for_deps_app, Hbefore.
    apply for_deps_false in Hbefore as [Hstk Hpath];
      [| intros d s s'; apply _dfs_false].
    rewrite for_deps_cons. unfold MAX_DEPTH at 1.
    rewrite _dfs_hit; [| unfold MAX_DEPTH; lia | rewrite Hstk, Hself; set_solver].
    simpl. by rewrite Hpath.
Qed.

Lemma detectDeepCycle_short_path_null_witness :
  detectDeepCycle leaf_self_graph "/p/a.js" = None /\
  forall r, detectDeepCycle cycle3_graph "/p/a.js" = Some r ->
            (2 < length (cycle r))%nat /\ (2 <= depth r)%nat.
Proof.
  split.
  - eapply (proj2 (detectDeepCycle_short_path_null leaf_self_graph "/p/a.js")
              ["/p/b.js"] "/p/a.js" []); [reflexivity|reflexivity|].
    vm_compute. reflexivity.
  - apply (proj1 (detectDeepCycle_short_path_null cycle3_graph "/p/a.js")).
Defined.

End DeepCycles.

(** ** Direct cycles *)

Section DirectCycles.
Import GraphAnalyzer.

(** C3, as stated, fails: for a path that does not exist on the file
    system the check answers null, also for a self-import. *)
Lemma checkCycle_self_missing_file :
  fst (checkCycle empty_fs "/p/a.js" "/p/a.js" create) = None.
Proof. reflexivity. Qed.

(** C3, amended: for every path A that exists on the file system,
    [checkCycle A A] reports a cycle (isCycle = true, the self-import
    message), whatever the import cache holds; for every path A that
    does not exist it returns null; either way it leaves the cache as it
    is. *)
Theorem checkCycle_self_import fs A (a : GraphAnalyzer.t) :
  (Fs.existsSync fs A = true ->
   checkCycle fs A A a = (Some (mkVerdict true "Self-import detected!"), a)) /\
  (Fs.existsSync fs A = false -> checkCycle fs A A a = (None, a)).
Proof.
  unfold checkCycle, _areSameFile. split; intros ->; [|done].
  by rewrite String.eqb_refl.
Qed.

Lemma checkCycle_self_import_witness :
  checkCycle one_file_fs "/p/a.js" "/p/a.js" create =
    (Some (mkVerdict true "Self-import detected!"), create) /\
  checkCycle one_file_fs "/p/b.js" "/p/b.js" create = (None, create).
Proof.
  split.
  - apply (checkCycle_self_import one_file_fs "/p/a.js" create).
    vm_compute. reflexivity.
  - apply (checkCycle_self_import one_file_fs "/p/b.js" create).
    vm_compute. reflexivity.
Defined.

End DirectCycles.

(** ** Rules and layers *)

Section Rules.
Import JsString RuleEngine.
Variable minimatch : string -> string -> bool -> bool.

Lemma first_layer_unique layers p i j :
  first_layer minimatch layers p i -> first_layer minimatch layers p j -> i = j.
Proof.
  intros [(li & Hli & Hmi) Hi] [(lj & Hlj & Hmj) Hj].
  destruct (Nat.lt_trichotomy i j) as [Hlt|[->|Hlt]]; [|done|].
  - specialize (Hj _ _ Hlt Hli). congruence.
  - specialize (Hi _ _ Hlt Hlj). congruence.
Qed.

Lemma find_layer_from_spec i p layers :
  (find_layer_from minimatch i p layers = (-1)%Z /\ no_layer minimatch layers p) \/
  (exists k, find_layer_from minimatch i p layers = (i + Z.of_nat k)%Z /\
             first_layer minimatch layers p k).
Proof.
  revert i. induction layers as [|layer layers IH]; intros i; simpl.
  - left. split; [done|]. intros l Hl. by apply elem_of_nil in Hl.
  - destruct (minimatch p (pattern layer) false) eqn:Hm.
    + right. exists 0%nat. split; [lia|]. split.
      * by exists layer.
      * intros k l Hk. lia.
    + destruct (IH (i + 1)%Z) as [[Hf Hno]|(k & Hf & (l & Hl & Hml) & Hfirst)].
      * left. split; [done|]. intros l Hl.
        apply elem_of_cons in Hl as [->|Hl]; [done|by apply Hno].
      * right. exists (S k). split; [lia|]. split.
        -- by exists l.
        -- intros k' l' Hk' Hl'. destruct k' as [|k']; simpl in Hl'.
           ++ by inversion Hl'; subst.
           ++ apply (Hfirst k' l'); [lia|done].
Qed.

Lemma _findLayerIndex_some layers p k :
  first_layer minimatch layers p k ->
  _findLayerIndex minimatch p layers = Z.of_nat k.
Proof.
  intros Hk. unfold _findLayerIndex.
  destruct (find_layer_from_spec 0 p layers) as [[_ Hno]|(k' & -> & Hk')].
  - destruct Hk as [(l & Hl & Hm) _].
    rewrite (Hno l) in Hm; [done|]. by eapply list_elem_of_lookup_2.
  - by rewrite (first_layer_unique _ _ _ _ Hk Hk').
Qed.

Lemma _findLayerIndex_none layers p :
  no_layer minimatch layers p -> _findLayerIndex minimatch p layers = (-1)%Z.
Proof.
  intros Hno. unfold _findLayerIndex.
  destruct (find_layer_from_spec 0 p layers) as [[-> _]|(k & _ & (l & Hl & Hm) & _)];
    [done|].
  rewrite (Hno l) in Hm; [done|]. by eapply list_elem_of_lookup_2.
Qed.

(** Every path either matches no layer or has a first matching layer. *)
Lemma layer_cases layers p :
  no_layer minimatch layers p \/ exists k, first_layer minimatch layers p k.
Proof.
  destruct (find_layer_from_spec 0 p layers) as [[_ H]|(k & _ & H)]; eauto.
Qed.

Lemma of_nat_not_minus_one i : (Z.of_nat i =? -1)%Z = false.
Proof. apply Z.eqb_neq. lia. Qed.

Lemma _checkLayerViolations_nonempty src target ls :
  ls <> [] ->
  _checkLayerViolations minimatch src target (Some ls) =
  let sourceLayerIndex := _findLayerIndex minimatch src ls in
  let targetLayerIndex := _findLayerIndex minimatch target ls in
  if (sourceLayerIndex =? -1)%Z || (targetLayerIndex =? -1)%Z then None
  else if (sourceLayerIndex <? targetLayerIndex)%Z
  then Some (mkViolation true
    ("Layer Violation: '" +:+ layer_name ls sourceLayerIndex +:+
     "' layer cannot depend on outer '" +:+
     layer_name ls targetLayerIndex +:+ "' layer."))
  else None.
Proof. intros Hne. by destruct ls. Qed.

Lemma _checkLayerViolations_spec src target layers v :
  _checkLayerViolations minimatch src target layers = Some v <->
  exists ls i j, layers = Some ls /\ first_layer minimatch ls src i /\
                 first_layer minimatch ls target j /\ (i < j)%nat /\
                 v = layer_violation ls i j.
Proof.
  split.
  - destruct layers as [ls|]; [|done].
    destruct (decide (ls = [])) as [->|Hne]; [done|].
    rewrite _checkLayerViolations_nonempty by done. cbv zeta.
    destruct (layer_cases ls src) as [Hs|[i Hi]].
    { by rewrite (_findLayerIndex_none _ _ Hs). }
    destruct (layer_cases ls target) as [Ht|[j Hj]].
    { rewrite (_findLayerIndex_none _ _ Ht). by rewrite orb_true_r. }
    rewrite (_findLayerIndex_some _ _ _ Hi), (_findLayerIndex_some _ _ _ Hj).
    rewrite !of_nat_not_minus_one. simpl.
    destruct (Z.ltb_spec (Z.of_nat i) (Z.of_nat j)); [|done].
    intros [= <-]. exists ls, i, j.
    split; [done|]. split; [done|]. split; [done|]. split; [lia|done].
  - intros (ls & i & j & -> & Hi & Hj & Hlt & ->).
    assert (Hne : ls <> []).
    { intros ->. by destruct Hi as [(l & Hl & _) _]. }
    rewrite _checkLayerViolations_nonempty by done. cbv zeta.
    rewrite (_findLayerIndex_some _ _ _ Hi), (_findLayerIndex_some _ _ _ Hj).
    rewrite !of_nat_not_minus_one. simpl.
    destruct (Z.ltb_spec (Z.of_nat i) (Z.of_nat j)); [done|lia].
Qed.

Lemma find_first {A} (p : A -> bool) (l : list A) :
  (List.find p l = None /\ forall x, x ∈ l -> p x = false) \/
  (exists j x, List.find p l = Some x /\ l !! j = Some x /\ p x = true /\
               forall k y, (k < j)%nat -> l !! k = Some y -> p y = false).
Proof.
  induction l as [|a l IH]; simpl.
  - left. split; [done|]. by intros x ?%elem_of_nil.
  - destruct (p a) eqn:Ha.
    + right. exists 0%nat, a. split; [done|]. split; [done|]. split; [done|].
      intros k y Hk. lia.
    + destruct IH as [[Hnone Hall]|(j & x & Hfind & Hj & Hx & Hfirst)].
      * left. split; [done|]. intros x [->|Hx]%elem_of_cons; [done|by apply Hall].
      * right. exists (S j), x. split; [done|]. split; [done|]. split; [done|].
        intros [|k] y Hk Hy; simpl in Hy; [by inversion Hy; subst|].
        apply (Hfirst k y); [lia|done].
Qed.

Lemma find_unique {A} (p : A -> bool) (l : list A) j x :
  l !! j = Some x -> p x = true ->
  (forall k y, (k < j)%nat -> l !! k = Some y -> p y = false) ->
  List.find p l = Some x.
Proof.
  revert j. induction l as [|a l IH]; intros [|j] Hj Hx Hfirst;
    simpl in *; try done.
  - inversion Hj; subst. by rewrite Hx.
  - rewrite (Hfirst 0%nat a) by (lia || done).
    apply (IH j); [done|done|]. intros k y Hk Hy. apply (Hfirst (S k) y); [lia|done].
Qed.

(** A rule either fires or is silent. *)
Lemma fires_or_silent src target rule :
  (exists pattern, fires minimatch src target rule pattern) \/
  silent minimatch src target rule.
Proof.
  unfold fires, silent.
  destruct (minimatch src (source rule) true) eqn:Hs; [|by right; left].
  destruct (disallow rule) as [patterns|] eqn:Hd; [|right; right; by intros ps p ?].
  destruct (find_first (fun p => minimatch target p true) patterns)
    as [[_ Hall]|(j & x & _ & Hj & Hx & Hfirst)].
  - right. right. intros ps p [= <-]. apply Hall.
  - left. exists x. split; [done|]. by exists patterns, j.
Qed.

Lemma _checkRuleViolations_silent src target rule rest :
  silent minimatch src target rule ->
  _checkRuleViolations minimatch src target (rule :: rest) =
  _checkRuleViolations minimatch src target rest.
Proof.
  intros [Hs|Hd]; simpl; [by rewrite Hs|].
  destruct (minimatch src (source rule) true); [|done].
  destruct (disallow rule) as [patterns|]; [|done].
  destruct (find_first (fun p => minimatch target p true) patterns)
    as [[-> _]|(j & x & _ & Hj & Hx & _)]; [done|].
  apply list_elem_of_lookup_2 in Hj. by rewrite (Hd patterns x) in Hx.
Qed.

Lemma _checkRuleViolations_fires src target rule pattern rest :
  fires minimatch src target rule pattern ->
  _checkRuleViolations minimatch src target (rule :: rest) =
  Some (rule_violation src rule pattern).
Proof.
  intros (Hs & patterns & j & Hd & Hj & Hm & Hfirst). simpl.
  rewrite Hs, Hd.
  rewrite (find_unique (fun p => minimatch target p true) patterns j pattern)
    by done.
  unfold rule_violation, or_else, truthy.
  by destruct (rule_message rule) as [[|c text]|].
Qed.

(** The rules that are silent are passed over. *)
Lemma _checkRuleViolations_all_silent src target rules :
  Forall (silent minimatch src target) rules ->
  _checkRuleViolations minimatch src target rules = None.
Proof.
  induction 1 as [|rule rules Hr _ IH]; [done|].
  by rewrite _checkRuleViolations_silent.
Qed.

Lemma _checkRuleViolations_first_firing src target before rule after pattern :
  Forall (silent minimatch src target) before ->
  fires minimatch src target rule pattern ->
  _checkRuleViolations minimatch src target (before ++ rule :: after) =
  Some (rule_violation src rule pattern).
Proof.
  induction 1 as [|r before Hr _ IH]; intros Hf; simpl app.
  - by apply _checkRuleViolations_fires.
  - rewrite _checkRuleViolations_silent by done. by apply IH.
Qed.

(** Either all the rules are silent or there is a first one that
    fires. *)
Lemma first_firing_or_silent src target rules :
  Forall (silent minimatch src target) rules \/
  exists before rule after pattern,
    rules = before ++ rule :: after /\
    Forall (silent minimatch src target) before /\
    fires minimatch src target rule pattern.
Proof.
  induction rules as [|rule rules IH]; [by left|].
  destruct (fires_or_silent src target rule) as [[pattern Hf]|Hs].
  - right. by exists [], rule, rules, pattern.
  - destruct IH as [Hall|(before & r & after & pattern & -> & Hb & Hf)].
    + left. by constructor.
    + right. exists (rule :: before), r, after, pattern.
      split; [done|]. split; [by constructor|done].
Qed.

(** C4: [validate] returns at most one violation (its result is null or a
    single violation).  Rules come first, in their order: the first rule
    that fires, that is whose source pattern matches the source and one
    of whose disallowed patterns matches the target, gives the result
    with its first such pattern, whatever the layers are.  When no rule
    fires, a violation is returned exactly when source and target both
    have a first matching layer and the position of the source's layer
    is strictly less than that of the target's, and it is that layer
    violation; a source or a target that matches no layer gives null.
    One of the two cases always applies. *)
Theorem validate_rules_then_layers src target rules layers :
  let s := _normalizePath src in
  let t := _normalizePath target in
  (forall before rule after pattern,
     rules = before ++ rule :: after ->
     Forall (silent minimatch s t) before ->
     fires minimatch s t rule pattern ->
     validate minimatch src target rules layers =
     Some (rule_violation s rule pattern)) /\
  (Forall (silent minimatch s t) rules ->
     (forall v, validate minimatch src target rules layers = Some v <->
        exists ls i j, layers = Some ls /\ first_layer minimatch ls s i /\
                       first_layer minimatch ls t j /\ (i < j)%nat /\
                       v = layer_violation ls i j) /\
     (forall ls, layers = Some ls ->
        no_layer minimatch ls s \/ no_layer minimatch ls t ->
        validate minimatch src target rules layers = None)) /\
  (Forall (silent minimatch s t) rules \/
   exists before rule after pattern,
     rules = before ++ rule :: after /\
     Forall (silent minimatch s t) before /\
     fires minimatch s t rule pattern).
Proof.
  intros s t. split; [|split].
  - intros before rule after pattern -> Hsilent Hfires.
    unfold validate. fold s t.
    by rewrite (_checkRuleViolations_first_firing s t before rule after
                  pattern Hsilent Hfires).
  - intros Hsilent.
    pose proof (_checkRuleViolations_all_silent s t rules Hsilent)
      as Hnone.
    split.
    + intros v. unfold validate. fold s t. rewrite Hnone.
      rewrite <- _checkLayerViolations_spec.
      by destruct (_checkLayerViolations minimatch s t layers).
    + intros ls -> Hno. unfold validate. fold s t. rewrite Hnone.
      destruct (_checkLayerViolations minimatch s t (Some ls)) as [v|] eqn:Hv;
        [|done].
      apply _checkLayerViolations_spec
        in Hv as (ls' & i & j & [= <-] & [(li & Hli & Hmi) _] & [(lj & Hlj & Hmj) _] & _).
      destruct Hno as [Hno|Hno].
      * rewrite (Hno li) in Hmi; [done|]. by eapply list_elem_of_lookup_2.
      * rewrite (Hno lj) in Hmj; [done|]. by eapply list_elem_of_lookup_2.
  - apply first_firing_or_silent.
Qed.

End Rules.

(** The domain imports the user interface: the rule about the domain
    fires, after the rule about tests has been passed over, and its
    violation is the answer although the layers are violated too; without
    the rules the answer is the layer violation; and an import of a file
    of no layer is no violation. *)
Lemma validate_rules_then_layers_witness :
  RuleEngine.validate plain_glob "src\domain\user.js" "src/ui/page.js"
    [test_rule; domain_rule] (Some glob_layers) =
    Some (RuleEngine.mkViolation true
            "Violation: 'src/domain/user.js' cannot import from 'src/ui/**'") /\
  RuleEngine.validate plain_glob "src/domain/user.js" "src/ui/page.js"
    [test_rule] (Some glob_layers) = Some (layer_violation glob_layers 0 1) /\
  RuleEngine.validate plain_glob "src/ui/page.js" "src/lib/util.js"
    [test_rule] (Some glob_layers) = None.
Proof.
  destruct (validate_rules_then_layers plain_glob
              "src\domain\user.js" "src/ui/page.js" [test_rule; domain_rule]
              (Some glob_layers)) as (Hrule & _ & _).
  destruct (validate_rules_then_layers plain_glob
              "src/domain/user.js" "src/ui/page.js" [test_rule]
              (Some glob_layers)) as (_ & Hlayers & _).
  destruct (validate_rules_then_layers plain_glob
              "src/ui/page.js" "src/lib/util.js" [test_rule]
              (Some glob_layers)) as (_ & Hexempt & _).
  assert (Hquiet : forall s t, plain_glob s "test/**" true = false ->
            Forall (silent plain_glob s t) [test_rule]).
  { intros s t Hs. apply Forall_cons; split; [|apply Forall_nil_2].
    left. exact Hs. }
  split; [|split].
  - apply (Hrule [test_rule] domain_rule [] "src/ui/**").
    + reflexivity.
    + by apply (Hquiet "src/domain/user.js").
    + split; [reflexivity|].
      exists ["src/infra/**"; "src/ui/**"], 1%nat.
      split; [reflexivity|]. split; [reflexivity|]. split; [reflexivity|].
      intros [|k] p Hk Hp; [|lia]. simpl in Hp. injection Hp as <-.
      reflexivity.
  - apply (proj1 (Hlayers (Hquiet "src/domain/user.js" _ eq_refl))).
    exists glob_layers, 0%nat, 1%nat.
    split; [reflexivity|]. split; [|split; [|split; [lia|reflexivity]]].
    + split; [by eexists|]. intros k layer Hk. lia.
    + split; [by eexists|]. intros [|k] layer Hk; [|lia].
      by intros [= <-].
  - apply (proj2 (Hexempt (Hquiet "src/ui/page.js" _ eq_refl))
             glob_layers eq_refl). right.
    intros layer Hin. apply list_elem_of_In in Hin. simpl in Hin.
    destruct Hin as [<-|[<-|[]]]; reflexivity.
Defined.

(** ** The dependency graph store *)

Section GraphStore.
Import DeepCycleDetector.
Variable fs : Fs.t.

Lemma _processFileForGraph_fresh filePath d :
  _processFileForGraph fs filePath d =
  match fresh_entry fs filePath with
  | None => d
  | Some (imports, mtime) =>
      if cache_valid (fileTimestamps d !! filePath) mtime then d
      else mkDetector (<[filePath := imports]> (dependencyGraph d))
                      (<[filePath := mtime]> (fileTimestamps d))
                      (isBuilding d)
  end.
Proof.
  unfold _processFileForGraph, fresh_entry.
  destruct (negb (Fs.existsSync fs filePath)); [done|].
  destruct (Fs.statSync fs filePath) as [stats|]; [|done].
  destruct (MAX_FILE_SIZE <? Fs.size stats)%Z; [done|].
  destruct (Fs.readFileSync fs filePath) as [content|];
    [|by destruct (cache_valid _ _)].
  destruct (ImportParser.parse content _); [done|].
  by destruct (cache_valid _ _).
Qed.

Lemma settled_fixed filePath d :
  settled fs filePath d -> _processFileForGraph fs filePath d = d.
Proof.
  unfold settled. rewrite _processFileForGraph_fresh.
  destruct (fresh_entry fs filePath) as [[imports mtime]|]; [|done].
  intros [->|[Hg Ht]]; [done|].
  destruct (cache_valid _ _); [done|].
  destruct d as [g ts b]; simpl in *. by rewrite !insert_id.
Qed.

Lemma settled_after filePath d :
  settled fs filePath (_processFileForGraph fs filePath d).
Proof.
  unfold settled. rewrite _processFileForGraph_fresh.
  destruct (fresh_entry fs filePath) as [[imports mtime]|]; [|done].
  destruct (cache_valid (fileTimestamps d !! filePath) mtime) eqn:Hc.
  - by left.
  - right. simpl. by rewrite !lookup_insert_eq.
Qed.

Lemma settled_preserved filePath other d :
  settled fs filePath d -> settled fs filePath (_processFileForGraph fs other d).
Proof.
  intros Hs. destruct (decide (other = filePath)) as [->|Hne].
  { apply settled_after. }
  revert Hs. unfold settled. rewrite (_processFileForGraph_fresh other).
  destruct (fresh_entry fs filePath) as [[imports mtime]|]; [|done].
  destruct (fresh_entry fs other) as [[imports' mtime']|]; [|done].
  destruct (cache_valid (fileTimestamps d !! other) mtime'); [done|].
  simpl. by rewrite !lookup_insert_ne.
Qed.

Lemma process_all_preserved filePath files d :
  settled fs filePath d -> settled fs filePath (process_all fs files d).
Proof.
  revert d. induction files as [|f files IH]; intros d Hs; [done|].
  simpl. apply IH. by apply settled_preserved.
Qed.

Lemma process_all_settles files d :
  Forall (fun f => settled fs f (process_all fs files d)) files.
Proof.
  revert d. induction files as [|f files IH]; intros d; [done|].
  constructor; [|apply IH].
  simpl. apply process_all_preserved, settled_after.
Qed.

Lemma process_all_fixed files d :
  Forall (fun f => settled fs f d) files -> process_all fs files d = d.
Proof.
  induction 1 as [|f files Hf _ IH]; [done|].
  simpl. by rewrite settled_fixed.
Qed.

(** A valid cached time stamp makes processing the identity, whatever
    the file holds now. *)
Lemma _processFileForGraph_cached filePath d stats :
  Fs.statSync fs filePath = Some stats ->
  fileTimestamps d !! filePath = Some (Fs.mtimeMs stats) ->
  Fs.mtimeMs stats <> 0%Z ->
  _processFileForGraph fs filePath d = d.
Proof.
  intros Hstat Hts Hnz. unfold _processFileForGraph.
  destruct (negb (Fs.existsSync fs filePath)); [done|].
  rewrite Hstat, Hts. simpl.
  destruct (MAX_FILE_SIZE <? Fs.size stats)%Z; [done|].
  destruct (Z.eqb_spec (Fs.mtimeMs stats) 0); [done|].
  by rewrite Z.eqb_refl.
Qed.

(** With valid time stamps for all the files a build changes nothing,
    whatever the files hold. *)
Lemma buildGraph_cached filePaths d :
  isBuilding d = false ->
  Forall (fun f => exists stats,
            Fs.statSync fs f = Some stats /\
            fileTimestamps d !! f = Some (Fs.mtimeMs stats) /\
            Fs.mtimeMs stats <> 0%Z)
         (take MAX_FILES_PER_CHECK filePaths) ->
  fst (buildGraph fs filePaths d) = d.
Proof.
  intros Hb Hall. unfold buildGraph. rewrite Hb. simpl.
  fold (process_all fs (take MAX_FILES_PER_CHECK filePaths) (set_building true d)).
  rewrite process_all_fixed.
  - destruct d; simpl in *. by subst.
  - eapply Forall_impl; [exact Hall|].
    intros f (stats & Hstat & Hts & Hnz). unfold settled.
    destruct (fresh_entry fs f) as [[imports mtime]|] eqn:Hfresh; [|done].
    left. unfold fresh_entry in Hfresh. rewrite Hstat in Hfresh.
    destruct (negb (Fs.existsSync fs f)); [done|].
    destruct (MAX_FILE_SIZE <? Fs.size stats)%Z; [done|].
    destruct (Fs.readFileSync fs f) as [content|]; [|done].
    destruct (ImportParser.parse content _); [|done].
    injection Hfresh as _ <-. simpl. rewrite Hts. simpl.
    destruct (Z.eqb_spec (Fs.mtimeMs stats) 0); [done|].
    by rewrite Z.eqb_refl.
Qed.

End GraphStore.

Section SkipFacts.
Import JsString DeepCycleDetector.
Variable fs : Fs.t.

Lemma existsSync_statSync filePath :
  Fs.existsSync fs filePath = true <-> is_Some (Fs.statSync fs filePath).
Proof.
  unfold Fs.existsSync, Fs.statSync. rewrite bool_decide_eq_true.
  by rewrite fmap_is_Some.
Qed.

(** The tag [_getLanguageId] gives is the tag of a language. *)
Lemma _getLanguageId_language filePath :
  exists regexes,
    ImportParser.regexMap (_getLanguageId filePath) =
    ImportParser.Patterns regexes.
Proof.
  unfold _getLanguageId.
  destruct (JsMap.get EXTENSION_TO_LANGUAGE _) as [tag|] eqn:Hget.
  - apply JsMap_get_elem in Hget as [ext Hin].
    assert (Hall : Forall (fun entry =>
              exists regexes, ImportParser.regexMap (snd entry) =
                              ImportParser.Patterns regexes)
              EXTENSION_TO_LANGUAGE).
    { repeat constructor; by eexists. }
    rewrite Forall_forall in Hall. exact (Hall _ Hin).
  - by eexists.
Qed.

Lemma parse_language_returns content filePath :
  is_Some (ImportParser.parse content (_getLanguageId filePath)).
Proof.
  destruct (_getLanguageId_language filePath) as [regexes H].
  unfold ImportParser.parse. rewrite H. by destruct (_ =? _)%nat.
Qed.

Lemma skipped_settled filePath d :
  skipped fs d filePath -> settled fs filePath d.
Proof.
  unfold skipped, settled, fresh_entry.
  destruct (negb (Fs.existsSync fs filePath)); [done|].
  destruct (Fs.statSync fs filePath) as [stats|]; [|done].
  destruct (Z.ltb_spec MAX_FILE_SIZE (Fs.size stats)); [done|].
  destruct (Fs.readFileSync fs filePath) as [content|]; [|done].
  destruct (ImportParser.parse content _); [|done].
  intros [Hbig|[Hts Hnz]]; [lia|]. left.
  cbn [snd]. rewrite Hts. simpl.
  destruct (Z.eqb_spec (Fs.mtimeMs stats) 0); [done|].
  by rewrite Z.eqb_refl.
Qed.

(** A build over files that are all passed over changes nothing, and
    reads none of them. *)
Lemma buildGraph_skips filePaths d :
  isBuilding d = false ->
  Forall (skipped fs d) (take MAX_FILES_PER_CHECK filePaths) ->
  fst (buildGraph fs filePaths d) = d.
Proof.
  intros Hb Hall. unfold buildGraph. rewrite Hb. cbn [fst].
  fold (process_all fs (take MAX_FILES_PER_CHECK filePaths) (set_building true d)).
  rewrite process_all_fixed.
  - destruct d; simpl in *. by subst.
  - eapply Forall_impl; [exact Hall|]. intros f Hf.
    by apply skipped_settled.
Qed.

(** A build leaves, for each file it could read, the modification time
    of the file as its time stamp. *)
Lemma buildGraph_stamps filePaths d f stats content :
  isBuilding d = false ->
  f ∈ take MAX_FILES_PER_CHECK filePaths ->
  Fs.statSync fs f = Some stats ->
  (Fs.size stats <= MAX_FILE_SIZE)%Z ->
  Fs.readFileSync fs f = Some content ->
  fileTimestamps (fst (buildGraph fs filePaths d)) !! f =
  Some (Fs.mtimeMs stats).
Proof.
  intros Hb Hin Hstat Hsize Hread. unfold buildGraph. rewrite Hb. cbn [fst].
  fold (process_all fs (take MAX_FILES_PER_CHECK filePaths) (set_building true d)).
  pose proof (process_all_settles fs (take MAX_FILES_PER_CHECK filePaths)
                (set_building true d)) as Hall.
  rewrite Forall_forall in Hall. specialize (Hall f Hin).
  unfold settled, fresh_entry in Hall.
  assert (Hex : Fs.existsSync fs f = true).
  { apply existsSync_statSync. by rewrite Hstat. }
  rewrite Hex, Hstat, Hread in Hall. cbn [negb] in Hall.
  destruct (Z.ltb_spec MAX_FILE_SIZE (Fs.size stats)); [lia|].
  destruct (parse_language_returns content f) as [imports Hparse].
  rewrite Hparse in Hall. cbn [fileTimestamps set_building].
  destruct Hall as [Hvalid|[_ Hts]]; [|done].
  unfold cache_valid in Hvalid.
  destruct (fileTimestamps _ !! f) as [t|]; [|done].
  apply andb_true_iff in Hvalid as [_ Heq]. apply Z.eqb_eq in Heq. by subst.
Qed.

End SkipFacts.

Section Reruns.
Import DeepCycleDetector.

Lemma buildGraph_idle fs filePaths d :
  isBuilding d = false -> isBuilding (fst (buildGraph fs filePaths d)) = false.
Proof. intros Hb. unfold buildGraph. by rewrite Hb. Qed.

(** C7, as stated, fails.  The file a.js cannot be read in the first
    run, which records nothing for it; it can be read in the second run,
    its modification time being what it was, and the second run adds its
    entry.  And the time stamp 0 never counts as a match: a.js, of
    modification time 0, is parsed again by the second run, so that the
    graph follows a change of its text. *)
Lemma buildGraph_rerun_changes_graph :
  (Fs.stats <$> Fs.nodes locked_after = Fs.stats <$> Fs.nodes locked_before /\
   let d1 := fst (buildGraph locked_before ["/p/a.js"] new_detector) in
   dependencyGraph d1 !! "/p/a.js" = None /\
   dependencyGraph (fst (buildGraph locked_after ["/p/a.js"] d1)) !! "/p/a.js"
     = Some ["/p/b.js"]) /\
  (Fs.stats <$> Fs.nodes epoch_after = Fs.stats <$> Fs.nodes epoch_before /\
   let d1 := fst (buildGraph epoch_before ["/p/a.js"] new_detector) in
   fileTimestamps d1 !! "/p/a.js" = Some 0%Z /\
   dependencyGraph d1 !! "/p/a.js" = Some ["/p/b.js"] /\
   dependencyGraph (fst (buildGraph epoch_after ["/p/a.js"] d1)) !! "/p/a.js"
     = Some ["/p/c.js"]).
Proof.
  split; (split; [by vm_compute|]); cbv zeta; repeat split; by vm_compute.
Qed.

(** C7, amended.  A second [buildGraph] on the same file list leaves
    the detector (the dependency graph, the time stamps and the flag) as
    the first run left it when the file system is the same.  It does so
    as well on any file system, whatever the files hold there, on which
    each of the first [MAX_FILES_PER_CHECK] listed files is missing, is
    too large, or has a modification time other than 0 that is its
    stored time stamp: the entries are reused and no file is read.  This
    is the case when the modification times are unchanged: when each of
    these files that is there and within the size limit has the
    modification time, other than 0, that it had when the first run read
    it. *)
Theorem buildGraph_idempotent fs filePaths d :
  let d1 := fst (buildGraph fs filePaths d) in
  fst (buildGraph fs filePaths d1) = d1 /\
  (forall fs',
     Forall (skipped fs' d1) (take MAX_FILES_PER_CHECK filePaths) ->
     fst (buildGraph fs' filePaths d1) = d1) /\
  (forall fs',
     Forall (unchanged_since fs fs') (take MAX_FILES_PER_CHECK filePaths) ->
     fst (buildGraph fs' filePaths d1) = d1).
Proof.
  cbv zeta.
  assert (Hreuse : forall fs',
    Forall (skipped fs' (fst (buildGraph fs filePaths d)))
           (take MAX_FILES_PER_CHECK filePaths) ->
    fst (buildGraph fs' filePaths (fst (buildGraph fs filePaths d))) =
    fst (buildGraph fs filePaths d)).
  { intros fs' Hall. destruct (isBuilding d) eqn:Hb.
    - unfold buildGraph. rewrite Hb. cbn [fst]. by rewrite Hb.
    - apply buildGraph_skips; [by apply buildGraph_idle|done]. }
  split; [|split; [exact Hreuse|]].
  - unfold buildGraph. destruct (isBuilding d) eqn:Hb; simpl.
    { by rewrite Hb. }
    fold (process_all fs (take MAX_FILES_PER_CHECK filePaths) (set_building true d)).
    set (files := take MAX_FILES_PER_CHECK filePaths).
    set (d1 := process_all fs files (set_building true d)).
    fold (process_all fs files (set_building true (set_building false d1))).
    rewrite process_all_fixed; [done|].
    eapply Forall_impl; [apply (process_all_settles fs files (set_building true d))|].
    intros f Hf. exact Hf.
  - intros fs' Hall. destruct (isBuilding d) eqn:Hb.
    { unfold buildGraph. rewrite Hb. cbn [fst]. by rewrite Hb. }
    apply Hreuse. apply Forall_forall. intros f Hf.
    rewrite Forall_forall in Hall. specialize (Hall f Hf).
    unfold unchanged_since, skipped in *.
    destruct (Fs.statSync fs' f) as [stats'|]; [|done].
    destruct Hall as [Hbig|(Hnz & stats & content & Hstat & Hsize & Hread & Heq)];
      [by left|].
    right. split; [|done]. rewrite <- Heq.
    by apply (buildGraph_stamps fs filePaths d f stats content).
Qed.

(** The text of a.js changes and its modification time, which is not 0,
    does not: the second run reuses the entry of a.js. *)
Lemma buildGraph_idempotent_witness :
  fst (buildGraph stale_after ["/p/a.js"]
         (fst (buildGraph stale_before ["/p/a.js"] new_detector))) =
    fst (buildGraph stale_before ["/p/a.js"] new_detector) /\
  dependencyGraph (fst (buildGraph stale_before ["/p/a.js"] new_detector))
    !! "/p/a.js" = Some ["/p/b.js"].
Proof.
  destruct (buildGraph_idempotent stale_before ["/p/a.js"] new_detector)
    as (_ & _ & Hunchanged).
  split; [|by vm_compute]. apply Hunchanged.
  change (take MAX_FILES_PER_CHECK ["/p/a.js"]) with ["/p/a.js"].
  apply Forall_cons; split; [|apply Forall_nil_2]. unfold unchanged_since.
  assert (Hafter : Fs.statSync stale_after "/p/a.js" =
                   Some (Fs.mkStats 20 1700000000000)) by reflexivity.
  rewrite Hafter. right. split; [simpl; lia|].
  exists (Fs.mkStats 20 1700000000000), "import x from './b';".
  split; [reflexivity|]. split; [unfold MAX_FILE_SIZE; simpl; lia|].
  split; reflexivity.
Defined.

End Reruns.

(** ** Single flight *)

Section SingleFlight.

(** C8, as stated, fails: a call of [learn] that finds the flag set
    returns [undefined], which is also what a call that ran the whole
    pass returns, so the caller gets no signal that tells the two apart. *)
Lemma learn_declined_no_signal :
  ~ (snd (AIKernel.learn one_file_fs ["/p/a.js"] busy_kernel) <>
     snd (AIKernel.learn one_file_fs ["/p/a.js"] idle_kernel)).
Proof. intros H. by apply H. Qed.

(** C8, amended: a call of [learn] or [buildGraph] that finds the flag
    set leaves the whole state unchanged and returns [undefined]; every
    other call of the two returns [undefined] as well. *)
Theorem busy_call_is_noop fs filePaths :
  (forall k, AIKernel.isLearning k = true ->
     AIKernel.learn fs filePaths k = (k, Undefined)) /\
  (forall d, DeepCycleDetector.isBuilding d = true ->
     DeepCycleDetector.buildGraph fs filePaths d = (d, Undefined)) /\
  (forall k, snd (AIKernel.learn fs filePaths k) = Undefined) /\
  (forall d, snd (DeepCycleDetector.buildGraph fs filePaths d) = Undefined).
Proof.
  repeat split.
  - intros k Hk. unfold AIKernel.learn. by rewrite Hk.
  - intros d Hd. unfold DeepCycleDetector.buildGraph. by rewrite Hd.
  - intros k. unfold AIKernel.learn. by destruct (AIKernel.isLearning k).
  - intros d. unfold DeepCycleDetector.buildGraph.
    by destruct (DeepCycleDetector.isBuilding d).
Qed.

Lemma busy_call_is_noop_witness :
  AIKernel.learn one_file_fs ["/p/a.js"] busy_kernel = (busy_kernel, Undefined) /\
  DeepCycleDetector.buildGraph one_file_fs ["/p/a.js"]
    (DeepCycleDetector.mkDetector ∅ ∅ true) =
  (DeepCycleDetector.mkDetector ∅ ∅ true, Undefined).
Proof.
  destruct (busy_call_is_noop one_file_fs ["/p/a.js"]) as (Hl & Hb & _).
  split; [apply Hl | apply Hb]; reflexivity.
Defined.

End SingleFlight.

(** ** The statistical model *)

Section Stats.
Import AIKernel.
Local Open Scope float_scope.






End Stats.

(** ** The regular expression matcher *)

Section RegexFacts.
Import JsString Regex.

Lemma length_chars l : length (chars l) = String.length l.
Proof. induction l as [|c l IH]; simpl; [done|]. by rewrite <- IH. Qed.

Lemma lit_consumes {A} l prev s (k : option ascii -> list ascii -> option A) x :
  lit l prev s k = Some x ->
  exists p' s', k p' s' = Some x /\ (length s' + length l = length s)%nat.
Proof.
  revert prev s. induction l as [|c l IH]; intros prev s H; simpl in H.
  - exists prev, s. split; [done|]. simpl. lia.
  - destruct s as [|a s]; [done|].
    destruct (Ascii.eqb a c); [|done].
    apply IH in H as (p' & s' & Hk & Hlen).
    exists p', s'. split; [done|]. simpl. lia.
Qed.

Lemma greedy_consumes {A} p prev s (k : option ascii -> list ascii -> option A) x :
  greedy p prev s k = Some x ->
  exists p' s', k p' s' = Some x /\ (length s' <= length s)%nat.
Proof.
  revert prev. induction s as [|a s IH]; intros prev H; simpl in H.
  - by exists prev, [].
  - destruct (p a).
    + destruct (greedy p (Some a) s k) as [y|] eqn:Hg.
      * inversion H; subst y.
        apply IH in Hg as (p' & s' & Hk & Hlen).
        exists p', s'. split; [done|]. simpl. lia.
      * by exists prev, (a :: s).
    + by exists prev, (a :: s).
Qed.

Lemma lazy_consumes {A} p prev s (k : option ascii -> list ascii -> option A) x :
  lazy p prev s k = Some x ->
  exists p' s', k p' s' = Some x /\ (length s' <= length s)%nat.
Proof.
  revert prev. induction s as [|a s IH]; intros prev H; simpl in H.
  - destruct (k prev []) as [y|] eqn:Hk; [|done].
    inversion H; subst y. by exists prev, [].
  - destruct (k prev (a :: s)) as [y|] eqn:Hk.
    + inversion H; subst y. by exists prev, (a :: s).
    + destruct (p a); [|done].
      apply IH in H as (p' & s' & Hk' & Hlen).
      exists p', s'. split; [done|]. simpl. lia.
Qed.

(** A successful match hands to its continuation a text that is shorter
    by at least [min_len r]. *)
Lemma m_consumes {A} r prev s cap (k : cont) (x : A) :
  m r prev s cap k = Some x ->
  exists p' s' cap', k p' s' cap' = Some x /\
                     (length s' + min_len r <= length s)%nat.
Proof.
  revert prev s cap k.
  induction r as [l|c|c|c|c|r IH|r1 IH1 r2 IH2|r1 IH1 r2 IH2|r IH| |];
    intros prev s cap k H; simpl in H; simpl min_len.
  - apply lit_consumes in H as (p' & s' & Hk & Hlen).
    exists p', s', cap. split; [done|].
    rewrite length_chars in Hlen. lia.
  - destruct s as [|a s]; [done|]. destruct (cls_match c a); [|done].
    exists (Some a), s, cap. split; [done|]. simpl. lia.
  - apply greedy_consumes in H as (p' & s' & Hk & Hlen).
    exists p', s', cap. split; [done|]. lia.
  - apply lazy_consumes in H as (p' & s' & Hk & Hlen).
    exists p', s', cap. split; [done|]. lia.
  - destruct s as [|a s]; [done|]. destruct (cls_match c a); [|done].
    apply greedy_consumes in H as (p' & s' & Hk & Hlen).
    exists p', s', cap. split; [done|]. simpl. lia.
  - destruct (m r prev s cap k) as [y|] eqn:Hm.
    + inversion H; subst y. apply IH in Hm as (p' & s' & cap' & Hk & Hlen).
      exists p', s', cap'. split; [done|]. lia.
    + exists prev, s, cap. split; [done|]. lia.
  - apply IH1 in H as (p1 & s1 & cap1 & Hk1 & Hlen1).
    apply IH2 in Hk1 as (p2 & s2 & cap2 & Hk2 & Hlen2).
    exists p2, s2, cap2. split; [done|]. lia.
  - destruct (m r1 prev s cap k) as [y|] eqn:Hm.
    + inversion H; subst y. apply IH1 in Hm as (p' & s' & cap' & Hk & Hlen).
      exists p', s', cap'. split; [done|]. lia.
    + apply IH2 in H as (p' & s' & cap' & Hk & Hlen).
      exists p', s', cap'. split; [done|]. lia.
  - apply IH in H as (p' & s' & cap' & Hk & Hlen). eauto.
  - destruct (at_line_end s); [|done].
    exists prev, s, cap. split; [done|]. lia.
  - destruct (at_word_boundary prev s); [|done].
    exists prev, s, cap. split; [done|]. lia.
Qed.

Lemma match_here_consumes r prev s rest cap :
  match_here r prev s = Some (rest, cap) ->
  (length rest + min_len r <= length s)%nat.
Proof.
  intros H. apply m_consumes in H as (p' & s' & cap' & [= <- <-] & Hlen).
  done.
Qed.

(** The [exec] loop ends for a pattern that cannot match the empty
    string. *)
Lemma exec_loop_total r prev s idx skip :
  (0 < min_len r)%nat -> is_Some (exec_loop r prev s idx skip).
Proof.
  intros Hr. revert prev idx skip.
  induction s as [|a s IH]; intros prev idx skip.
  - destruct skip; simpl; [|done].
    destruct (match_here r prev []) as [[rest cap]|] eqn:Hm; [|done].
    apply match_here_consumes in Hm. simpl in Hm. lia.
  - destruct skip as [|n]; simpl; [|apply IH].
    destruct (match_here r prev (a :: s)) as [[rest cap]|] eqn:Hm; [|apply IH].
    apply match_here_consumes in Hm. simpl in Hm.
    destruct (S (length s) - length rest)%nat as [|n] eqn:Hn; [lia|].
    destruct (IH (Some a) (S idx) n) as [ms ->]. done.
Qed.

(** The loop reports its matches from left to right. *)
Lemma exec_loop_sorted r prev s idx skip ms :
  exec_loop r prev s idx skip = Some ms ->
  Forall (fun mt => (idx + skip <= m_index mt)%nat) ms /\
  StronglySorted index_lt ms.
Proof.
  revert prev idx skip ms.
  induction s as [|a s IH]; intros prev idx skip ms H.
  - destruct skip; simpl in H.
    + destruct (match_here r prev []) as [[rest cap]|]; simpl in H.
      * destruct rest; simpl in H; done.
      * inversion H. split; constructor.
    + inversion H. split; constructor.
  - destruct skip as [|n]; simpl in H.
    + destruct (match_here r prev (a :: s)) as [[rest cap]|].
      * destruct (S (length s) - length rest)%nat as [|n]; [done|].
        destruct (exec_loop r (Some a) s (S idx) n) as [ms'|] eqn:Hrec; [|done].
        inversion H; subst ms; clear H.
        apply IH in Hrec as [Hlo Hsorted]. split.
        -- constructor; [simpl; lia|].
           eapply Forall_impl; [exact Hlo|]. intros mt Hmt. simpl in Hmt. lia.
        -- constructor; [done|].
           eapply Forall_impl; [exact Hlo|]. intros mt Hmt.
           unfold index_lt. simpl in *. lia.
      * apply IH in H as [Hlo Hsorted]. split; [|done].
        eapply Forall_impl; [exact Hlo|]. intros mt Hmt. simpl in Hmt. lia.
    + apply IH in H as [Hlo Hsorted]. split; [|done].
      eapply Forall_impl; [exact Hlo|]. intros mt Hmt. simpl in Hmt. lia.
Qed.

Lemma exec_all_sorted r text : StronglySorted index_lt (exec_all r text).
Proof.
  unfold exec_all.
  destruct (exec_loop r None (chars text) 0 0) as [ms|] eqn:H; [|constructor].
  by apply exec_loop_sorted in H as [_ H].
Qed.

End RegexFacts.

(** ** The import parser *)

Section ParserFacts.
Import JsString Regex ImportParser.

Lemma pretty_N_go_colon_free x s :
  colon_free s -> colon_free (pretty_N_go x s).
Proof.
  revert s. induction (N.lt_wf_0 x) as [x _ IH]; intros s Hs.
  destruct (decide (x = 0%N)) as [->|Hx].
  - by rewrite pretty_N_go_0.
  - rewrite pretty_N_go_step by lia. apply IH.
    + apply N.div_lt; lia.
    + split; [|done]. unfold pretty_N_char.
      by repeat case_match.
Qed.

Lemma pretty_nat_colon_free (n : nat) : colon_free (pretty n).
Proof.
  unfold pretty, pretty_nat, pretty, pretty_N.
  case_decide; [by split|]. by apply pretty_N_go_colon_free.
Qed.

Lemma key_split a b p q :
  colon_free a -> colon_free b ->
  a +:+ ":" +:+ p = b +:+ ":" +:+ q -> a = b /\ p = q.
Proof.
  revert b. induction a as [|c a IH]; intros [|d b] Ha Hb H; simpl in *.
  - by inversion H.
  - inversion H; subst d. by destruct Hb.
  - inversion H; subst c. by destruct Ha.
  - inversion H; subst d. destruct Ha as [_ Ha], Hb as [_ Hb].
    destruct (IH b Ha Hb) as [-> ->]; done.
Qed.

Lemma matchKey_inj i p j q :
  matchKey i (Some p) = matchKey j (Some q) -> i = j /\ p = q.
Proof.
  unfold matchKey. simpl. intros H.
  apply key_split in H as [Hij ->]; try apply pretty_nat_colon_free.
  split; [|done]. by apply (inj pretty).
Qed.

Lemma record_match_candidate imports seen mt :
  record_match (imports, seen) mt =
  match candidate mt with
  | Some i =>
      if bool_decide (matchKey (index i) (Some (path i)) ∈ seen)
      then (imports, seen)
      else (imports ++ [i], {[matchKey (index i) (Some (path i))]} ∪ seen)
  | None => (imports, seen)
  end.
Proof.
  unfold record_match, candidate. simpl.
  destruct (m_group1 mt) as [[|c p]|]; simpl; try done.
  change (or_else (Some (String c p)) (or_else None None))
    with (Some (String c p)).
  by destruct (bool_decide _).
Qed.

Lemma fold_record_match ms imports seen pairs :
  (forall i p, matchKey i (Some p) ∈ seen <-> (i, p) ∈ pairs) ->
  fst (fold_left record_match ms (imports, seen)) =
  imports ++ first_per_pair pairs (omap candidate ms).
Proof.
  revert imports seen pairs.
  induction ms as [|mt ms IH]; intros imports seen pairs Hseen.
  { simpl. by rewrite app_nil_r. }
  change (fold_left record_match (mt :: ms) (imports, seen))
    with (fold_left record_match ms (record_match (imports, seen) mt)).
  change (omap candidate (mt :: ms))
    with (match candidate mt with
          | Some i => i :: omap candidate ms
          | None => omap candidate ms
          end).
  rewrite record_match_candidate.
  destruct (candidate mt) as [i|]; [|by apply IH].
  cbn [first_per_pair].
  rewrite (bool_decide_ext _ _ (Hseen (index i) (path i))).
  fold (pair_of i). case_bool_decide as Hin; [by apply IH|].
  rewrite (IH _ _ (pair_of i :: pairs)).
  - by rewrite <- app_assoc.
  - intros j q. rewrite elem_of_union, elem_of_singleton, elem_of_cons, Hseen.
    unfold pair_of. split; intros [H|H]; auto; left.
    + apply matchKey_inj in H as [-> ->]. done.
    + by inversion H.
Qed.

Lemma fold_left_nested {A B C} (f : A -> B -> A) (g : C -> list B) cs acc :
  fold_left (fun acc c => fold_left f (g c) acc) cs acc =
  fold_left f (flat_map g cs) acc.
Proof.
  revert acc. induction cs as [|c cs IH]; intros acc; simpl; [done|].
  by rewrite fold_left_app, IH.
Qed.

Lemma omap_flat_map {A B C} (f : B -> option C) (g : A -> list B) l :
  omap f (flat_map g l) = flat_map (fun a => omap f (g a)) l.
Proof.
  induction l as [|a l IH]; simpl; [done|]. by rewrite omap_app, IH.
Qed.

Lemma _extractImports_spec text regexes :
  _extractImports text regexes =
  first_per_pair [] (flat_map (candidates text) regexes).
Proof.
  unfold _extractImports.
  rewrite (fold_left_nested record_match (fun r => exec_all r text)).
  rewrite (fold_record_match _ _ _ []).
  - by rewrite omap_flat_map.
  - intros i p. split; intros H; [by apply not_elem_of_empty in H|].
    by apply elem_of_nil in H.
Qed.

Lemma first_per_pair_sub seen l i :
  i ∈ first_per_pair seen l -> i ∈ l /\ pair_of i ∉ seen.
Proof.
  revert seen. induction l as [|x l IH]; intros seen H; simpl in H.
  { by apply elem_of_nil in H. }
  case_bool_decide as Hx.
  - apply IH in H as [H1 H2]. split; [by right|done].
  - apply elem_of_cons in H as [->|H]; [split; [by left|done]|].
    apply IH in H as [H1 H2]. split; [by right|].
    intros Hin. apply H2. by right.
Qed.

Lemma first_per_pair_NoDup seen l :
  NoDup (pair_of <$> first_per_pair seen l).
Proof.
  revert seen. induction l as [|x l IH]; intros seen; simpl.
  { constructor. }
  case_bool_decide as Hx; [apply IH|].
  simpl. constructor; [|apply IH].
  intros Hin. apply list_elem_of_fmap in Hin as (y & Hy & Hin).
  apply first_per_pair_sub in Hin as [_ Hin]. apply Hin. rewrite <- Hy. by left.
Qed.

Lemma candidate_index mt i : candidate mt = Some i -> index i = m_index mt.
Proof.
  unfold candidate. destruct (m_group1 mt) as [[|c p]|]; try done.
  by intros [= <-].
Qed.

Lemma candidate_path mt i : candidate mt = Some i -> path i <> EmptyString.
Proof.
  unfold candidate. destruct (m_group1 mt) as [[|c p]|]; try done.
  by intros [= <-].
Qed.

Lemma candidates_sorted text r : StronglySorted index_before (candidates text r).
Proof.
  unfold candidates. pose proof (exec_all_sorted r text) as H.
  induction H as [|mt ms Hs IH Hall]; simpl; [constructor|].
  destruct (candidate mt) as [i|] eqn:Hi; [|done].
  constructor; [done|].
  apply Forall_forall. intros j Hj.
  apply list_elem_of_omap in Hj as (mt' & Hmt' & Hj).
  rewrite Forall_forall in Hall. specialize (Hall _ Hmt').
  unfold index_before, index_lt in *.
  by rewrite (candidate_index _ _ Hi), (candidate_index _ _ Hj).
Qed.

(** No pattern of the table matches the empty string. *)
Lemma IMPORT_PATTERNS_consume :
  Forall (fun entry => Forall (fun r => (0 < min_len r)%nat) (snd entry))
         IMPORT_PATTERNS.
Proof. repeat constructor. Qed.

Lemma regexMap_own languageId regexes :
  regexMap languageId = Patterns regexes <->
  JsMap.get IMPORT_PATTERNS languageId = Some regexes.
Proof.
  unfold regexMap. destruct (JsMap.get IMPORT_PATTERNS languageId) as [rs|].
  - split; congruence.
  - destruct (JsMap.get OBJECT_PROTOTYPE_METHODS languageId);
      [|destruct (String.eqb languageId "__proto__")]; split; congruence.
Qed.

Lemma regexMap_consume languageId regexes :
  regexMap languageId = Patterns regexes ->
  Forall (fun r => (0 < min_len r)%nat) regexes.
Proof.
  intros H. apply regexMap_own, JsMap_get_elem in H as [k Hk].
  pose proof IMPORT_PATTERNS_consume as Hall.
  rewrite Forall_forall in Hall. by apply (Hall _ Hk).
Qed.

(** The tags for which the property access finds nothing. *)
Lemma regexMap_absent languageId :
  languageId ∉ languages -> languageId ∉ inherited_names ->
  regexMap languageId = Absent.
Proof.
  unfold languages, inherited_names, regexMap. intros Hown Hinh.
  rewrite (JsMap_get_None _ _ Hown).
  rewrite JsMap_get_None by set_solver.
  destruct (String.eqb_spec languageId "__proto__") as [->|_]; [|done].
  exfalso. apply Hinh. set_solver.
Qed.

(** What a call with the patterns of a language returns. *)
Lemma parse_patterns text languageId regexes :
  regexMap languageId = Patterns regexes ->
  parse text languageId =
  Some (first_per_pair [] (flat_map (candidates text) regexes)).
Proof.
  intros H. unfold parse. rewrite H.
  destruct regexes as [|r rs]; [done|]. simpl. by rewrite _extractImports_spec.
Qed.

(** C6, as stated, fails twice.  The [import] on the second line
    (offset 26) is reported before the [require] on the first line
    (offset 10), because all matches of the first pattern come before
    those of the fourth.  And the tag [constructor], which is the tag of
    no language, does not yield the empty list: the call throws. *)
Lemma parse_not_in_document_order :
  (exists imports,
     parse require_then_import "javascript" = Some imports /\
     map (fun i => (path i, index i)) imports =
       [("./b", 26%nat); ("./a", 10%nat)] /\
     ~ StronglySorted index_before imports) /\
  ("constructor" ∉ languages) /\
  parse require_then_import "constructor" = None.
Proof.
  split; [|split].
  - eexists. split; [by vm_compute|]. split; [reflexivity|].
    intros H. apply StronglySorted_inv in H as [_ H].
    apply Forall_inv in H. unfold index_before in H. simpl in H. lia.
  - apply (bool_decide_unpack _). vm_compute. exact I.
  - reflexivity.
Qed.

(** C6, amended: for every source text and every language of the
    table, [parse] returns the records of the matches whose captured
    path is not empty, pattern after pattern in the order of the
    language's pattern list and, for each pattern, in document order
    (strictly increasing offset; the loop over the matches of a pattern
    ends), keeping of the records with the same offset and path only the
    first; so no two records agree on both offset and path, and the
    records of different patterns need not be in document order.  A tag
    that names no property of the table, neither a language nor a name
    every object inherits, yields the empty list. *)
Theorem parse_pattern_after_pattern text languageId :
  (languageId ∈ languages ->
   exists regexes imports,
     regexMap languageId = Patterns regexes /\
     parse text languageId = Some imports /\
     imports = first_per_pair [] (flat_map (candidates text) regexes) /\
     Forall (fun r =>
               exec_loop r None (chars text) 0 0 = Some (exec_all r text) /\
               StronglySorted index_before (candidates text r)) regexes /\
     NoDup (pair_of <$> imports) /\
     Forall (fun i => path i <> EmptyString) imports) /\
  (languageId ∉ languages -> languageId ∉ inherited_names ->
   parse text languageId = Some []).
Proof.
  split.
  - intros Hin. apply JsMap_get_Some in Hin as [regexes Hget].
    apply regexMap_own in Hget.
    exists regexes, (first_per_pair [] (flat_map (candidates text) regexes)).
    split; [done|]. split; [by apply parse_patterns|]. split; [done|].
    split; [|split].
    + eapply Forall_impl; [by eapply regexMap_consume|]. intros r Hr. split.
      * unfold exec_all.
        by destruct (exec_loop_total r None (chars text) 0 0 Hr) as [ms ->].
      * apply candidates_sorted.
    + apply first_per_pair_NoDup.
    + apply Forall_forall. intros i Hi.
      apply first_per_pair_sub in Hi as [Hi _].
      apply list_elem_of_In, in_flat_map in Hi as (r & _ & Hi).
      apply list_elem_of_In, list_elem_of_omap in Hi as (mt & _ & Hi).
      by eapply candidate_path.
  - intros Hown Hinh. unfold parse.
    by rewrite (regexMap_absent _ Hown Hinh).
Qed.

Lemma parse_pattern_after_pattern_witness :
  (exists imports,
     parse require_then_import "javascript" = Some imports /\
     imports =
       first_per_pair []
         (flat_map (candidates require_then_import)
            [import_from; import_bare; export_from; require_call]) /\
     NoDup (pair_of <$> imports)) /\
  parse require_then_import "cobol" = Some [].
Proof.
  destruct (parse_pattern_after_pattern require_then_import "javascript")
    as [Hlang _].
  destruct (parse_pattern_after_pattern require_then_import "cobol")
    as [_ Hnone].
  split.
  - destruct Hlang as (regexes & imports & Hmap & Hparse & Heq & _ & Hnd & _).
    { apply (bool_decide_unpack _). vm_compute. exact I. }
    exists imports. split; [exact Hparse|]. split; [|exact Hnd].
    rewrite Heq. vm_compute in Hmap. by injection Hmap as <-.
  - apply Hnone; apply (bool_decide_unpack _); vm_compute; exact I.
Defined.

End ParserFacts.

(** ** Binary64 arithmetic

    Facts about the IEEE-754 operations, from their specification in the
    standard library: rounding a positive mantissa gives a positive
    number, and the numbers that are at least one are closed under the
    operations of the cosine. *)

Section Binary64.
Local Open Scope Z_scope.

Lemma digits2_pos_log2 p : Zpos (digits2_pos p) = Z.log2 (Zpos p) + 1.
Proof.
  induction p as [p IH|p IH|]; simpl; try reflexivity.
  - rewrite Pos2Z.inj_succ. destruct p; simpl in *; lia.
  - rewrite Pos2Z.inj_succ. destruct p; simpl in *; lia.
Qed.

Lemma Zdigits2_pos m : 0 < m -> Zdigits2 m = Z.log2 m + 1.
Proof. destruct m as [|p|p]; try lia. intros _. apply digits2_pos_log2. Qed.

Lemma iter_pos_iter {A} (f : A -> A) p x : SpecFloat.iter_pos f p x = Pos.iter f x p.
Proof.
  revert x. induction p as [p IH|p IH|]; intros x; simpl.
  - rewrite !IH. rewrite <- !Pos.iter_swap. reflexivity.
  - rewrite !IH. reflexivity.
  - reflexivity.
Qed.

Lemma shr_1_m mrs : 0 <= shr_m mrs -> shr_m (shr_1 mrs) = Z.div2 (shr_m mrs).
Proof.
  destruct mrs as [m r s]. simpl. intros Hm.
  destruct m as [|[p|p|]|p]; simpl; try reflexivity; lia.
Qed.

Lemma shr_iter_m p mrs :
  0 <= shr_m mrs ->
  shr_m (SpecFloat.iter_pos shr_1 p mrs) = Z.shiftr (shr_m mrs) (Zpos p).
Proof.
  intros Hm. rewrite iter_pos_iter. unfold Z.shiftr. simpl.
  enough (H : 0 <= shr_m (Pos.iter shr_1 mrs p) /\
              shr_m (Pos.iter shr_1 mrs p) = Pos.iter Z.div2 (shr_m mrs) p) by apply H.
  induction p as [|p IH] using Pos.peano_ind.
  - simpl. rewrite shr_1_m by assumption. split; [|reflexivity].
    rewrite Z.div2_nonneg. assumption.
  - rewrite !Pos.iter_succ. destruct IH as [IH1 IH2].
    rewrite shr_1_m by assumption. rewrite IH2. split; [|reflexivity].
    rewrite Z.div2_nonneg. rewrite <- IH2. assumption.
Qed.

Lemma fexp_64 x : SpecFloat.fexp prec emax x = Z.max (x - 53) (-1074).
Proof. reflexivity. Qed.

(** What [shr_fexp] does to a non-negative mantissa. *)
Lemma shr_fexp_spec m e l :
  0 < m ->
  exists mrs e',
    shr_fexp prec emax m e l = (mrs, e') /\
    e' = Z.max e (SpecFloat.fexp prec emax (Z.log2 m + 1 + e)) /\
    shr_m mrs = Z.shiftr m (e' - e).
Proof.
  intros Hm. unfold shr_fexp. rewrite Zdigits2_pos by assumption.
  set (n := SpecFloat.fexp prec emax (Z.log2 m + 1 + e) - e).
  assert (Hrec : shr_m (shr_record_of_loc m l) = m).
  { destruct l as [|[]]; reflexivity. }
  unfold shr. destruct n as [|p|p] eqn:Hn.
  - eexists _, _. split; [reflexivity|]. split; [lia|].
    rewrite Hrec. replace (e - e) with 0 by lia. symmetry. apply Z.shiftr_0_r.
  - eexists _, _. split; [reflexivity|]. split; [lia|].
    rewrite shr_iter_m by lia. rewrite Hrec. f_equal. lia.
  - eexists _, _. split; [reflexivity|]. split; [lia|].
    rewrite Hrec. replace (e - e) with 0 by lia. symmetry. apply Z.shiftr_0_r.
Qed.

Lemma rne_bounds m l : m <= round_nearest_even m l <= m + 1.
Proof.
  unfold round_nearest_even. destruct l as [|[]]; try lia.
  destruct (Z.even m); lia.
Qed.

(** Shifting a positive number by no more than its logarithm. *)
Lemma shiftr_pos m s : 0 < m -> 0 <= s <= Z.log2 m ->
  0 < Z.shiftr m s /\ Z.log2 (Z.shiftr m s) = Z.log2 m - s.
Proof.
  intros Hm Hs. split.
  - destruct (Z.shiftr_eq_0_iff m s) as [H1 _].
    pose proof (Z.shiftr_nonneg m s) as Hnn.
    destruct (Z.eq_dec (Z.shiftr m s) 0) as [H0|H0]; [|lia].
    destruct (H1 H0) as [|[_ ?]]; lia.
  - rewrite Z.log2_shiftr by assumption. lia.
Qed.

(** Rounding a positive mantissa. *)
Lemma binary_round_aux_pos m e l :
  0 < m -> -1074 <= e ->
  exists m' e', e <= e' /\ Z.log2 m + e <= Z.log2 (Zpos m') + e' /\
    e' <= Z.max e (Z.max (Z.log2 m + e - 51) (-1074)) /\
    binary_round_aux prec emax false m e l =
      if e' <=? 971 then S754_finite false m' e' else S754_infinity false.
Proof.
  intros Hm He. unfold binary_round_aux.
  destruct (shr_fexp_spec m e l Hm) as (mrs1 & e1 & -> & He1 & Hm1).
  rewrite fexp_64 in He1.
  assert (Hs1 : 0 <= e1 - e <= Z.log2 m).
  { pose proof (Z.log2_nonneg m). lia. }
  destruct (shiftr_pos m (e1 - e) Hm Hs1) as [Hpos1 Hlog1].
  rewrite <- Hm1 in Hpos1, Hlog1.
  set (m2 := round_nearest_even (shr_m mrs1) (loc_of_shr_record mrs1)).
  pose proof (rne_bounds (shr_m mrs1) (loc_of_shr_record mrs1)) as Hm2. fold m2 in Hm2.
  assert (Hm2pos : 0 < m2) by lia.
  destruct (shr_fexp_spec m2 e1 loc_Exact Hm2pos) as (mrs3 & e3 & -> & He3 & Hm3).
  rewrite fexp_64 in He3.
  assert (Hlog2 : Z.log2 (shr_m mrs1) <= Z.log2 m2 <= Z.log2 (shr_m mrs1) + 1).
  { split; [apply Z.log2_le_mono; lia|].
    destruct (Z.eq_dec m2 (shr_m mrs1)) as [->|Hne]; [lia|].
    replace m2 with (Z.succ (shr_m mrs1)) by lia.
    pose proof (Z.log2_succ_le (shr_m mrs1)). lia. }
  assert (Hs3 : 0 <= e3 - e1 <= Z.log2 m2).
  { pose proof (Z.log2_nonneg m2). lia. }
  destruct (shiftr_pos m2 (e3 - e1) Hm2pos Hs3) as [Hpos3 Hlog3].
  rewrite <- Hm3 in Hpos3, Hlog3.
  destruct (shr_m mrs3) as [|m'|m'] eqn:Hm'; try lia.
  exists m', e3. split; [lia|]. split; [lia|]. split; [lia|]. reflexivity.
Qed.

Lemma binary_round_aux_ge_one m e l :
  0 < m -> -1074 <= e -> 0 <= Z.log2 m + e ->
  ge_one (binary_round_aux prec emax false m e l).
Proof.
  intros Hm He Hmag.
  destruct (binary_round_aux_pos m e l Hm He) as (m' & e' & _ & Hlog & _ & ->).
  destruct (e' <=? 971); cbn [ge_one]; [lia|exact I].
Qed.

Lemma binary_round_aux_finite m e l :
  0 < m -> -1074 <= e <= 971 -> Z.log2 m + e <= 1022 ->
  exists m' e', binary_round_aux prec emax false m e l = S754_finite false m' e' /\
                Z.log2 m + e <= Z.log2 (Zpos m') + e'.
Proof.
  intros Hm He Hmag.
  destruct (binary_round_aux_pos m e l Hm) as (m' & e' & _ & Hlog & Hup & ->); [lia|].
  exists m', e'. split; [|assumption].
  destruct (Z.leb_spec e' 971); [reflexivity|lia].
Qed.

Lemma iter_xO p d : Zpos (Pos.iter xO p d) = Zpos p * 2 ^ Zpos d.
Proof.
  induction d as [|d IH] using Pos.peano_ind.
  - simpl. lia.
  - rewrite Pos.iter_succ, Pos2Z.inj_succ, Z.pow_succ_r by lia.
    rewrite Pos2Z.inj_xO, IH. lia.
Qed.

Lemma shl_align_spec p e e' :
  exists mz ez, shl_align p e e' = (mz, ez) /\
    ez = Z.min e e' /\ Zpos mz = Zpos p * 2 ^ (e - ez) /\
    Z.log2 (Zpos mz) + ez = Z.log2 (Zpos p) + e.
Proof.
  unfold shl_align. destruct (e' - e) as [|d|d] eqn:Hd.
  - exists p, e. split; [reflexivity|]. split; [lia|].
    replace (e - e) with 0 by lia. split; lia.
  - exists p, e. split; [reflexivity|]. split; [lia|].
    replace (e - e) with 0 by lia. split; lia.
  - exists (Pos.iter xO p d), e'. split; [reflexivity|]. split; [lia|].
    replace (e - e') with (Zpos d) by lia. rewrite iter_xO. split; [reflexivity|].
    rewrite Z.log2_mul_pow2 by lia. lia.
Qed.

Lemma binary_round_ge_one p e :
  -1074 <= e -> 0 <= Z.log2 (Zpos p) + e ->
  ge_one (binary_round prec emax false p e).
Proof.
  intros He Hmag. unfold binary_round.
  destruct (shl_align_spec p e (SpecFloat.fexp prec emax (Zpos (digits2_pos p) + e)))
    as (mz & ez & -> & Hez & _ & Hlog).
  rewrite fexp_64 in Hez.
  apply binary_round_aux_ge_one; lia.
Qed.

Lemma binary_round_finite p e :
  -1074 <= e <= 971 -> Z.log2 (Zpos p) + e <= 1022 ->
  exists m' e', binary_round prec emax false p e = S754_finite false m' e' /\
                Z.log2 (Zpos p) + e <= Z.log2 (Zpos m') + e'.
Proof.
  intros He Hmag. unfold binary_round.
  destruct (shl_align_spec p e (SpecFloat.fexp prec emax (Zpos (digits2_pos p) + e)))
    as (mz & ez & -> & Hez & _ & Hlog).
  rewrite fexp_64 in Hez.
  destruct (binary_round_aux_finite (Zpos mz) ez loc_Exact) as (m' & e' & H1 & H2);
    try lia.
  exists m', e'. split; [assumption|lia].
Qed.

(** A finite value of the format has an exponent within bounds. *)
Lemma valid_finite x s m e :
  Prim2SF x = S754_finite s m e ->
  -1074 <= e <= 971 /\ Z.log2 (Zpos m) + e - 52 <= e.
Proof.
  intros Hx. pose proof (Prim2SF_valid x) as Hv. rewrite Hx in Hv.
  unfold SpecFloat.valid_binary, bounded, canonical_mantissa in Hv.
  apply andb_prop in Hv as [Hc Hb].
  apply Z.eqb_eq in Hc. apply Z.leb_le in Hb.
  rewrite fexp_64, digits2_pos_log2 in Hc.
  change (emax - prec) with 971 in Hb. lia.
Qed.

Lemma of_uint63_count_like i : count_like (Prim2SF (of_uint63 i)).
Proof.
  rewrite FloatAxioms.of_uint63_spec. pose proof (Uint63.to_Z_bounded i) as Hi.
  unfold binary_normalize. destruct (Uint63.to_Z i) as [|p|p] eqn:Hp.
  - by left.
  - right.
    assert (Hlog : Z.log2 (Zpos p) < 63).
    { apply Z.log2_lt_pow2; [lia|]. change (2 ^ 63) with wB. lia. }
    pose proof (Z.log2_nonneg (Zpos p)).
    destruct (binary_round_finite p 0) as (m' & e' & H1 & H2); try lia.
    exists m', e'. split; [assumption|lia].
  - lia.
Qed.

Lemma count_like_valid x : count_like (Prim2SF x) ->
  Prim2SF x = S754_zero false \/
  exists m e, Prim2SF x = S754_finite false m e /\ 0 <= Z.log2 (Zpos m) + e /\
              -52 <= e <= 971.
Proof.
  intros [H|(m & e & H & Hmag)]; [by left|right].
  exists m, e. split; [assumption|]. split; [assumption|].
  apply valid_finite in H. lia.
Qed.

Lemma mul_zero_r x : count_like (Prim2SF x) -> Prim2SF (x * 0)%float = S754_zero false.
Proof.
  intros Hx. rewrite FloatAxioms.mul_spec. change (Prim2SF 0) with (S754_zero false).
  destruct Hx as [->|(m & e & -> & _)]; reflexivity.
Qed.

Lemma mul_count_like x y :
  count_like (Prim2SF x) -> count_like (Prim2SF y) ->
  zero_or_ge_one (Prim2SF (x * y)%float).
Proof.
  intros Hx Hy. rewrite FloatAxioms.mul_spec.
  apply count_like_valid in Hx as [->|(mx & ex & -> & Hmx & Hex)];
  apply count_like_valid in Hy as [->|(my & ey & -> & Hmy & Hey)];
    try (left; reflexivity).
  right. unfold SF64mul, SFmul. simpl xorb.
  apply binary_round_aux_ge_one; try lia.
  rewrite Pos2Z.inj_mul.
  pose proof (Z.log2_mul_below (Zpos mx) (Zpos my)). lia.
Qed.

Lemma ge_one_valid x : ge_one (Prim2SF x) ->
  Prim2SF x = S754_infinity false \/
  exists m e, Prim2SF x = S754_finite false m e /\ 0 <= Z.log2 (Zpos m) + e /\
              -52 <= e <= 971.
Proof.
  intros H. destruct (Prim2SF x) as [s|[]| |[] m e] eqn:Hx; cbn [ge_one] in H;
    try contradiction.
  - by left.
  - right. exists m, e. split; [reflexivity|]. apply valid_finite in Hx. lia.
Qed.

Lemma mul_ge_one x y :
  ge_one (Prim2SF x) -> ge_one (Prim2SF y) -> ge_one (Prim2SF (x * y)%float).
Proof.
  intros Hx Hy. rewrite FloatAxioms.mul_spec.
  apply ge_one_valid in Hx as [->|(mx & ex & -> & Hmx & Hex)];
  apply ge_one_valid in Hy as [->|(my & ey & -> & Hmy & Hey)];
    try exact I.
  unfold SF64mul, SFmul. simpl xorb.
  apply binary_round_aux_ge_one; try lia.
  rewrite Pos2Z.inj_mul.
  pose proof (Z.log2_mul_below (Zpos mx) (Zpos my)). lia.
Qed.

Lemma add_zero_or_ge_one x y :
  zero_or_ge_one (Prim2SF x) -> zero_or_ge_one (Prim2SF y) ->
  zero_or_ge_one (Prim2SF (x + y)%float).
Proof.
  intros Hx Hy. rewrite FloatAxioms.add_spec.
  destruct Hx as [->|Hx]; [destruct Hy as [->|Hy]|].
  - by left.
  - right. destruct (Prim2SF y) as [s|[]| |[] m e]; cbn [ge_one] in *;
      try contradiction; auto.
  - right. destruct Hy as [->|Hy].
    + destruct (Prim2SF x) as [s|[]| |[] m e]; cbn [ge_one] in *;
        try contradiction; auto.
    + apply ge_one_valid in Hx as [->|(mx & ex & -> & Hmx & Hex)];
      apply ge_one_valid in Hy as [->|(my & ey & -> & Hmy & Hey)];
        try exact I.
      unfold SF64add, SFadd. simpl cond_Zopp.
      destruct (shl_align_spec mx ex (Z.min ex ey)) as (ax & ez1 & -> & _ & Hax & _).
      destruct (shl_align_spec my ey (Z.min ex ey)) as (ay & ez2 & -> & Hez & Hay & Hlogy).
      simpl fst. simpl Z.add. unfold binary_normalize.
      change (IntDef.Z.min ex ey) with (Z.min ex ey).
      apply binary_round_ge_one; [lia|].
      assert (Hle : Z.log2 (Zpos ay) <= Z.log2 (Zpos (ax + ay))).
      { apply Z.log2_le_mono. lia. }
      change (IntDef.Z.min ex ey) with (Z.min ex ey). lia.
Qed.

Lemma sqrt_ge_one x : ge_one (Prim2SF x) -> ge_one (Prim2SF (PrimFloat.sqrt x)).
Proof.
  intros Hx. rewrite FloatAxioms.sqrt_spec.
  apply ge_one_valid in Hx as [->|(m & e & -> & Hm & He)]; [exact I|].
  unfold SF64sqrt, SFsqrt, SFsqrt_core_binary.
  rewrite Zdigits2_pos by lia. rewrite fexp_64.
  set (e' := Z.min _ (Z.div2 e)).
  assert (He' : -1074 <= e' /\ 2 * e' <= e /\
                (e' <= 0 \/ 2 * e' <= Z.log2 (Z.pos m) + e)).
  { unfold e'. rewrite !Z.div2_div.
    pose proof (Z.div_mod e 2). pose proof (Z.mod_pos_bound e 2).
    pose proof (Z.div_mod (Z.log2 (Z.pos m) + 1 + e + 1) 2).
    pose proof (Z.mod_pos_bound (Z.log2 (Z.pos m) + 1 + e + 1) 2). lia. }
  set (s := e - 2 * e').
  set (m' := match s with Z.pos _ => Z.shiftl (Z.pos m) s | 0 => Z.pos m | Z.neg _ => 0 end).
  assert (Hm' : m' = Z.pos m * 2 ^ s).
  { unfold m'. destruct s as [|p|p] eqn:Hs; [lia| |lia].
    rewrite Z.shiftl_mul_pow2 by lia. reflexivity. }
  assert (Hs : 0 <= s) by (unfold s; lia).
  assert (Hlog : Z.log2 m' = Z.log2 (Z.pos m) + s).
  { rewrite Hm'. rewrite Z.log2_mul_pow2 by lia. lia. }
  assert (Hm'pos : 0 < m').
  { rewrite Hm'. apply Z.mul_pos_pos; [lia|]. apply Z.pow_pos_nonneg; lia. }
  pose proof (Z.sqrtrem_sqrt m') as Hq.
  destruct (Z.sqrtrem m') as [q r]. simpl in Hq. subst q.
  assert (Hq : 2 ^ Z.max 0 (- e') <= Z.sqrt m').
  { apply Z.sqrt_le_square; [lia|apply Z.pow_nonneg; lia|].
    rewrite <- Z.pow_add_r by lia.
    transitivity (2 ^ Z.log2 m'); [|apply Z.log2_spec; lia].
    apply Z.pow_le_mono_r; lia. }
  assert (Hqpos : 0 < Z.sqrt m').
  { pose proof (Z.pow_pos_nonneg 2 (Z.max 0 (- e'))). lia. }
  apply binary_round_aux_ge_one; [lia|lia|].
  assert (Z.max 0 (- e') <= Z.log2 (Z.sqrt m')).
  { apply Z.log2_le_pow2; lia. }
  lia.
Qed.

Lemma div_zero_ge_one y : ge_one (Prim2SF y) -> (0 / y)%float = 0%float.
Proof.
  intros Hy. apply Prim2SF_inj. rewrite FloatAxioms.div_spec.
  change (Prim2SF 0) with (S754_zero false).
  destruct (Prim2SF y) as [s|[]| |[] m e]; cbn [ge_one] in Hy; try contradiction;
    reflexivity.
Qed.

Lemma eqb_zero_false x :
  zero_or_ge_one (Prim2SF x) -> PrimFloat.eqb x 0 = false -> ge_one (Prim2SF x).
Proof.
  intros [Hx|Hx] H; [|assumption].
  rewrite FloatAxioms.eqb_spec, Hx in H. discriminate H.
Qed.

End Binary64.

(** ** Cosine similarity *)

Section Cosine.
Import AIKernel.
Local Open Scope float_scope.

Lemma first_loop vecB (l : JsMap.t N) dot mag :
  fold_left (fun '(dotProduct, magA) '(key, valA) =>
               let valB := default 0%N (JsMap.get vecB key) in
               (dotProduct + num valA * num valB, magA + num valA * num valA))
            l (dot, mag) =
  (fold_left (fun dot '(key, valA) =>
                dot + num valA * num (default 0%N (JsMap.get vecB key))) l dot,
   fold_left (fun mag val => mag + num val * num val) (JsMap.values l) mag).
Proof.
  revert dot mag. induction l as [|[key valA] l IH]; intros dot mag; [done|].
  simpl. by rewrite IH.
Qed.

Lemma _cosineSimilarity_unfold vecA vecB :
  _cosineSimilarity vecA vecB =
  if PrimFloat.eqb (sqmag vecA) 0 || PrimFloat.eqb (sqmag vecB) 0 then 0
  else dotp vecA vecB / (PrimFloat.sqrt (sqmag vecA) * PrimFloat.sqrt (sqmag vecB)).
Proof. unfold _cosineSimilarity. by rewrite first_loop. Qed.

Lemma JsMap_get_NoDup {V} (m : JsMap.t V) key v :
  NoDup (map fst m) -> (key, v) ∈ m -> JsMap.get m key = Some v.
Proof.
  induction m as [|[k w] m IH]; intros Hnd Hin; simpl.
  { by apply elem_of_nil in Hin. }
  apply NoDup_cons in Hnd as [Hk Hnd].
  apply elem_of_cons in Hin as [[= -> ->]|Hin].
  { by rewrite String.eqb_refl. }
  destruct (String.eqb_spec k key) as [->|Hne]; [|by apply IH].
  exfalso. apply Hk. apply list_elem_of_fmap. by exists (key, v).
Qed.

Lemma dotp_self vec : NoDup (map fst vec) -> dotp vec vec = sqmag vec.
Proof.
  intros Hnd. unfold dotp, sqmag.
  assert (H : forall l acc,
    (forall key val, (key, val) ∈ l -> JsMap.get vec key = Some val) ->
    fold_left (fun dot '(key, valA) =>
                 dot + num valA * num (default 0%N (JsMap.get vec key))) l acc =
    fold_left (fun mag val => mag + num val * num val) (JsMap.values l) acc).
  { induction l as [|[key val] l IH]; intros acc Hl; [done|].
    simpl. rewrite (Hl key val) by (by left). simpl.
    apply IH. intros k v Hkv. apply Hl. by right. }
  apply H. intros key val. by apply JsMap_get_NoDup.
Qed.

Lemma num_count_like n : count_like (Prim2SF (num n)).
Proof. apply of_uint63_count_like. Qed.

Lemma sqmag_zero_or_ge_one vec : zero_or_ge_one (Prim2SF (sqmag vec)).
Proof.
  unfold sqmag.
  assert (H : forall l acc, zero_or_ge_one (Prim2SF acc) ->
    zero_or_ge_one
      (Prim2SF (fold_left (fun mag val => mag + num val * num val) l acc))).
  { induction l as [|val l IH]; intros acc Hacc; [done|].
    simpl. apply IH. apply add_zero_or_ge_one; [done|].
    apply mul_count_like; apply num_count_like. }
  apply H. by left.
Qed.

Lemma sqmag_all_zero vec : all_zero vec -> sqmag vec = 0.
Proof.
  unfold sqmag, all_zero. induction 1 as [|[key val] l Hval _ IH]; [done|].
  simpl in *. by subst val.
Qed.

Lemma dotp_disjoint vecA vecB :
  (forall key valA, (key, valA) ∈ vecA -> JsMap.get vecB key = None) ->
  dotp vecA vecB = 0.
Proof.
  unfold dotp. intros Hdis.
  assert (H : forall l,
    (forall key valA, (key, valA) ∈ l -> JsMap.get vecB key = None) ->
    fold_left (fun dot '(key, valA) =>
                 dot + num valA * num (default 0%N (JsMap.get vecB key))) l 0 = 0).
  { induction l as [|[key val] l IH]; intros Hl; [done|].
    simpl. rewrite (Hl key val) by (by left). simpl.
    change (num 0) with 0.
    assert (Hstep : 0 + num val * 0 = 0).
    { apply Prim2SF_inj. rewrite FloatAxioms.add_spec, mul_zero_r.
      - reflexivity.
      - apply num_count_like. }
    rewrite Hstep. apply IH. intros k v Hkv. apply (Hl k v). by right. }
  by apply H.
Qed.

(** C9, as stated, fails: for the vector with two tokens that occur once
    each, compared with itself, the result is 1 - 2^-52, the number
    printed as 0.9999999999999998. *)
Lemma cosine_of_identical_vectors_not_one :
  NoDup (map fst two_tokens) /\
  PrimFloat.eqb (sqmag two_tokens) 0 = false /\
  PrimFloat.eqb (_cosineSimilarity two_tokens two_tokens) 1 = false /\
  _cosineSimilarity two_tokens two_tokens = 1 - 0x1p-52.
Proof.
  split.
  - apply NoDup_ListNoDup. repeat constructor; simpl; intuition discriminate.
  - by vm_compute.
Qed.

(** C9, amended: for every pair of term-frequency vectors,
    [_cosineSimilarity] returns exactly 0 when the vectors share no token
    and when all counts of one of them are zero (an empty vector in
    particular), without dividing by zero; for a vector with itself it
    returns 0 when the squared magnitude m is zero and otherwise the
    binary64 value of m / (sqrt m * sqrt m), which is 1 for some vectors
    and not for others.  [sqmag] is the squared magnitude the function
    computes and compares with 0. *)
Theorem cosineSimilarity_cases vecA vecB :
  (NoDup (map fst vecA) ->
     _cosineSimilarity vecA vecA =
     let m := sqmag vecA in
     if PrimFloat.eqb m 0 then 0 else m / (PrimFloat.sqrt m * PrimFloat.sqrt m)) /\
  ((forall key valA, (key, valA) ∈ vecA -> JsMap.get vecB key = None) ->
     _cosineSimilarity vecA vecB = 0) /\
  (all_zero vecA \/ all_zero vecB \/ sqmag vecA = 0 \/ sqmag vecB = 0 ->
     _cosineSimilarity vecA vecB = 0).
Proof.
  split; [|split].
  - intros Hnd. rewrite _cosineSimilarity_unfold, dotp_self by done.
    cbv zeta. by rewrite orb_diag.
  - intros Hdis. rewrite _cosineSimilarity_unfold, dotp_disjoint by done.
    destruct (PrimFloat.eqb (sqmag vecA) 0) eqn:HA; [done|].
    destruct (PrimFloat.eqb (sqmag vecB) 0) eqn:HB; [done|].
    simpl. apply div_zero_ge_one, mul_ge_one; apply sqrt_ge_one.
    + by apply eqb_zero_false; [apply sqmag_zero_or_ge_one|].
    + by apply eqb_zero_false; [apply sqmag_zero_or_ge_one|].
  - intros H. rewrite _cosineSimilarity_unfold.
    assert (Hzero : sqmag vecA = 0 \/ sqmag vecB = 0).
    { destruct H as [H|[H|[H|H]]]; auto using sqmag_all_zero. }
    destruct Hzero as [-> | ->]; [done|]. by rewrite orb_true_r.
Qed.

Lemma cosineSimilarity_cases_witness :
  _cosineSimilarity one_token one_token = 1 /\
  _cosineSimilarity one_token other_token = 0 /\
  _cosineSimilarity [] one_token = 0.
Proof.
  destruct (cosineSimilarity_cases one_token other_token) as (_ & Hdis & _).
  destruct (cosineSimilarity_cases one_token one_token) as (Hid & _ & _).
  destruct (cosineSimilarity_cases [] one_token) as (_ & _ & Hzero).
  split; [|split].
  - rewrite Hid; [by vm_compute|].
    apply NoDup_ListNoDup. repeat constructor. simpl. intuition.
  - apply Hdis. intros key valA Hin.
    apply list_elem_of_In in Hin. simpl in Hin.
    destruct Hin as [[= <- <-]|[]]. reflexivity.
  - apply Hzero. left. constructor.
Defined.

End Cosine.

(** ** Strings *)

Section StringFacts.
Import JsString.

Lemma chars_of_chars l : chars (of_chars l) = l.
Proof. apply list_ascii_of_string_of_list_ascii. Qed.

Lemma of_chars_chars s : of_chars (chars s) = s.
Proof. apply string_of_list_ascii_of_string. Qed.

Lemma length_of_chars l : String.length (of_chars l) = List.length l.
Proof. induction l; simpl; congruence. Qed.

Lemma of_chars_app l1 l2 : of_chars (l1 ++ l2) = of_chars l1 +:+ of_chars l2.
Proof. induction l1; simpl; [done|]. by rewrite IHl1. Qed.

Lemma substring_chars n m s :
  substring n m s = of_chars (take m (drop n (chars s))).
Proof.
  revert n m. induction s as [|c s IH]; intros n m.
  - destruct n, m; done.
  - destruct n as [|n]; simpl.
    + destruct m as [|m]; simpl; [done|]. rewrite IH. by rewrite drop_0.
    + apply IH.
Qed.

Lemma toLowerCase_app a b :
  toLowerCase (a +:+ b) = toLowerCase a +:+ toLowerCase b.
Proof. induction a as [|c a IH]; simpl; [done|]. by rewrite IH. Qed.

Lemma slashes_app a b : slashes (a +:+ b) = slashes a +:+ slashes b.
Proof. induction a as [|c a IH]; simpl; [done|]. by rewrite IH. Qed.

Lemma chars_app a b : chars (a +:+ b) = chars a ++ chars b.
Proof. induction a as [|c a IH]; simpl; [done|]. by rewrite IH. Qed.

Lemma take_while_stop {A} (p : A -> bool) l x r :
  Forall (fun y => p y = true) l -> p x = false ->
  take_while p (l ++ x :: r) = l /\ drop_while p (l ++ x :: r) = x :: r.
Proof.
  intros Hl Hx. induction Hl as [|y l Hy Hl IH]; simpl.
  - by rewrite Hx.
  - rewrite Hy. destruct IH as [-> ->]. done.
Qed.

Lemma prefix_app p s : String.prefix p (p +:+ s) = true.
Proof.
  induction p as [|c p IH]; simpl; [by destruct s|].
  destruct (ascii_dec c c); [done|congruence].
Qed.

End StringFacts.

(** ** Where the records of the parser lie *)

Section SliceFacts.
Import JsString Regex ImportParser.

Lemma lit_reads {A} l prev s (k : option ascii -> list ascii -> option A) x :
  lit l prev s k = Some x ->
  exists p' pre s', k p' s' = Some x /\ s = pre ++ s'.
Proof.
  revert prev s. induction l as [|c l IH]; intros prev s H; simpl in H.
  - by exists prev, [], s.
  - destruct s as [|a s]; [done|].
    destruct (Ascii.eqb a c); [|done].
    apply IH in H as (p' & pre & s' & Hk & ->).
    by exists p', (a :: pre), s'.
Qed.

Lemma greedy_reads {A} p prev s (k : option ascii -> list ascii -> option A) x :
  greedy p prev s k = Some x ->
  exists p' pre s', k p' s' = Some x /\ s = pre ++ s'.
Proof.
  revert prev. induction s as [|a s IH]; intros prev H; simpl in H.
  - by exists prev, [], [].
  - destruct (p a).
    + destruct (greedy p (Some a) s k) as [y|] eqn:Hg.
      * inversion H; subst y.
        apply IH in Hg as (p' & pre & s' & Hk & ->).
        by exists p', (a :: pre), s'.
      * by exists prev, [], (a :: s).
    + by exists prev, [], (a :: s).
Qed.

Lemma lazy_reads {A} p prev s (k : option ascii -> list ascii -> option A) x :
  lazy p prev s k = Some x ->
  exists p' pre s', k p' s' = Some x /\ s = pre ++ s'.
Proof.
  revert prev. induction s as [|a s IH]; intros prev H; simpl in H.
  - destruct (k prev []) as [y|] eqn:Hk; [|done].
    inversion H; subst y. by exists prev, [], [].
  - destruct (k prev (a :: s)) as [y|] eqn:Hk.
    + inversion H; subst y. by exists prev, [], (a :: s).
    + destruct (p a); [|done].
      apply IH in H as (p' & pre & s' & Hk' & ->).
      by exists p', (a :: pre), s'.
Qed.

Lemma infix_of_app_l l s t : infix_of l s -> infix_of l (s ++ t).
Proof.
  intros (b & a & ->). exists b, (a ++ t). by rewrite <- !app_assoc.
Qed.

Lemma infix_of_app_r l s t : infix_of l t -> infix_of l (s ++ t).
Proof.
  intros (b & a & ->). exists (s ++ b), a. by rewrite <- !app_assoc.
Qed.

Lemma reads_same s cap : reads s [] s cap cap.
Proof. split; [done|by left]. Qed.

(** A successful match hands to its continuation the rest of the text
    and a capture that is the old one or a piece of the text read. *)
Lemma m_reads {A} r prev s cap (k : cont) (x : A) :
  m r prev s cap k = Some x ->
  exists p' pre s' cap', k p' s' cap' = Some x /\ reads s pre s' cap cap'.
Proof.
  revert prev s cap k.
  induction r as [l|c|c|c|c|r IH|r1 IH1 r2 IH2|r1 IH1 r2 IH2|r IH| |];
    intros prev s cap k H; simpl in H.
  - apply lit_reads in H as (p' & pre & s' & Hk & ->).
    exists p', pre, s', cap. split; [done|]. split; [done|by left].
  - destruct s as [|a s]; [done|]. destruct (cls_match c a); [|done].
    exists (Some a), [a], s, cap. split; [done|]. split; [done|by left].
  - apply greedy_reads in H as (p' & pre & s' & Hk & ->).
    exists p', pre, s', cap. split; [done|]. split; [done|by left].
  - apply lazy_reads in H as (p' & pre & s' & Hk & ->).
    exists p', pre, s', cap. split; [done|]. split; [done|by left].
  - destruct s as [|a s]; [done|]. destruct (cls_match c a); [|done].
    apply greedy_reads in H as (p' & pre & s' & Hk & ->).
    exists p', (a :: pre), s', cap. split; [done|]. split; [done|by left].
  - destruct (m r prev s cap k) as [y|] eqn:Hm.
    + inversion H; subst y. by apply IH in Hm.
    + exists prev, [], s, cap. split; [done|]. apply reads_same.
  - apply IH1 in H as (p1 & pre1 & s1 & cap1 & Hk1 & Hs1 & Hc1).
    apply IH2 in Hk1 as (p2 & pre2 & s2 & cap2 & Hk2 & Hs2 & Hc2).
    exists p2, (pre1 ++ pre2), s2, cap2. split; [done|]. split.
    + by rewrite Hs1, Hs2, app_assoc.
    + destruct Hc2 as [->|(c & -> & Hc)].
      * destruct Hc1 as [->|(c & -> & Hc)]; [by left|].
        right. exists c. split; [done|]. by apply infix_of_app_l.
      * right. exists c. split; [done|]. by apply infix_of_app_r.
  - destruct (m r1 prev s cap k) as [y|] eqn:Hm.
    + inversion H; subst y. by apply IH1 in Hm.
    + by apply IH2 in H.
  - apply IH in H as (p' & pre & s' & cap' & Hk & Hs & _).
    eexists p', pre, s', _. split; [exact Hk|]. split; [done|].
    right. eexists. split; [done|].
    rewrite Hs, length_app.
    replace (List.length pre + List.length s' - List.length s')%nat
      with (List.length pre) by lia.
    rewrite take_app_length, chars_of_chars.
    exists [], []. by rewrite app_nil_r.
  - destruct (at_line_end s); [|done].
    exists prev, [], s, cap. split; [done|]. apply reads_same.
  - destruct (at_word_boundary prev s); [|done].
    exists prev, [], s, cap. split; [done|]. apply reads_same.
Qed.

Lemma match_here_reads r prev s rest cap :
  match_here r prev s = Some (rest, cap) ->
  exists pre, s = pre ++ rest /\
    forall c, cap = Some c -> infix_of (chars c) pre.
Proof.
  unfold match_here. intros H.
  apply m_reads in H as (p' & pre & s' & cap' & Hk & Hs & Hc).
  inversion Hk; subst. exists pre. split; [done|].
  intros c ->. destruct Hc as [?|(c' & Hc' & ?)]; [done|]. by inversion Hc'; subst.
Qed.

Lemma exec_loop_located r text prev s idx skip ms :
  s = drop idx text -> (idx <= List.length text)%nat ->
  exec_loop r prev s idx skip = Some ms ->
  Forall (located text) ms /\
  Forall (fun mt => (idx + skip <= m_index mt)%nat) ms /\
  StronglySorted ends_before ms.
Proof.
  revert prev idx skip ms.
  induction s as [|a s IH]; intros prev idx skip ms Hs Hidx H.
  - destruct skip; simpl in H.
    + destruct (match_here r prev []) as [[rest cap]|]; simpl in H.
      * destruct rest; simpl in H; done.
      * inversion H. repeat split; constructor.
    + inversion H. repeat split; constructor.
  - assert (Hs' : s = drop (S idx) text).
    { replace (S idx) with (idx + 1)%nat by lia.
      rewrite <- drop_drop, <- Hs. done. }
    assert (Hlen : (S idx <= List.length text)%nat).
    { apply (f_equal List.length) in Hs. rewrite length_drop in Hs.
      simpl in Hs. lia. }
    destruct skip as [|n]; simpl in H.
    + destruct (match_here r prev (a :: s)) as [[rest cap]|] eqn:Hm.
      * destruct (S (List.length s) - List.length rest)%nat as [|n] eqn:Hn; [done|].
        destruct (exec_loop r (Some a) s (S idx) n) as [ms'|] eqn:Hrec; [|done].
        inversion H; subst ms; clear H.
        apply IH in Hrec as (Hloc & Hlo & Hsorted); [|done..].
        apply match_here_reads in Hm as (pre & Hpre & Hcap).
        assert (Hpl : List.length pre = S n).
        { apply (f_equal List.length) in Hpre.
          rewrite length_app in Hpre. simpl in Hpre. lia. }
        assert (Htake : take (S n) (a :: s) = pre).
        { rewrite Hpre, <- Hpl. apply take_app_length. }
        split; [|split].
        -- constructor; [|done]. unfold located. cbn [m_full m_index m_group1].
           change (String a (of_chars (take n s)))
             with (of_chars (take (S n) (a :: s))).
           rewrite Htake, chars_of_chars, length_of_chars, Hpl, <- Hs, Htake.
           split; [done|]. split; [|split; [lia|done]].
           apply (f_equal List.length) in Hs. rewrite length_drop in Hs.
           apply (f_equal List.length) in Hpre. rewrite length_app in Hpre.
           lia.
        -- constructor; [simpl; lia|].
           eapply Forall_impl; [exact Hlo|]. intros mt Hmt. simpl in Hmt. lia.
        -- constructor; [done|].
           eapply Forall_impl; [exact Hlo|]. intros mt Hmt.
           unfold ends_before. cbn [m_full m_index].
           change (String a (of_chars (take n s)))
             with (of_chars (take (S n) (a :: s))).
           rewrite length_of_chars, Htake, Hpl. simpl in Hmt. lia.
      * apply IH in H as (Hloc & Hlo & Hsorted); [|done..].
        split; [done|]. split; [|done].
        eapply Forall_impl; [exact Hlo|]. intros mt Hmt. simpl in Hmt. lia.
    + apply IH in H as (Hloc & Hlo & Hsorted); [|done..].
      split; [done|]. split; [|done].
      eapply Forall_impl; [exact Hlo|]. intros mt Hmt. simpl in Hmt. lia.
Qed.

Lemma exec_all_located r text :
  Forall (located (chars text)) (exec_all r text) /\
  StronglySorted ends_before (exec_all r text).
Proof.
  unfold exec_all.
  destruct (exec_loop r None (chars text) 0 0) as [ms|] eqn:H;
    [|split; constructor].
  apply (exec_loop_located r (chars text)) in H as (? & _ & ?); [done|done|lia].
Qed.

Lemma candidate_fields mt i :
  candidate mt = Some i ->
  index i = m_index mt /\ fullMatch i = m_full mt /\
  ImportParser.length i = String.length (m_full mt) /\
  m_group1 mt = Some (path i).
Proof.
  unfold candidate. destruct (m_group1 mt) as [[|c p]|]; [done| |done].
  intros H. by inversion H.
Qed.

Lemma parse_candidates text languageId imports i :
  parse text languageId = Some imports -> i ∈ imports ->
  exists r mt, mt ∈ exec_all r text /\ candidate mt = Some i.
Proof.
  unfold parse. intros Hparse.
  assert (Hcases : imports = [] \/
            exists regexes, imports = _extractImports text regexes).
  { destruct (regexMap languageId) as [regexes|len| |].
    - destruct (List.length regexes =? 0)%nat; injection Hparse as <-; eauto.
    - destruct (len =? 0)%nat; [|done]. injection Hparse as <-. by left.
    - done.
    - injection Hparse as <-. by left. }
  destruct Hcases as [->|[regexes ->]]; [by intros ?%elem_of_nil|].
  rewrite _extractImports_spec. intros [Hi _]%first_per_pair_sub.
  apply list_elem_of_In, in_flat_map in Hi as (r & _ & Hi).
  apply list_elem_of_In in Hi. unfold candidates in Hi.
  apply list_elem_of_omap in Hi as (mt & Hmt & Hc). eauto.
Qed.

(** X1.  Every record [parse] returns points at its statement:
    [fullMatch] is the piece of the text that starts at offset [index]
    and is [length] characters long; it is not empty and it ends within
    the text. *)
Theorem parse_records_locate_statements text languageId imports :
  parse text languageId = Some imports ->
  Forall (fun i =>
            fullMatch i = substring (index i) (ImportParser.length i) text /\
            ImportParser.length i = String.length (fullMatch i) /\
            (0 < ImportParser.length i)%nat /\
            (index i + ImportParser.length i <= String.length text)%nat)
         imports.
Proof.
  intros Hparse. apply Forall_forall. intros i Hi.
  apply (parse_candidates _ _ _ _ Hparse) in Hi as (r & mt & Hmt & Hc).
  apply candidate_fields in Hc as (Hidx & Hfull & Hlen & _).
  destruct (exec_all_located r text) as [Hloc _].
  rewrite Forall_forall in Hloc. destruct (Hloc _ Hmt) as (Htake & Hle & Hpos & _).
  rewrite Hidx, Hfull, Hlen, substring_chars, <- Htake, of_chars_chars.
  rewrite length_chars in Hle. done.
Qed.

(** X2.  The path of every record [parse] returns is a piece
    of the statement matched: [fullMatch] is some text, the path, and
    some more text. *)
Theorem parse_path_within_statement text languageId imports :
  parse text languageId = Some imports ->
  Forall (fun i => exists before after,
            fullMatch i = before +:+ path i +:+ after)
         imports.
Proof.
  intros Hparse. apply Forall_forall. intros i Hi.
  apply (parse_candidates _ _ _ _ Hparse) in Hi as (r & mt & Hmt & Hc).
  apply candidate_fields in Hc as (_ & Hfull & _ & Hg).
  destruct (exec_all_located r text) as [Hloc _].
  rewrite Forall_forall in Hloc. destruct (Hloc _ Hmt) as (_ & _ & _ & Hcap).
  destruct (Hcap _ Hg) as (before & after & Heq).
  exists (of_chars before), (of_chars after).
  rewrite Hfull, <- (of_chars_chars (m_full mt)), Heq, !of_chars_app.
  by rewrite of_chars_chars.
Qed.

(** The statements one pattern finds do not overlap. *)
Lemma candidates_do_not_overlap text r :
  StronglySorted record_ends_before (candidates text r).
Proof.
  unfold candidates. destruct (exec_all_located r text) as [_ H].
  induction H as [|mt ms Hs IH Hall]; simpl; [constructor|].
  destruct (candidate mt) as [i|] eqn:Hi; [|done].
  constructor; [done|].
  apply Forall_forall. intros j Hj.
  apply list_elem_of_omap in Hj as (mt' & Hmt' & Hj).
  rewrite Forall_forall in Hall. specialize (Hall _ Hmt').
  apply candidate_fields in Hi as (Hi1 & _ & Hi2 & _).
  apply candidate_fields in Hj as (Hj & _).
  unfold record_ends_before, ends_before in *. by rewrite Hi1, Hi2, Hj.
Qed.

End SliceFacts.

Section OrderFacts.
Import JsString Regex ImportParser.

Lemma first_per_pair_sorted (R : ImportInfo -> ImportInfo -> Prop) seen l :
  StronglySorted R l -> StronglySorted R (first_per_pair seen l).
Proof.
  intros Hl. revert seen.
  induction Hl as [|i l Hl IH Hall]; intros seen; simpl; [constructor|].
  case_bool_decide; [apply IH|]. constructor; [apply IH|].
  apply Forall_forall. intros j [Hj _]%first_per_pair_sub.
  rewrite Forall_forall in Hall. by apply Hall.
Qed.

(** X3.  For a language with a single pattern the records of
    [parse] come in the order of the document and do not overlap: each
    statement ends before the next one starts. *)
Theorem parse_single_pattern_in_order text languageId r :
  regexMap languageId = Patterns [r] ->
  exists imports,
    parse text languageId = Some imports /\
    StronglySorted record_ends_before imports.
Proof.
  intros Hr. unfold parse. rewrite Hr. simpl. eexists. split; [done|].
  rewrite _extractImports_spec. simpl. rewrite app_nil_r.
  apply first_per_pair_sorted, candidates_do_not_overlap.
Qed.

End OrderFacts.

Lemma parse_records_locate_statements_witness :
  exists imports,
    ImportParser.parse require_then_import "javascript" = Some imports /\
    Forall (fun i =>
              ImportParser.fullMatch i =
                substring (ImportParser.index i) (ImportParser.length i)
                  require_then_import /\
              ImportParser.length i =
                String.length (ImportParser.fullMatch i) /\
              (0 < ImportParser.length i)%nat /\
              (ImportParser.index i + ImportParser.length i <=
               String.length require_then_import)%nat)
           imports.
Proof.
  eexists. split; [vm_compute; reflexivity|].
  apply (parse_records_locate_statements require_then_import "javascript").
  vm_compute. reflexivity.
Defined.

Lemma parse_path_within_statement_witness :
  exists imports,
    ImportParser.parse require_then_import "javascript" = Some imports /\
    Forall (fun i => exists before after,
              ImportParser.fullMatch i =
                before +:+ ImportParser.path i +:+ after)
           imports.
Proof.
  eexists. split; [vm_compute; reflexivity|].
  apply (parse_path_within_statement require_then_import "javascript").
  vm_compute. reflexivity.
Defined.

Lemma parse_single_pattern_in_order_witness :
  exists imports,
    ImportParser.parse "import java.util.List; import java.io.File;" "java" =
      Some imports /\
    StronglySorted record_ends_before imports.
Proof.
  by apply (parse_single_pattern_in_order _ "java"
              (ImportParser.upto_semicolon "import")).
Defined.

(** ** Maps in insertion order *)

Section MapFacts.
Context {V : Type}.
Implicit Types m : JsMap.t V.

Lemma JsMap_delete_cons m k k0 (v0 : V) :
  JsMap.delete ((k0, v0) :: m) k =
  if String.eqb k0 k then JsMap.delete m k else (k0, v0) :: JsMap.delete m k.
Proof.
  unfold JsMap.delete, JsMap.t. rewrite filter_cons. cbn [fst].
  by destruct (String.eqb k0 k).
Qed.

Lemma JsMap_get_delete m k k' :
  JsMap.get (JsMap.delete m k) k' =
  if String.eqb k k' then None else JsMap.get m k'.
Proof.
  induction m as [|[k0 v0] m IH].
  - simpl. by destruct (String.eqb k k').
  - rewrite JsMap_delete_cons. simpl.
    destruct (String.eqb k0 k) eqn:E0.
    + apply String.eqb_eq in E0 as ->. rewrite IH.
      by destruct (String.eqb k k').
    + simpl. rewrite IH.
      destruct (String.eqb k0 k') eqn:E1; [|done].
      apply String.eqb_eq in E1 as ->. by rewrite String.eqb_sym, E0.
Qed.

Lemma JsMap_get_set m k v k' :
  JsMap.get (JsMap.set m k v) k' =
  if String.eqb k k' then Some v else JsMap.get m k'.
Proof.
  induction m as [|[k0 v0] m IH]; simpl.
  - done.
  - destruct (String.eqb k0 k) eqn:E0; simpl.
    + apply String.eqb_eq in E0 as ->. by destruct (String.eqb k k').
    + rewrite IH. destruct (String.eqb k0 k') eqn:E1; [|done].
      apply String.eqb_eq in E1 as ->. by rewrite String.eqb_sym, E0.
Qed.

Lemma JsMap_set_fresh m k v :
  k ∉ map fst m -> JsMap.set m k v = m ++ [(k, v)].
Proof.
  induction m as [|[k0 v0] m IH]; simpl; [done|].
  intros Hk. apply not_elem_of_cons in Hk as [Hne Hk].
  destruct (String.eqb k0 k) eqn:E0.
  - apply String.eqb_eq in E0. congruence.
  - by rewrite IH.
Qed.

Lemma JsMap_delete_keys m k :
  map fst (JsMap.delete m k) = filter (fun k' => other_than k k') (map fst m).
Proof.
  induction m as [|[k0 v0] m IH]; [done|].
  rewrite JsMap_delete_cons. cbn [map fst]. rewrite filter_cons.
  destruct (String.eqb k0 k) eqn:E.
  - rewrite decide_False; [exact IH|]. unfold other_than. rewrite E. simpl. tauto.
  - rewrite decide_True; [simpl; by rewrite IH|]. unfold other_than. by rewrite E.
Qed.

Lemma JsMap_delete_absent m k : k ∉ map fst (JsMap.delete m k).
Proof.
  rewrite JsMap_delete_keys. intros [Hk _]%list_elem_of_filter.
  unfold other_than in Hk. by rewrite String.eqb_refl in Hk.
Qed.

(** [m.delete(key); m.set(key, v)] puts the entry last. *)
Lemma JsMap_delete_set m k v :
  JsMap.set (JsMap.delete m k) k v = JsMap.delete m k ++ [(k, v)].
Proof. apply JsMap_set_fresh, JsMap_delete_absent. Qed.


Lemma JsMap_get_has m k : JsMap.has m k = true <-> k ∈ map fst m.
Proof.
  unfold JsMap.has. induction m as [|[k0 v0] m IH]; simpl.
  - split; [done|by intros ?%elem_of_nil].
  - destruct (String.eqb k0 k) eqn:E0.
    + apply String.eqb_eq in E0 as ->. split; [intros _; left|done].
    + rewrite IH. apply String.eqb_neq in E0. set_solver.
Qed.


Lemma JsMap_delete_length m k :
  (List.length (JsMap.delete m k) <= List.length m)%nat.
Proof. unfold JsMap.delete. apply length_filter. Qed.

Lemma JsMap_delete_fresh m k : k ∉ map fst m -> JsMap.delete m k = m.
Proof.
  induction m as [|[k0 v0] m IH]; [done|].
  intros [Hne Hk]%not_elem_of_cons. rewrite JsMap_delete_cons.
  apply not_eq_sym, String.eqb_neq in Hne. cbn [fst] in Hne.
  rewrite Hne. f_equal. by apply IH.
Qed.

Lemma JsMap_delete_length_NoDup m k :
  NoDup (map fst m) -> k ∈ map fst m ->
  S (List.length (JsMap.delete m k)) = List.length m.
Proof.
  induction m as [|[k0 v0] m IH]; simpl; [by intros _ ?%elem_of_nil|].
  intros [Hk0 Hnd]%NoDup_cons Hk. rewrite JsMap_delete_cons.
  destruct (String.eqb k0 k) eqn:E0.
  - apply String.eqb_eq in E0 as ->. by rewrite JsMap_delete_fresh.
  - simpl. f_equal. apply IH; [done|].
    apply String.eqb_neq in E0. set_solver.
Qed.

End MapFacts.

(** ** The LRU cache *)

Section CacheFacts.
Context {V : Type}.
Implicit Types c : LRUCache.t V.

Lemma cache_keys_set c k v :
  cache_keys (LRUCache.set c k v) =
  filter (fun k' => other_than k k')
         (if (LRUCache.limit c <=? LRUCache.size c)%nat
          then tail (cache_keys c) else cache_keys c) ++ [k].
Proof.
  unfold cache_keys, LRUCache.set, LRUCache.size, JsMap.size. cbn [LRUCache.cache].
  rewrite JsMap_delete_set, map_app, JsMap_delete_keys. simpl. f_equal. f_equal.
  destruct (LRUCache.limit c <=? List.length (LRUCache.cache c))%nat; [|done].
  by destruct (LRUCache.cache c).
Qed.

Lemma cache_keys_get c k w :
  fst (LRUCache.get c k) = Some w ->
  cache_keys (snd (LRUCache.get c k)) =
  filter (fun k' => other_than k k') (cache_keys c) ++ [k].
Proof.
  unfold cache_keys, LRUCache.get.
  destruct (JsMap.get (LRUCache.cache c) k); [|done]. intros _.
  cbn [snd LRUCache.cache].
  by rewrite JsMap_delete_set, map_app, JsMap_delete_keys.
Qed.

(** X4.  A value written with [set] is what [get] returns
    for its key, and [has] finds the key, whatever the limit and the
    contents of the cache. *)
Theorem LRUCache_reads_what_was_set c k v :
  fst (LRUCache.get (LRUCache.set c k v) k) = Some v /\
  LRUCache.has (LRUCache.set c k v) k = true.
Proof.
  unfold LRUCache.get, LRUCache.has, JsMap.has, LRUCache.set.
  cbn [LRUCache.cache]. by rewrite JsMap_get_set, String.eqb_refl.
Qed.

(** X5.  The keys of the cache stay in the order of their last
    use.  [set] puts its key last, after dropping the oldest key when the
    cache is at its limit; a [get] that finds its key moves the key to
    the last place, and a [get] that misses leaves the cache as it is. *)
Theorem LRUCache_recency_order c k v :
  cache_keys (LRUCache.set c k v) =
    filter (fun k' => other_than k k')
           (if (LRUCache.limit c <=? LRUCache.size c)%nat
            then tail (cache_keys c) else cache_keys c) ++ [k] /\
  match fst (LRUCache.get c k) with
  | Some _ =>
      cache_keys (snd (LRUCache.get c k)) =
        filter (fun k' => other_than k k') (cache_keys c) ++ [k]
  | None => snd (LRUCache.get c k) = c
  end.
Proof.
  split; [apply cache_keys_set|].
  destruct (fst (LRUCache.get c k)) as [w|] eqn:Hg.
  - by apply cache_keys_get with w.
  - unfold LRUCache.get in *. by destruct (JsMap.get (LRUCache.cache c) k).
Qed.

Lemma NoDup_filter_snoc (l : list string) k :
  NoDup l -> NoDup (filter (fun k' => other_than k k') l ++ [k]).
Proof.
  intros Hl. apply NoDup_app. split; [by apply NoDup_filter|]. split.
  - intros x [Hx _]%list_elem_of_filter ->%list_elem_of_singleton.
    unfold other_than in Hx. by rewrite String.eqb_refl in Hx.
  - apply NoDup_singleton.
Qed.

Lemma NoDup_tail {A} (l : list A) : NoDup l -> NoDup (tail l).
Proof. destruct l; [done|]. by intros [_ ?]%NoDup_cons. Qed.

Lemma size_cache_keys c : LRUCache.size c = List.length (cache_keys c).
Proof. unfold LRUCache.size, JsMap.size, cache_keys. by rewrite length_map. Qed.

(** X6.  A cache with distinct keys and at most [limit]
    entries, for a limit of one or more, stays so under [set] and [get],
    and [get] does not change the number of entries. *)
Theorem LRUCache_stays_well_formed c k v :
  (0 < LRUCache.limit c)%nat -> well_formed c ->
  well_formed (LRUCache.set c k v) /\
  well_formed (snd (LRUCache.get c k)) /\
  LRUCache.size (snd (LRUCache.get c k)) = LRUCache.size c.
Proof.
  intros Hlim [Hnd Hsize]. split; [|].
  - split.
    + rewrite cache_keys_set. apply NoDup_filter_snoc.
      destruct (_ <=? _)%nat; [by apply NoDup_tail|done].
    + rewrite size_cache_keys, cache_keys_set, length_app. simpl.
      rewrite size_cache_keys in *. cbn [LRUCache.limit LRUCache.set].
      pose proof (length_filter (fun k' => other_than k k')
                    (if (LRUCache.limit c <=? List.length (cache_keys c))%nat
                     then tail (cache_keys c) else cache_keys c)) as Hf.
      destruct (LRUCache.limit c <=? List.length (cache_keys c))%nat eqn:E.
      * apply Nat.leb_le in E. destruct (cache_keys c); simpl in *; lia.
      * apply Nat.leb_gt in E. lia.
  - destruct (fst (LRUCache.get c k)) as [w|] eqn:Hg.
    + assert (Hk : k ∈ cache_keys c).
      { unfold LRUCache.get in Hg. apply JsMap_get_has. unfold JsMap.has.
        by destruct (JsMap.get (LRUCache.cache c) k). }
      assert (Hlen : LRUCache.size (snd (LRUCache.get c k)) = LRUCache.size c).
      { unfold LRUCache.get in *. unfold LRUCache.size, JsMap.size.
        destruct (JsMap.get (LRUCache.cache c) k); [|done].
        cbn [snd LRUCache.cache].
        rewrite JsMap_delete_set, length_app. simpl.
        rewrite Nat.add_1_r. by apply JsMap_delete_length_NoDup. }
      split; [|done]. split.
      * rewrite (cache_keys_get _ _ _ Hg). by apply NoDup_filter_snoc.
      * rewrite Hlen. unfold LRUCache.get.
        by destruct (JsMap.get (LRUCache.cache c) k).
    + unfold LRUCache.get in *.
      by destruct (JsMap.get (LRUCache.cache c) k).
Qed.

Lemma fst_get c k : fst (LRUCache.get c k) = JsMap.get (LRUCache.cache c) k.
Proof. unfold LRUCache.get. by destruct (JsMap.get (LRUCache.cache c) k). Qed.

Lemma cache_set c k v :
  LRUCache.cache (LRUCache.set c k v) =
  JsMap.delete (if (LRUCache.limit c <=? JsMap.size (LRUCache.cache c))%nat
                then tail (LRUCache.cache c) else LRUCache.cache c) k
  ++ [(k, v)].
Proof. unfold LRUCache.set. cbn [LRUCache.cache]. apply JsMap_delete_set. Qed.

Lemma cache_get c k v :
  JsMap.get (LRUCache.cache c) k = Some v ->
  LRUCache.cache (snd (LRUCache.get c k)) =
  JsMap.delete (LRUCache.cache c) k ++ [(k, v)].
Proof.
  intros H. unfold LRUCache.get. rewrite H. cbn [snd LRUCache.cache].
  apply JsMap_delete_set.
Qed.

Lemma limit_get c k : LRUCache.limit (snd (LRUCache.get c k)) = LRUCache.limit c.
Proof. unfold LRUCache.get. by destruct (JsMap.get (LRUCache.cache c) k). Qed.

Lemma JsMap_get_snoc (m : JsMap.t V) k v :
  k ∉ map fst m -> JsMap.get (m ++ [(k, v)]) k = Some v.
Proof.
  induction m as [|[k1 v1] m IH]; simpl; [by rewrite String.eqb_refl|].
  intros [Hk1 Hk]%not_elem_of_cons.
  apply not_eq_sym, String.eqb_neq in Hk1. rewrite Hk1. by apply IH.
Qed.

(** The newest entry of a cache of limit two or more survives a [set]
    of another key. *)
Lemma newest_survives limit (m : JsMap.t V) k v k' v' :
  (2 <= limit)%nat -> k' <> k -> k ∉ map fst m ->
  JsMap.get
    (JsMap.delete (if (limit <=? JsMap.size (m ++ [(k, v)]))%nat
                   then tail (m ++ [(k, v)]) else m ++ [(k, v)]) k'
     ++ [(k', v')]) k = Some v.
Proof.
  intros Hlim Hne Habs.
  rewrite <- JsMap_delete_set, JsMap_get_set.
  apply String.eqb_neq in Hne. rewrite Hne, JsMap_get_delete, Hne.
  unfold JsMap.size. rewrite length_app. simpl.
  destruct m as [|[k0 v0] rest].
  - simpl. replace (limit <=? 1)%nat with false
      by (symmetry; apply Nat.leb_gt; lia).
    simpl. by rewrite String.eqb_refl.
  - simpl in Habs. apply not_elem_of_cons in Habs as [Hk0 Habs].
    destruct (_ <=? _)%nat; simpl.
    + by apply JsMap_get_snoc.
    + apply not_eq_sym, String.eqb_neq in Hk0. rewrite Hk0.
      by apply JsMap_get_snoc.
Qed.

(** X7.  With a limit of two or more, the entry that was
    written or read last is still there after a [set] of another key. *)
Theorem LRUCache_recent_entry_survives c k v k' v' :
  (2 <= LRUCache.limit c)%nat -> k' <> k ->
  fst (LRUCache.get (LRUCache.set (LRUCache.set c k v) k' v') k) = Some v /\
  (fst (LRUCache.get c k) = Some v ->
   fst (LRUCache.get (LRUCache.set (snd (LRUCache.get c k)) k' v') k) = Some v).
Proof.
  intros Hlim Hne. split.
  - rewrite fst_get, cache_set, cache_set.
    apply newest_survives; [done|done|apply JsMap_delete_absent].
  - rewrite !fst_get. intros Hg.
    rewrite cache_set, limit_get, (cache_get _ _ _ Hg).
    apply newest_survives; [done|done|apply JsMap_delete_absent].
Qed.

End CacheFacts.

Lemma LRUCache_stays_well_formed_witness :
  well_formed (LRUCache.set small_cache "a" 3) /\
  well_formed (snd (LRUCache.get small_cache "a")) /\
  LRUCache.size (snd (LRUCache.get small_cache "a")) = LRUCache.size small_cache.
Proof.
  apply (LRUCache_stays_well_formed small_cache "a" 3).
  - unfold small_cache. simpl. lia.
  - split.
    + unfold cache_keys, small_cache. simpl.
      apply (bool_decide_unpack _). vm_compute. exact I.
    + unfold small_cache, LRUCache.size, JsMap.size. simpl. lia.
Defined.

Lemma LRUCache_recent_entry_survives_witness :
  fst (LRUCache.get (LRUCache.set (LRUCache.set small_cache "a" 1) "c" 3) "a")
    = Some 1 /\
  fst (LRUCache.get (LRUCache.set (snd (LRUCache.get small_cache "a")) "c" 3) "a")
    = Some 1.
Proof.
  destruct (LRUCache_recent_entry_survives small_cache "a" 1 "c" 3)
    as [Hwritten Hread]; [unfold small_cache; simpl; lia|done|].
  split; [exact Hwritten|]. apply Hread. reflexivity.
Defined.

(** ** The cache of parsed imports *)

Section CoherenceFacts.
Import JsString GraphAnalyzer.
Variable fs : Fs.t.










End CoherenceFacts.


(** ** Paths that end in a segment *)

Section PathFacts.
Import JsString.


End PathFacts.

Section EncapsulationFacts.
Import JsString RuleEngine.


End EncapsulationFacts.


Section SameFileFacts.
Import JsString GraphAnalyzer.

Lemma normal_extension_char c :
  extension_char c = true ->
  let c' := lower_char c in
  let c'' := if Ascii.eqb c' "\"%char then "/"%char else c' in
  negb (Ascii.eqb c'' dot || is_slash c'') = true.
Proof.
  destruct c as [[] [] [] [] [] [] [] []]; vm_compute; congruence.
Qed.

Lemma normal_extension ext :
  Forall (fun c => extension_char c = true) (chars ext) ->
  Forall (fun c => negb (Ascii.eqb c dot || is_slash c) = true)
         (chars (slashes (toLowerCase ext))).
Proof.
  induction ext as [|c ext IH]; simpl; [constructor|].
  intros Hc. inversion Hc as [|? ? H1 H2]; subst.
  constructor; [by apply normal_extension_char|by apply IH].
Qed.

Lemma strip_extension_dot stem ext :
  ext <> EmptyString ->
  Forall (fun c => negb (Ascii.eqb c dot || is_slash c) = true) (chars ext) ->
  strip_extension (stem +:+ "." +:+ ext) = stem.
Proof.
  intros Hne Hext. unfold strip_extension.
  rewrite !chars_app, !rev_app_distr. simpl. rewrite <- app_assoc. simpl.
  assert (Hrev : Forall (fun c => negb (Ascii.eqb c dot || is_slash c) = true)
                        (rev (chars ext))).
  { apply Forall_forall. intros c Hc. rewrite Forall_forall in Hext.
    apply Hext. apply list_elem_of_In. apply in_rev.
    by apply list_elem_of_In. }
  destruct (take_while_stop (fun c => negb (Ascii.eqb c dot || is_slash c))
              (rev (chars ext)) "."%char (rev (chars stem)) Hrev eq_refl)
    as [-> ->].
  destruct (rev (chars ext)) as [|y ys] eqn:Hr.
  { destruct ext; [done|]. apply (f_equal (@List.length _)) in Hr.
    rewrite length_rev in Hr. done. }
  simpl. rewrite rev_involutive. apply of_chars_chars.
Qed.

(** X10.  On the strings of the embedding, those of code units below
    256, where lower-casing works unit by unit, [_areSameFile]
    identifies with a file every path that extends the path of the file
    without its extension: the comparison is by prefix. *)
Theorem _areSameFile_accepts_longer_names stem more ext :
  ext <> EmptyString ->
  Forall (fun c => extension_char c = true) (chars ext) ->
  _areSameFile (stem +:+ more) (stem +:+ "." +:+ ext) = true.
Proof.
  intros Hne Hext. unfold _areSameFile.
  destruct (String.eqb _ _); [done|].
  rewrite !toLowerCase_app, !slashes_app.
  change (slashes (toLowerCase ".")) with ".".
  rewrite strip_extension_dot.
  - unfold startsWith. rewrite prefix_app. by rewrite orb_true_r.
  - by destruct ext.
  - by apply normal_extension.
Qed.

End SameFileFacts.

Lemma _areSameFile_accepts_longer_names_witness :
  GraphAnalyzer._areSameFile ("/p/user" +:+ "-profile") ("/p/user" +:+ "." +:+ "js")
    = true.
Proof.
  apply _areSameFile_accepts_longer_names; [done|]. simpl. repeat constructor.
Defined.

(** ** The depth of the search, and all the cycles *)

Section DepthFacts.
Import JsString DeepCycleDetector.
Variable g : gmap string (list string).

Lemma for_deps_true visit deps st st' :
  (forall d s s', visit d s = (false, s') -> cyclePath s' = cyclePath s) ->
  for_deps visit deps st = (true, st') ->
  exists d s, d ∈ deps /\ visit d s = (true, st') /\
              cyclePath s = cyclePath st.
Proof.
  intros Hvisit. revert st.
  induction deps as [|d deps IHd]; intros s Hs; simpl in Hs; [done|].
  destruct (visit d s) as [[] s1] eqn:Hd.
  - inversion Hs; subst s1. exists d, s. split; [left|done].
  - apply Hvisit in Hd. apply IHd in Hs as (d' & s' & Hin & Hv & Hp).
    exists d', s'. split; [by right|]. split; [done|congruence].
Qed.

(** A successful search at depth [depth] adds at most
    [MAX_DEPTH + 1 - depth] files to the path. *)
Lemma _dfs_path_bound fuel file st depth st' :
  _dfs g fuel file st depth = (true, st') ->
  (depth <= MAX_DEPTH)%nat /\
  (List.length (cyclePath st') + depth <=
   List.length (cyclePath st) + MAX_DEPTH + 1)%nat.
Proof.
  revert file st depth st'.
  induction fuel as [|fuel IH]; intros file st depth st' H; [done|].
  rewrite _dfs_unfold in H.
  destruct (MAX_DEPTH <? depth)%nat eqn:Hdepth; [done|].
  apply Nat.ltb_ge in Hdepth.
  case_bool_decide as Hstk.
  { inversion H; subst st'. simpl. rewrite length_app. simpl.
    unfold MAX_DEPTH in *. lia. }
  case_bool_decide as Hvis; [done|].
  destruct (for_deps _ _ _) as [[] s1] eqn:Hfor; [|done].
  inversion H; subst s1; clear H.
  apply for_deps_true in Hfor as (d & s & _ & Hd & Hp).
  2:{ intros d s s' Hd. by apply _dfs_false in Hd as [_ ?]. }
  apply IH in Hd as [Hd1 Hd2]. rewrite Hp in Hd2. simpl in Hd2.
  rewrite length_app in Hd2. simpl in Hd2. unfold MAX_DEPTH in *. lia.
Qed.

(** X11.  A cycle [detectDeepCycle] reports has a depth of
    at most [MAX_DEPTH] and at most [MAX_DEPTH + 1] files on its path. *)
Theorem detectDeepCycle_depth_bounded start r :
  detectDeepCycle g start = Some r ->
  (depth r <= MAX_DEPTH)%nat /\
  (List.length (cycle r) <= MAX_DEPTH + 1)%nat.
Proof.
  unfold detectDeepCycle.
  destruct (_dfs g (S MAX_DEPTH) start initial 0) as [found st] eqn:Hrun.
  destruct found; simpl; [|done].
  destruct (2 <? List.length (cyclePath st))%nat; [|done].
  intros [= <-]. simpl.
  apply _dfs_path_bound in Hrun as [_ Hrun]. simpl in Hrun.
  unfold MAX_DEPTH in *. lia.
Qed.

(** X12.  For a file that is not in the graph, or has
    no dependency recorded, [detectDeepCycle] returns [null]. *)
Theorem detectDeepCycle_without_dependencies start :
  default [] (g !! start) = [] -> detectDeepCycle g start = None.
Proof.
  intros Hdeps. unfold detectDeepCycle.
  rewrite _dfs_enter; [|unfold MAX_DEPTH; lia|set_solver..].
  by rewrite Hdeps.
Qed.

Lemma detectDeepCycle_starts start r :
  detectDeepCycle g start = Some r ->
  hasCycle r = true /\ exists rest, cycle r = start :: rest.
Proof.
  unfold detectDeepCycle.
  destruct (_dfs g (S MAX_DEPTH) start initial 0) as [found st] eqn:Hrun.
  destruct found; simpl; [|done].
  destruct (2 <? List.length (cyclePath st))%nat; [|done].
  intros [= <-]. simpl. split; [done|].
  apply _dfs_true in Hrun as (w & last & Hp & Hhd & _ & y & Hy & _).
  2:{ intros n Hn. simpl in Hn. by apply not_elem_of_empty in Hn. }
  simpl in Hp, Hy. destruct w as [|x w]; [by apply elem_of_nil in Hy|].
  simpl in Hhd. subst x. exists (w ++ [last]). by rewrite Hp.
Qed.

Lemma starts_uncovered_snoc seen l e :
  starts_uncovered seen l ->
  toLowerCase (start_of e) ∉ seen ->
  (forall e', e' ∈ l -> toLowerCase (start_of e) ∉ covered_by e') ->
  starts_uncovered seen (l ++ [e]).
Proof.
  revert seen. induction l as [|e0 l IH]; intros seen Hl He Hcov; simpl.
  - done.
  - destruct Hl as [H0 Hl]. split; [done|]. apply IH; [done| |].
    + rewrite elem_of_app. intros [?|?]; [|done]. eapply Hcov; [left|done].
    + intros e' He'. apply Hcov. by right.
Qed.

(** What the loop of [getAllCycles] keeps true. *)
Lemma all_cycles_fold keys acc seen :
  (forall x, x ∈ seen <-> exists e, e ∈ acc /\ x ∈ covered_by e) ->
  starts_uncovered [] acc ->
  let '(out, seen') := fold_left (all_cycles_step g) keys (acc, seen) in
  starts_uncovered [] out /\
  (List.length out <= List.length acc + List.length keys)%nat /\
  forall e, e ∈ out -> e ∈ acc \/
    exists r, start_of e ∈ keys /\ detectDeepCycle g (start_of e) = Some r /\
              entry_cycle e = cycle r /\ entry_depth e = depth r.
Proof.
  revert acc seen. induction keys as [|file keys IH]; intros acc seen Hseen Hacc.
  - simpl. split; [done|]. split; [lia|]. by left.
  - cbn [fold_left]. unfold all_cycles_step at 2.
    assert (Hskip :
      let '(out, seen') := fold_left (all_cycles_step g) keys (acc, seen) in
      starts_uncovered [] out /\
      (List.length out <= List.length acc + List.length (file :: keys))%nat /\
      forall e, e ∈ out -> e ∈ acc \/
        exists r, start_of e ∈ file :: keys /\
                  detectDeepCycle g (start_of e) = Some r /\
                  entry_cycle e = cycle r /\ entry_depth e = depth r).
    { specialize (IH acc seen Hseen Hacc).
      destruct (fold_left _ keys (acc, seen)) as [out seen'].
      destruct IH as (H1 & H2 & H3). split; [done|]. split; [simpl; lia|].
      intros e He. destruct (H3 e He) as [?|(r & ? & ?)]; [by left|].
      right. exists r. split; [by right|done]. }
    case_bool_decide as Hvis; [exact Hskip|].
    destruct (detectDeepCycle g file) as [r|] eqn:Hr; [|exact Hskip].
    destruct (detectDeepCycle_starts _ _ Hr) as [Hhas [rest Hrest]].
    rewrite Hhas.
    set (e := mkEntry (cycle r) (depth r)).
    assert (Hstart : start_of e = file).
    { unfold start_of, e. simpl. by rewrite Hrest. }
    specialize (IH (acc ++ [e]) (list_to_set (toLowerCase <$> cycle r) ∪ seen)).
    destruct (fold_left _ keys _) as [out seen'].
    destruct IH as (H1 & H2 & H3).
    + intros x. rewrite elem_of_union, elem_of_list_to_set, Hseen. split.
      * intros [Hx|(e' & He' & Hx)].
        -- exists e. split; [apply elem_of_app; right; left|done].
        -- exists e'. split; [apply elem_of_app; by left|done].
      * intros (e' & [He'|He']%elem_of_app & Hx).
        -- right. by exists e'.
        -- apply list_elem_of_singleton in He' as ->. by left.
    + apply starts_uncovered_snoc; [done|by apply not_elem_of_nil|].
      intros e' He' Hcov. apply Hvis, Hseen. exists e'.
      by rewrite Hstart in Hcov.
    + split; [done|]. rewrite length_app in H2. simpl in *. split; [lia|].
      intros e0 He0. destruct (H3 e0 He0) as [[?|He1]%elem_of_app|(r' & ? & ?)].
      * by left.
      * apply list_elem_of_singleton in He1 as ->. right. exists r.
        rewrite Hstart. split; [left|done].
      * right. exists r'. split; [by right|done].
Qed.

(** X13.  Every entry of [getAllCycles] is the cycle and
    the depth [detectDeepCycle] finds from one of the keys, which is the
    first file of the cycle; no entry starts at a file that an earlier
    entry covers, up to the case of letters; and there are at most as
    many entries as keys. *)
Theorem getAllCycles_reports_detected_cycles keys :
  Forall (fun e =>
            exists r, start_of e ∈ keys /\
                      detectDeepCycle g (start_of e) = Some r /\
                      entry_cycle e = cycle r /\ entry_depth e = depth r)
         (getAllCycles g keys) /\
  starts_uncovered [] (getAllCycles g keys) /\
  (List.length (getAllCycles g keys) <= List.length keys)%nat.
Proof.
  unfold getAllCycles.
  pose proof (all_cycles_fold keys [] ∅) as H.
  destruct (fold_left _ keys _) as [out seen'].
  destruct H as (H1 & H2 & H3).
  - intros x. split; [by intros ?%not_elem_of_empty|].
    by intros (e & ?%elem_of_nil & _).
  - done.
  - simpl. split; [|done]. apply Forall_forall. intros e He.
    by destruct (H3 e He) as [?%elem_of_nil|?].
Qed.

End DepthFacts.

Lemma detectDeepCycle_depth_bounded_witness :
  exists r, DeepCycleDetector.detectDeepCycle cycle3_graph "/p/a.js" = Some r /\
    (DeepCycleDetector.depth r <= DeepCycleDetector.MAX_DEPTH)%nat /\
    (List.length (DeepCycleDetector.cycle r)
     <= DeepCycleDetector.MAX_DEPTH + 1)%nat.
Proof.
  eexists. split; [vm_compute; reflexivity|].
  apply (detectDeepCycle_depth_bounded cycle3_graph "/p/a.js").
  vm_compute. reflexivity.
Defined.

Lemma detectDeepCycle_without_dependencies_witness :
  DeepCycleDetector.detectDeepCycle leaf_self_graph "/p/b.js" = None /\
  DeepCycleDetector.detectDeepCycle leaf_self_graph "/p/missing.js" = None.
Proof.
  split; apply detectDeepCycle_without_dependencies; reflexivity.
Defined.

(** ** Building the graph file by file *)

Section BuildFacts.
Import JsString DeepCycleDetector.
Variable fs : Fs.t.

Lemma find_exists (l : list string) r :
  List.find (Fs.existsSync fs) l = Some r -> Fs.existsSync fs r = true.
Proof. by intros [_ ?]%find_some. Qed.

Lemma _resolveImportPath_exists fromDir importPath resolved :
  _resolveImportPath fs fromDir importPath = Some resolved ->
  Fs.existsSync fs resolved = true.
Proof.
  unfold _resolveImportPath.
  destruct (List.find _ (map (fun ext => _ +:+ ext) extensions)) eqn:H1.
  - intros [= <-]. by apply find_exists in H1.
  - apply find_exists.
Qed.

Lemma resolve_imports_exist fileDir imports :
  Forall (fun dep => Fs.existsSync fs dep = true)
         (resolve_imports fs fileDir imports).
Proof.
  induction imports as [|imp rest IH]; simpl; [constructor|].
  destruct (startsWith _ _); [|done].
  destruct (_resolveImportPath _ _ _) eqn:Hr; [|done].
  constructor; [|done]. by apply _resolveImportPath_exists in Hr.
Qed.

Lemma fresh_entry_exist filePath imports mtime :
  fresh_entry fs filePath = Some (imports, mtime) ->
  Forall (fun dep => Fs.existsSync fs dep = true) imports.
Proof.
  unfold fresh_entry. destruct (negb _); [done|].
  destruct (Fs.statSync fs filePath); [|done].
  destruct (_ <? _)%Z; [done|].
  destruct (Fs.readFileSync fs filePath) as [content|]; [|done].
  destruct (ImportParser.parse content _); [|done].
  intros [= <- _]. apply resolve_imports_exist.
Qed.

Lemma record_of_other filePath other d :
  filePath <> other ->
  record_of filePath (_processFileForGraph fs other d) = record_of filePath d.
Proof.
  intros Hne. rewrite _processFileForGraph_fresh. unfold record_of.
  destruct (fresh_entry fs other) as [[imports mtime]|]; [|done].
  destruct (cache_valid _ _); [done|]. simpl.
  by rewrite !lookup_insert_ne.
Qed.

(** What processing a file does to its record depends on its record
    only. *)
Lemma record_of_same filePath d1 d2 :
  record_of filePath d1 = record_of filePath d2 ->
  record_of filePath (_processFileForGraph fs filePath d1) =
  record_of filePath (_processFileForGraph fs filePath d2).
Proof.
  unfold record_of. intros [= Hg Ht]. rewrite !_processFileForGraph_fresh.
  destruct (fresh_entry fs filePath) as [[imports mtime]|]; [|by rewrite Hg, Ht].
  rewrite Ht. destruct (cache_valid _ _); [by rewrite Hg, Ht|]. simpl.
  by rewrite !lookup_insert_eq.
Qed.

Lemma process_all_record filePath files d :
  record_of filePath (process_all fs files d) =
  record_of filePath
    (if bool_decide (filePath ∈ files)
     then _processFileForGraph fs filePath d else d).
Proof.
  revert d. induction files as [|x rest IH]; intros d; [done|].
  change (process_all fs (x :: rest) d)
    with (process_all fs rest (_processFileForGraph fs x d)).
  rewrite IH. destruct (decide (filePath = x)) as [->|Hne].
  - rewrite (bool_decide_eq_true_2 (x ∈ x :: rest)) by left.
    case_bool_decide; [|done].
    by rewrite (settled_fixed fs x _ (settled_after fs x d)).
  - case_bool_decide as Hin.
    + rewrite (bool_decide_eq_true_2 (filePath ∈ x :: rest)) by (by right).
      apply record_of_same. by apply record_of_other.
    + rewrite (bool_decide_eq_false_2 (filePath ∈ x :: rest)) by set_solver.
      by apply record_of_other.
Qed.

Lemma process_all_set_building b files d :
  process_all fs files (set_building b d) =
  set_building b (process_all fs files d).
Proof.
  revert d. induction files as [|x rest IH]; intros d; [done|].
  change (process_all fs (x :: rest) ?d)
    with (process_all fs rest (_processFileForGraph fs x d)).
  rewrite <- IH. f_equal. rewrite !_processFileForGraph_fresh.
  destruct (fresh_entry fs x) as [[imports mtime]|]; [|done]. simpl.
  by destruct (cache_valid _ _).
Qed.

Lemma buildGraph_record filePath files d :
  isBuilding d = false ->
  record_of filePath (fst (buildGraph fs files d)) =
  record_of filePath
    (if bool_decide (filePath ∈ take MAX_FILES_PER_CHECK files)
     then _processFileForGraph fs filePath d else d).
Proof.
  intros Hidle. unfold buildGraph. rewrite Hidle. cbn [fst].
  fold (process_all fs (take MAX_FILES_PER_CHECK files) (set_building true d)).
  rewrite process_all_set_building.
  change (record_of filePath (set_building false (set_building true ?d)))
    with (record_of filePath d).
  apply process_all_record.
Qed.

(** X14.  [buildGraph] treats every file on its own: the entry
    and the time stamp of a file afterwards are those a single
    [_processFileForGraph] of that file gives, when the file is among the
    first [MAX_FILES_PER_CHECK] listed, whatever the order and the
    repetitions of the list; the other entries are left as they are. *)
Theorem buildGraph_file_by_file filePath files d :
  isBuilding d = false ->
  let d' := fst (buildGraph fs files d) in
  let alone :=
    if bool_decide (filePath ∈ take MAX_FILES_PER_CHECK files)
    then _processFileForGraph fs filePath d else d in
  dependencyGraph d' !! filePath = dependencyGraph alone !! filePath /\
  fileTimestamps d' !! filePath = fileTimestamps alone !! filePath.
Proof.
  intros Hidle. cbv zeta.
  pose proof (buildGraph_record filePath files d Hidle) as H.
  unfold record_of in H. by inversion H.
Qed.

Lemma _processFileForGraph_edges_exist filePath d :
  edges_exist fs d -> edges_exist fs (_processFileForGraph fs filePath d).
Proof.
  intros Hd. rewrite _processFileForGraph_fresh.
  destruct (fresh_entry fs filePath) as [[imports mtime]|] eqn:Hf; [|done].
  destruct (cache_valid _ _); [done|].
  intros file deps. cbn [dependencyGraph].
  destruct (decide (file = filePath)) as [->|Hne].
  - rewrite lookup_insert_eq. intros [= <-]. by eapply fresh_entry_exist.
  - rewrite lookup_insert_ne by done. apply Hd.
Qed.

(** X15.  If every dependency recorded in the graph is a file
    that exists, this is so after [buildGraph] as well: an import that
    resolves to no file is not recorded. *)
Theorem buildGraph_edges_exist files d :
  edges_exist fs d -> edges_exist fs (fst (buildGraph fs files d)).
Proof.
  intros Hd. destruct (isBuilding d) eqn:Hb.
  { unfold buildGraph. by rewrite Hb. }
  intros file deps Hfile.
  pose proof (buildGraph_record file files d Hb) as H.
  unfold record_of in H. inversion H as [[Hg Ht]]. rewrite Hfile in Hg.
  case_bool_decide.
  - by apply (_processFileForGraph_edges_exist file d Hd file deps).
  - by apply (Hd file deps).
Qed.

End BuildFacts.

Lemma buildGraph_file_by_file_witness :
  let d' := fst (DeepCycleDetector.buildGraph cyclic_fs
                   ["/p/a.js"; "/p/b.js"] new_detector) in
  let alone := DeepCycleDetector._processFileForGraph cyclic_fs "/p/b.js"
                 new_detector in
  DeepCycleDetector.dependencyGraph d' !! "/p/b.js" =
    DeepCycleDetector.dependencyGraph alone !! "/p/b.js" /\
  DeepCycleDetector.fileTimestamps d' !! "/p/b.js" =
    DeepCycleDetector.fileTimestamps alone !! "/p/b.js".
Proof.
  exact (buildGraph_file_by_file cyclic_fs "/p/b.js" ["/p/a.js"; "/p/b.js"]
           new_detector eq_refl).
Defined.

Lemma buildGraph_edges_exist_witness :
  Forall (fun dep => Fs.existsSync cyclic_fs dep = true) ["/p/b.js"].
Proof.
  apply (buildGraph_edges_exist cyclic_fs ["/p/a.js"; "/p/b.js"] new_detector)
    with (file := "/p/a.js").
  - intros file deps H. unfold new_detector in H. simpl in H.
    by rewrite lookup_empty in H.
  - vm_compute. reflexivity.
Defined.

(** ** More on rules and layers *)

Section RuleFacts.
Import JsString RuleEngine.
Variable minimatch : string -> string -> bool -> bool.

Lemma slashes_idem s : slashes (slashes s) = slashes s.
Proof.
  induction s as [|c s IH]; simpl; [done|]. rewrite IH. f_equal.
  destruct (Ascii.eqb c "\"%char) eqn:E; [done|]. by rewrite E.
Qed.

(** [validate] gives the same verdict for paths
    written with backslashes and for the same paths written with
    slashes. *)
Theorem validate_ignores_separator_style src target rules layers :
  validate minimatch src target rules layers =
  validate minimatch (slashes src) (slashes target) rules layers.
Proof. unfold validate, _normalizePath. by rewrite !slashes_idem. Qed.

(** X17.  The rules are tried in order and the first
    violation is the answer: for a list of rules followed by more rules,
    a violation of the first list is reported, and the rules that follow
    are consulted only when there is none. *)
Theorem _checkRuleViolations_first_match src target rules more :
  _checkRuleViolations minimatch src target (rules ++ more) =
  match _checkRuleViolations minimatch src target rules with
  | Some v => Some v
  | None => _checkRuleViolations minimatch src target more
  end.
Proof.
  induction rules as [|rule rules IH]; simpl; [done|].
  destruct (minimatch src (source rule) true); [|done].
  destruct (disallow rule) as [patterns|]; [|done].
  by destruct (List.find _ patterns).
Qed.

(** X18.  Without explicit rules a layer violation goes one
    way: when an import is reported, the import in the other direction
    is not, and neither is an import of a file by itself. *)
Theorem validate_layers_one_way src target layers v :
  validate minimatch src target [] layers = Some v ->
  validate minimatch target src [] layers = None /\
  validate minimatch src src [] layers = None /\
  validate minimatch target target [] layers = None.
Proof.
  unfold validate. cbn [_checkRuleViolations].
  set (s := _normalizePath src). set (t := _normalizePath target).
  destruct (_checkLayerViolations minimatch s t layers) as [v'|] eqn:H; [|done].
  intros _. apply _checkLayerViolations_spec in H
    as (ls & i & j & -> & Hi & Hj & Hlt & _).
  assert (Hnone : forall a b ia ib,
    first_layer minimatch ls a ia -> first_layer minimatch ls b ib ->
    (ib <= ia)%nat ->
    _checkLayerViolations minimatch a b (Some ls) = None).
  { intros a b ia ib Ha Hb Hle.
    destruct (_checkLayerViolations minimatch a b (Some ls)) as [w|] eqn:Hw;
      [|done].
    apply _checkLayerViolations_spec in Hw
      as (ls' & i' & j' & [= <-] & Hi' & Hj' & Hlt' & _).
    rewrite (first_layer_unique _ _ _ _ _ Ha Hi') in Hle.
    rewrite (first_layer_unique _ _ _ _ _ Hb Hj') in Hle. exfalso. lia. }
  rewrite (Hnone t s j i Hj Hi), (Hnone s s i i Hi Hi), (Hnone t t j j Hj Hj);
    [done|lia..].
Qed.

End RuleFacts.

Lemma validate_layers_one_way_witness :
  RuleEngine.validate plain_glob "src/ui/page.js" "src/domain/user.js" []
    (Some glob_layers) = None /\
  RuleEngine.validate plain_glob "src/domain/user.js" "src/domain/user.js" []
    (Some glob_layers) = None /\
  RuleEngine.validate plain_glob "src/ui/page.js" "src/ui/page.js" []
    (Some glob_layers) = None.
Proof.
  eapply (validate_layers_one_way plain_glob "src/domain/user.js"
            "src/ui/page.js" (Some glob_layers)).
  vm_compute. reflexivity.
Defined.

(** ** The semantic advisor *)

Section AdvisorFacts.
Import JsString SmartAdvisor.
Variable Localization_get : string -> list string -> string.

Lemma classify_cases p : classify p ∈ concept_names.
Proof.
  unfold classify.
  destruct (List.find _ CONCEPTS) as [[concept keywords]|] eqn:H.
  - apply find_some in H as [H _]. unfold CONCEPTS in H.
    unfold concept_names.
    repeat (destruct H as [H|H]; [inversion H; subst; set_solver|]).
    done.
  - unfold concept_names. set_solver.
Qed.

(** X19.  [analyze] flags an import exactly when the
    concepts of the two paths form one of the seven flows that
    [ALLOWED_FLOW] leaves out; the result then carries the confidence of
    [_calculateConfidence] and the localized message for the two
    concepts.  In particular a path of unknown concept is never
    flagged. *)
Theorem analyze_flags_the_flows_left_out sourcePath importPath :
  analyze Localization_get sourcePath importPath =
  if bool_decide ((classify sourcePath, classify importPath) ∈ suspicious_flows)
  then Some (mkAnalysis true
               (_calculateConfidence sourcePath importPath
                  (classify sourcePath) (classify importPath))
               (Localization_get "aiSuspicious"
                  [classify sourcePath; classify importPath]))
  else None.
Proof.
  unfold analyze.
  pose proof (classify_cases sourcePath) as Hs.
  pose proof (classify_cases importPath) as Ht.
  unfold concept_names in *.
  repeat (apply elem_of_cons in Hs as [Hs|Hs]);
    [..|by apply elem_of_nil in Hs];
    repeat (apply elem_of_cons in Ht as [Ht|Ht]);
    try (by apply elem_of_nil in Ht);
    rewrite Hs, Ht; reflexivity.
Qed.

(** X20.  The confidence is 70, 75, 80 or 95, hence within 0
    and 100, and it is 95 exactly for the three severe flows. *)
Theorem _calculateConfidence_values source target sourceConcept targetConcept :
  let c := _calculateConfidence source target sourceConcept targetConcept in
  c ∈ [70; 75; 80; 95]%nat /\
  (c = 95%nat <-> (sourceConcept, targetConcept) ∈ severeViolations).
Proof.
  cbv zeta. unfold _calculateConfidence.
  destruct (existsb _ severeViolations) eqn:Hsev.
  - split; [set_solver|]. split; [intros _|done].
    apply existsb_exists in Hsev as ([a b] & Hin & Heq).
    simpl in Heq.
    apply andb_true_iff in Heq as [<-%String.eqb_eq <-%String.eqb_eq].
    by apply list_elem_of_In.
  - assert (Hnot : (sourceConcept, targetConcept) ∉ severeViolations).
    { intros Hin%list_elem_of_In. apply not_true_iff_false in Hsev.
      apply Hsev, existsb_exists. exists (sourceConcept, targetConcept).
      split; [done|]. simpl. by rewrite !String.eqb_refl. }
    destruct (existsb _ (default [] (JsMap.get CONCEPTS sourceConcept)));
      destruct (existsb _ (default [] (JsMap.get CONCEPTS targetConcept)));
      simpl; (split; [set_solver|]); split; (done || lia).
Qed.

Lemma split_chars_sep is_sep a c b piece :
  is_sep c = true ->
  split_chars is_sep (a ++ c :: b) piece =
  split_chars is_sep a piece ++ split_chars is_sep b [].
Proof.
  intros Hc. revert piece. induction a as [|x a IH]; intros piece; simpl.
  - by rewrite Hc.
  - destruct (is_sep x); simpl; by rewrite IH.
Qed.

Lemma slice_last_app {A} n (l1 l2 : list A) :
  (n <= List.length l2)%nat -> slice_last n (l1 ++ l2) = slice_last n l2.
Proof.
  intros Hn. unfold slice_last. rewrite length_app.
  replace (List.length l1 + List.length l2 - n)%nat
    with (List.length l1 + (List.length l2 - n))%nat by lia.
  by rewrite drop_app_add.
Qed.

(** X21.  [classify] reads the last three segments of a
    path only: the directories in front of a path of three or more
    segments do not change its concept. *)
Theorem classify_reads_last_three_segments dir p :
  (3 <= List.length (split is_slash (slashes (toLowerCase p))))%nat ->
  classify (dir +:+ "/" +:+ p) = classify p.
Proof.
  intros Hp. unfold classify.
  replace (slice_last 3 (split is_slash (slashes (toLowerCase (dir +:+ "/" +:+ p)))))
    with (slice_last 3 (split is_slash (slashes (toLowerCase p)))); [done|].
  rewrite !toLowerCase_app, !slashes_app. unfold split.
  rewrite chars_app.
  change (chars (slashes (toLowerCase "/") +:+ slashes (toLowerCase p)))
    with ("/"%char :: chars (slashes (toLowerCase p))).
  rewrite split_chars_sep by done. by rewrite slice_last_app.
Qed.

End AdvisorFacts.

Lemma classify_reads_last_three_segments_witness :
  SmartAdvisor.classify ("/home/views" +:+ "/" +:+ "src/data/models/user.ts") =
  SmartAdvisor.classify "src/data/models/user.ts".
Proof.
  apply classify_reads_last_three_segments. vm_compute. lia.
Defined.

(** ** Tokens and term vectors *)

Section TokenFacts.
Import JsString AIKernel.

Lemma split_chars_pieces is_sep l piece :
  Forall (fun c => is_sep c = false) piece ->
  Forall (fun t => Forall (fun c => is_sep c = false) (chars t))
         (split_chars is_sep l piece).
Proof.
  revert piece. induction l as [|c l IH]; intros piece Hp; simpl.
  - constructor; [|constructor].
    unfold chars, of_chars. rewrite list_ascii_of_string_of_list_ascii.
    apply Forall_forall. intros x Hx%list_elem_of_In%in_rev%list_elem_of_In.
    rewrite Forall_forall in Hp. by apply Hp.
  - destruct (is_sep c) eqn:Hc.
    + constructor; [|by apply IH].
      unfold chars, of_chars. rewrite list_ascii_of_string_of_list_ascii.
      apply Forall_forall. intros x Hx%list_elem_of_In%in_rev%list_elem_of_In.
      rewrite Forall_forall in Hp. by apply Hp.
    + apply IH. by constructor.
Qed.

(** X22.  Every token [_tokenize] returns is longer than
    [MIN_TOKEN_LENGTH], consists of letters, digits and underscores, and
    is not a stop word, whatever the case of its letters. *)
Theorem _tokenize_keeps_long_words content :
  Forall (fun token =>
            (MIN_TOKEN_LENGTH < String.length token)%nat /\
            Forall (fun c => Regex.is_word c = true) (chars token) /\
            toLowerCase token ∉ STOP_WORDS)
         (_tokenize content).
Proof.
  apply Forall_forall. intros token Ht. unfold _tokenize in Ht.
  apply list_elem_of_filter in Ht as [Hkeep Hin].
  apply andb_true_iff in Hkeep as [Hlen Hstop].
  apply Nat.ltb_lt in Hlen. split; [done|]. split.
  - pose proof (split_chars_pieces (fun c => negb (Regex.is_word c))
                  (chars content) [] (Forall_nil_2 _)) as Hp.
    rewrite Forall_forall in Hp. specialize (Hp _ Hin).
    eapply Forall_impl; [exact Hp|]. intros c Hc. simpl in Hc.
    by apply negb_false_iff in Hc.
  - intros Hs. apply negb_true_iff, not_true_iff_false in Hstop.
    apply Hstop, existsb_exists. exists (toLowerCase token).
    split; [by apply list_elem_of_In|apply String.eqb_refl].
Qed.

Lemma JsMap_set_keys {V} (m : JsMap.t V) k v :
  map fst (JsMap.set m k v) =
  if JsMap.has m k then map fst m else map fst m ++ [k].
Proof.
  unfold JsMap.has. induction m as [|[k0 v0] m IH]; simpl; [done|].
  destruct (String.eqb k0 k) eqn:E; simpl; [done|]. rewrite IH.
  by destruct (JsMap.get m k).
Qed.

Lemma JsMap_set_NoDup {V} (m : JsMap.t V) k v :
  NoDup (map fst m) -> NoDup (map fst (JsMap.set m k v)).
Proof.
  intros Hm. rewrite JsMap_set_keys.
  destruct (JsMap.has m k) eqn:Hk; [done|].
  apply NoDup_app. split; [done|]. split; [|apply NoDup_singleton].
  intros x Hx ->%list_elem_of_singleton.
  apply JsMap_get_has in Hx. congruence.
Qed.

Lemma occurrences_cons token t tokens :
  occurrences token (t :: tokens) =
  ((if String.eqb t token then 1 else 0) + occurrences token tokens)%nat.
Proof.
  unfold occurrences. rewrite filter_cons.
  destruct (String.eqb t token) eqn:E.
  - apply String.eqb_eq in E. by rewrite decide_True.
  - apply String.eqb_neq in E. by rewrite decide_False.
Qed.

Lemma vectorize_fold tokens (vector : JsMap.t N) token :
  let out := fold_left (fun vector token =>
                          JsMap.set vector token
                            (default 0%N (JsMap.get vector token) + 1)%N)
                       tokens vector in
  default 0%N (JsMap.get out token) =
    (default 0%N (JsMap.get vector token) + N.of_nat (occurrences token tokens))%N /\
  (NoDup (map fst vector) -> NoDup (map fst out)) /\
  (JsMap.has out token = true <->
   JsMap.has vector token = true \/ token ∈ tokens).
Proof.
  cbv zeta. revert vector.
  induction tokens as [|t tokens IH]; intros vector.
  - simpl. split; [unfold occurrences; simpl; lia|]. split; [done|].
    split; [by left|]. by intros [?|?%elem_of_nil].
  - cbn [fold_left].
    destruct (IH (JsMap.set vector t (default 0%N (JsMap.get vector t) + 1)%N))
      as (H1 & H2 & H3).
    split; [|split].
    + rewrite H1, JsMap_get_set, occurrences_cons.
      destruct (String.eqb t token) eqn:E.
      * apply String.eqb_eq in E as ->. simpl. lia.
      * simpl. lia.
    + intros Hnd. by apply H2, JsMap_set_NoDup.
    + rewrite H3. unfold JsMap.has at 1. rewrite JsMap_get_set.
      destruct (String.eqb t token) eqn:E.
      * apply String.eqb_eq in E as ->. split; [intros _; right; left|by left].
      * apply String.eqb_neq in E. unfold JsMap.has. set_solver.
Qed.

(** X23.  The vector of a list of tokens maps every token of
    the list to the number of its occurrences and no other token, and its
    keys are distinct. *)
Theorem _vectorize_counts_occurrences tokens token :
  JsMap.get (_vectorize tokens) token =
    (if bool_decide (token ∈ tokens)
     then Some (N.of_nat (occurrences token tokens)) else None) /\
  NoDup (map fst (_vectorize tokens)).
Proof.
  unfold _vectorize.
  destruct (vectorize_fold tokens [] token) as (H1 & H2 & H3).
  split; [|apply H2; constructor].
  simpl in H1. unfold JsMap.has in H3.
  case_bool_decide as Hin.
  - destruct (JsMap.get _ token) as [n|] eqn:Hg.
    + simpl in H1. by rewrite H1.
    + assert (false = true) by (apply H3; by right). done.
  - destruct (JsMap.get _ token) as [n|] eqn:Hg; [|done].
    destruct H3 as [H3 _]. by destruct H3.
Qed.

End TokenFacts.

(** ** Learning *)

Section LearnFacts.
Import JsString AIKernel.
Variable fs : Fs.t.

Lemma _processFile_read file k :
  _processFile fs file k =
  match Fs.readFileSync fs file with
  | Some content =>
      mkKernel (JsMap.set (vectors k) file (_vectorize (_tokenize content)))
               (importCounts k ++ [_countImports content])
               (statsModel k) (isLearning k)
  | None => k
  end.
Proof.
  unfold _processFile, Fs.existsSync, Fs.readFileSync.
  destruct (Fs.nodes fs !! file) as [node|] eqn:Hn; simpl; [|done].
  by destruct (Fs.data node).
Qed.

Lemma length_omap_le {A B} (f : A -> option B) l :
  (List.length (omap f l) <= List.length l)%nat.
Proof.
  induction l as [|x l IH]; [done|].
  change (omap f (x :: l))
    with (match f x with Some y => y :: omap f l | None => omap f l end).
  destruct (f x); simpl; lia.
Qed.

(** The fields the loop of [learn] leaves behind. *)
Lemma learn_loop files k :
  let k' := fold_left (fun k file => _processFile fs file k) files k in
  (forall file,
     JsMap.get (vectors k') file =
     if bool_decide (file ∈ files)
     then match learned_vector fs file with
          | Some v => Some v
          | None => JsMap.get (vectors k) file
          end
     else JsMap.get (vectors k) file) /\
  importCounts k' = importCounts k ++ omap (learned_count fs) files /\
  (NoDup (map fst (vectors k)) -> NoDup (map fst (vectors k'))) /\
  (JsMap.size (vectors k') + List.length (importCounts k)
   <= JsMap.size (vectors k) + List.length (importCounts k'))%nat /\
  statsModel k' = statsModel k /\ isLearning k' = isLearning k.
Proof.
  cbv zeta. revert k. induction files as [|x files IH]; intros k.
  - simpl. rewrite app_nil_r. repeat split; (done || lia).
  - cbn [fold_left]. destruct (IH (_processFile fs x k))
      as (H1 & H2 & H3 & H4 & H5 & H6).
    rewrite _processFile_read in *.
    assert (Homap : omap (learned_count fs) (x :: files) =
                    match learned_count fs x with
                    | Some c => c :: omap (learned_count fs) files
                    | None => omap (learned_count fs) files
                    end) by done.
    rewrite Homap. clear Homap.
    unfold learned_vector, learned_count in *.
    destruct (Fs.readFileSync fs x) as [content|] eqn:Hread;
      cbn [vectors importCounts statsModel isLearning fmap option_fmap option_map] in *.
    + split; [|split; [|split; [|split]]].
      * intros file. rewrite H1, JsMap_get_set.
        destruct (decide (file = x)) as [->|Hne].
        -- rewrite String.eqb_refl, Hread.
           rewrite (bool_decide_eq_true_2 (x ∈ x :: files)) by left.
           simpl. by case_bool_decide.
        -- apply not_eq_sym in Hne as Hne'. apply String.eqb_neq in Hne'.
           rewrite Hne'.
           case_bool_decide as Hin.
           ++ by rewrite (bool_decide_eq_true_2 (file ∈ x :: files))
                by (by right).
           ++ by rewrite (bool_decide_eq_false_2 (file ∈ x :: files))
                by set_solver.
      * by rewrite H2, <- app_assoc.
      * intros Hnd. by apply H3, JsMap_set_NoDup.
      * rewrite length_app in H4. simpl in H4.
        assert (JsMap.size (JsMap.set (vectors k) x
                  (_vectorize (_tokenize content)))
                <= S (JsMap.size (vectors k)))%nat; [|lia].
        unfold JsMap.size. rewrite <- !(length_map fst), JsMap_set_keys.
        destruct (JsMap.has _ _); [lia|]. rewrite length_app. simpl. lia.
      * done.
    + split; [|done].
      intros file. rewrite H1.
      destruct (decide (file = x)) as [->|Hne].
      * rewrite (bool_decide_eq_true_2 (x ∈ x :: files)) by left.
        rewrite Hread. simpl. by case_bool_decide.
      * case_bool_decide as Hin.
        -- by rewrite (bool_decide_eq_true_2 (file ∈ x :: files))
             by (by right).
        -- by rewrite (bool_decide_eq_false_2 (file ∈ x :: files))
             by set_solver.
Qed.

(** X24.  After [learn] the kernel holds, for each of the
    first [MAX_FILES] files that can be read, the vector of its tokens,
    and nothing else; the import counts are those of these files in the
    order of the list; there are at most as many vectors as counts, at
    most [MAX_FILES] counts, and [hasLearned] holds. *)
Theorem learn_records_each_readable_file filePaths k :
  isLearning k = false ->
  let k' := fst (learn fs filePaths k) in
  let targetFiles := take MAX_FILES filePaths in
  (forall file,
     JsMap.get (vectors k') file =
     if bool_decide (file ∈ targetFiles) then learned_vector fs file
     else None) /\
  importCounts k' = omap (learned_count fs) targetFiles /\
  NoDup (map fst (vectors k')) /\
  (getLearnedFileCount k' <= List.length (importCounts k'))%nat /\
  (List.length (importCounts k') <= MAX_FILES)%nat /\
  hasLearned k' = true.
Proof.
  intros Hidle. cbv zeta. unfold learn. rewrite Hidle. cbn [fst].
  destruct (learn_loop (take MAX_FILES filePaths)
              (mkKernel [] [] (statsModel k) true))
    as (H1 & H2 & H3 & H4 & _).
  cbn [vectors importCounts hasLearned statsModel getLearnedFileCount] in *.
  split; [|split; [|split; [|split; [|split]]]].
  - intros file. rewrite H1. case_bool_decide; [|done].
    by destruct (learned_vector fs file).
  - done.
  - apply H3. constructor.
  - unfold JsMap.size in *. simpl in H4. rewrite Nat.add_0_r in H4. exact H4.
  - rewrite H2. simpl.
    pose proof (length_omap_le (learned_count fs) (take MAX_FILES filePaths))
      as Hl.
    rewrite length_take in Hl. lia.
  - done.
Qed.

(** X25.  [learn] starts afresh: what the kernel holds
    afterwards does not depend on what it had learned before. *)
Theorem learn_forgets_previous_model filePaths k1 k2 :
  isLearning k1 = false -> isLearning k2 = false ->
  fst (learn fs filePaths k1) = fst (learn fs filePaths k2).
Proof.
  intros H1 H2. unfold learn. rewrite H1, H2. cbn [fst].
  assert (Hsame : forall files ka kb,
    vectors ka = vectors kb -> importCounts ka = importCounts kb ->
    vectors (fold_left (fun k file => _processFile fs file k) files ka) =
    vectors (fold_left (fun k file => _processFile fs file k) files kb) /\
    importCounts (fold_left (fun k file => _processFile fs file k) files ka) =
    importCounts (fold_left (fun k file => _processFile fs file k) files kb)).
  { induction files as [|x files IH]; intros ka kb Hv Hc; [done|].
    cbn [fold_left]. apply IH; rewrite !_processFile_read;
      destruct (Fs.readFileSync fs x); simpl; congruence. }
  destruct (Hsame (take MAX_FILES filePaths)
              (mkKernel [] [] (statsModel k1) true)
              (mkKernel [] [] (statsModel k2) true) eq_refl eq_refl)
    as [-> ->].
  done.
Qed.

End LearnFacts.

Lemma learn_records_each_readable_file_witness :
  let k' := fst (AIKernel.learn two_file_fs ["/p/a.js"; "/p/b.js"] idle_kernel) in
  (forall file,
     JsMap.get (AIKernel.vectors k') file =
     if bool_decide (file ∈ take AIKernel.MAX_FILES ["/p/a.js"; "/p/b.js"])
     then learned_vector two_file_fs file else None) /\
  AIKernel.importCounts k' =
    omap (learned_count two_file_fs) (take AIKernel.MAX_FILES ["/p/a.js"; "/p/b.js"]) /\
  NoDup (map fst (AIKernel.vectors k')) /\
  (AIKernel.getLearnedFileCount k' <= List.length (AIKernel.importCounts k'))%nat /\
  (List.length (AIKernel.importCounts k') <= AIKernel.MAX_FILES)%nat /\
  AIKernel.hasLearned k' = true.
Proof.
  exact (learn_records_each_readable_file two_file_fs ["/p/a.js"; "/p/b.js"]
           idle_kernel eq_refl).
Defined.

Lemma learn_forgets_previous_model_witness :
  fst (AIKernel.learn two_file_fs ["/p/a.js"]
         (fst (AIKernel.learn two_file_fs ["/p/b.js"] idle_kernel))) =
  fst (AIKernel.learn two_file_fs ["/p/a.js"] idle_kernel).
Proof.
  apply learn_forgets_previous_model; reflexivity.
Defined.

(** ** Signs of binary64 values *)

Section SignFacts.
Local Open Scope Z_scope.

Lemma binary_round_aux_negative m e l :
  ~ above_zero (binary_round_aux prec emax true m e l).
Proof.
  unfold binary_round_aux.
  destruct (shr_fexp prec emax m e l) as [mrs' e'].
  destruct (shr_fexp prec emax _ e' loc_Exact) as [mrs'' e''].
  destruct (shr_m mrs''); [simpl; tauto| |simpl; tauto].
  destruct (e'' <=? emax - prec); simpl; tauto.
Qed.

Lemma binary_round_negative p e : ~ above_zero (binary_round prec emax true p e).
Proof.
  unfold binary_round. destruct (shl_align _ _ _) as [mz ez].
  apply binary_round_aux_negative.
Qed.

(** A finite value is in canonical form. *)
Lemma valid_canonical x s m e :
  Prim2SF x = S754_finite s m e ->
  e = Z.max (Z.log2 (Zpos m) + 1 + e - 53) (-1074).
Proof.
  intros Hx. pose proof (Prim2SF_valid x) as Hv. rewrite Hx in Hv.
  unfold SpecFloat.valid_binary, bounded, canonical_mantissa in Hv.
  apply andb_prop in Hv as [Hc Hb].
  apply Z.eqb_eq in Hc. rewrite fexp_64, digits2_pos_log2 in Hc. lia.
Qed.

Lemma log2_bounds p : 2 ^ Z.log2 (Zpos p) <= Zpos p < 2 ^ (Z.log2 (Zpos p) + 1).
Proof.
  pose proof (Z.log2_spec (Zpos p) ltac:(lia)) as H.
  by rewrite <- Z.add_1_r in H.
Qed.

(** A quotient above zero with a divisor above zero has a dividend
    above zero. *)
Lemma div_above_zero x y :
  above_zero y -> above_zero (SFdiv prec emax x y) -> above_zero x.
Proof.
  destruct y as [sy|[]| |[] my ey]; try done; intros _;
    destruct x as [sx|[]| |[] mx ex]; try done; simpl.
  destruct (SFdiv_core_binary _ _ _ _ _ _) as [[mz ez] lz].
  apply binary_round_aux_negative.
Qed.

(** A difference above zero: the value subtracted is the smaller one. *)
Lemma sub_above_zero x y :
  count_like (Prim2SF x) ->
  above_zero (SFsub prec emax (Prim2SF x) (Prim2SF y)) ->
  SFcompare (Prim2SF y) (Prim2SF x) = Some Lt.
Proof.
  intros Hx.
  destruct Hx as [Hx|(mx & ex & Hx & _)]; rewrite Hx.
  { destruct (Prim2SF y) as [sy|[]| |[] my ey]; try done. by destruct sy. }
  pose proof (valid_canonical _ _ _ _ Hx) as Hcx.
  destruct (Prim2SF y) as [sy|[]| |sy my ey] eqn:Hy; try done.
  pose proof (valid_canonical _ _ _ _ Hy) as Hcy.
  cbn [SFsub]. change (IntDef.Z.min ex ey) with (Z.min ex ey).
  destruct (shl_align_spec mx ex (Z.min ex ey))
    as (mx' & ezx & Hsx & Hezx & Hmx' & _).
  destruct (shl_align_spec my ey (Z.min ex ey))
    as (my' & ezy & Hsy & Hezy & Hmy' & _).
  rewrite Hsx, Hsy. cbn [fst cond_Zopp].
  destruct sy; [done|]. cbn [cond_Zopp SFcompare].
  unfold binary_normalize.
  destruct (Zpos mx' - Zpos my') as [|d|d] eqn:Hd; [done| |].
  2:{ intros H. by apply binary_round_negative in H. }
  intros _.
  assert (Hlt : Zpos my' < Zpos mx') by lia.
  pose proof (log2_bounds mx) as Hbx. pose proof (log2_bounds my) as Hby.
  pose proof (Z.log2_nonneg (Zpos mx)). pose proof (Z.log2_nonneg (Zpos my)).
  destruct (Z.compare_spec ey ex) as [Heq|Hl|Hg]; [|done|].
  - replace (ex - ezx) with 0 in Hmx' by lia.
    replace (ey - ezy) with 0 in Hmy' by lia.
    rewrite Z.mul_1_r in Hmx', Hmy'.
    change (PosDef.Pos.compare_cont Eq my mx) with (Pos.compare my mx).
    f_equal. apply Pos.compare_lt_iff. lia.
  - exfalso. replace (ex - ezx) with 0 in Hmx' by lia.
    replace (ey - ezy) with (ey - ex) in Hmy' by lia.
    rewrite Z.mul_1_r in Hmx'.
    assert (Hl52 : Z.log2 (Zpos my) = 52) by lia.
    assert (Hx52 : Z.log2 (Zpos mx) <= 52) by lia.
    rewrite Hl52 in Hby.
    assert (Zpos mx < 2 ^ 53).
    { eapply Z.lt_le_trans; [apply Hbx|].
      apply Z.pow_le_mono_r; lia. }
    assert (2 ^ 1 <= 2 ^ (ey - ex)) by (apply Z.pow_le_mono_r; lia).
    change (2 ^ 1) with 2 in *. change (2 ^ 53) with (2 ^ 52 * 2) in *.
    nia.
Qed.

Lemma ltb_above_zero x y :
  above_zero x -> SFltb x y = true -> above_zero y.
Proof.
  unfold SFltb.
  destruct x as [sx|[]| |[] mx ex]; try done; intros _;
    destruct y as [sy|[]| |[] my ey]; try done; by destruct sy.
Qed.

Lemma ltb_zero_above_zero y : SFltb (S754_zero false) y = true -> above_zero y.
Proof. unfold SFltb. by destruct y as [sy|[]| |[] my ey]. Qed.

End SignFacts.

(** ** Anomalies *)

Section AnomalyFacts.
Import JsString AIKernel.
Local Open Scope float_scope.
Variable toFixed : float -> nat -> string.
Variable Math_round : float -> float.
Variable Number_toString : float -> string.

(** X26.  [detectAnomaly] flags a file only when there is
    a model, its deviation is above zero, and the file has more imports
    than the mean: a file with at most the mean number of imports is
    never an anomaly. *)
Theorem detectAnomaly_flags_only_above_mean k fileContent :
  isAnomaly (detectAnomaly toFixed Math_round Number_toString k fileContent)
    = true ->
  exists model,
    statsModel k = Some model /\
    PrimFloat.ltb 0 (stdDev model) = true /\
    PrimFloat.ltb (mean model) (num (_countImports fileContent)) = true.
Proof.
  unfold detectAnomaly. destruct (statsModel k) as [model|]; [|done].
  cbn [isAnomaly]. intros H. exists model. split; [done|].
  destruct (PrimFloat.ltb 0 (stdDev model)) eqn:Hsd; [|by vm_compute in H].
  split; [done|].
  rewrite FloatAxioms.ltb_spec in *.
  rewrite FloatAxioms.div_spec, FloatAxioms.sub_spec in H.
  apply ltb_above_zero in H; [|done].
  apply ltb_zero_above_zero in Hsd.
  apply div_above_zero in H; [|done].
  apply sub_above_zero in H; [|apply num_count_like].
  unfold SFltb. by rewrite H.
Qed.

End AnomalyFacts.

Lemma detectAnomaly_flags_only_above_mean_witness :
  exists model,
    AIKernel.statsModel taught_kernel = Some model /\
    PrimFloat.ltb 0 (AIKernel.stdDev model) = true /\
    PrimFloat.ltb (AIKernel.mean model)
      (AIKernel.num (AIKernel._countImports many_imports)) = true.
Proof.
  apply (detectAnomaly_flags_only_above_mean no_format no_round no_text).
  vm_compute. reflexivity.
Defined.

(** ** The nearest neighbour *)

Section NearestFacts.
Import JsString AIKernel.
Local Open Scope float_scope.
Variable toFixed : float -> nat -> string.

(** What the loop of [classifyLayer] holds in its two variables. *)
Lemma nearest_fold currentFile targetVector entries seen best file :
  (file = None \/
   exists f vec, file = Some f /\ (f, vec) ∈ seen /\ f <> currentFile /\
                 best = _cosineSimilarity targetVector vec) ->
  let '(best', file') :=
    fold_left (nearest_step currentFile targetVector) entries (best, file) in
  file' = None \/
  exists f vec, file' = Some f /\ (f, vec) ∈ seen ++ entries /\
                f <> currentFile /\
                best' = _cosineSimilarity targetVector vec.
Proof.
  revert seen best file.
  induction entries as [|[f0 vec0] entries IH]; intros seen best file H.
  - simpl. rewrite app_nil_r. done.
  - cbn [fold_left]. unfold nearest_step at 2.
    assert (Hkeep :
      let '(best', file') :=
        fold_left (nearest_step currentFile targetVector) entries (best, file) in
      file' = None \/
      exists f vec, file' = Some f /\ (f, vec) ∈ seen ++ (f0, vec0) :: entries /\
                    f <> currentFile /\
                    best' = _cosineSimilarity targetVector vec).
    { specialize (IH (seen ++ [(f0, vec0)]) best file).
      destruct (fold_left _ entries (best, file)) as [best' file'].
      rewrite <- app_assoc in IH. apply IH.
      destruct H as [?|(f & vec & ? & ? & ?)]; [by left|].
      right. exists f, vec. split; [done|]. split; [|done].
      apply elem_of_app. by left. }
    destruct (String.eqb f0 currentFile) eqn:E; [exact Hkeep|].
    destruct (PrimFloat.ltb best _); [|exact Hkeep].
    specialize (IH (seen ++ [(f0, vec0)])
                  (_cosineSimilarity targetVector vec0) (Some f0)).
    destruct (fold_left _ entries _) as [best' file'].
    rewrite <- app_assoc in IH. apply IH. right. exists f0, vec0.
    split; [done|]. split; [apply elem_of_app; right; left|].
    split; [by apply String.eqb_neq|done].
Qed.

(** X27.  What [classifyLayer] reports is the base name of
    a learned file other than the file asked about, whose similarity to
    it is above the threshold, with that similarity as a percentage. *)
Theorem classifyLayer_reports_a_close_neighbour k currentFile r :
  classifyLayer toFixed k currentFile = Some r ->
  exists targetVector file vector,
    JsMap.get (vectors k) currentFile = Some targetVector /\
    (file, vector) ∈ vectors k /\
    file <> currentFile /\
    PrimFloat.ltb SIMILARITY_THRESHOLD
      (_cosineSimilarity targetVector vector) = true /\
    mostSimilarFile r = NodePath.basename file /\
    similarity r = toFixed (_cosineSimilarity targetVector vector * 100) 1.
Proof.
  unfold classifyLayer.
  destruct (JsMap.get (vectors k) currentFile) as [targetVector|]; [|done].
  pose proof (nearest_fold currentFile targetVector (vectors k) [] 0 None
                (or_introl eq_refl)) as H.
  destruct (fold_left _ (vectors k) _) as [best file].
  destruct (PrimFloat.ltb SIMILARITY_THRESHOLD best) eqn:Hbest; [|done].
  destruct H as [->|(f & vec & -> & Hin & Hne & ->)]; [done|].
  destruct (truthy (Some f)); [|done]. simpl. intros [= <-].
  exists targetVector, f, vec. done.
Qed.

End NearestFacts.

Lemma classifyLayer_reports_a_close_neighbour_witness :
  exists targetVector file vector,
    JsMap.get (AIKernel.vectors twin_kernel) "/p/a.js" = Some targetVector /\
    (file, vector) ∈ AIKernel.vectors twin_kernel /\
    file <> "/p/a.js" /\
    PrimFloat.ltb AIKernel.SIMILARITY_THRESHOLD
      (AIKernel._cosineSimilarity targetVector vector) = true /\
    "b.js" = NodePath.basename file /\
    EmptyString =
      no_format (AIKernel._cosineSimilarity targetVector vector * 100)%float 1.
Proof.
  apply (classifyLayer_reports_a_close_neighbour no_format twin_kernel
           "/p/a.js" (AIKernel.mkClassification "b.js" EmptyString)).
  vm_compute. reflexivity.
Defined.

(** ** The checks of one import *)

Section ImportChecks.
Import JsString ValidationService.
Context {Range : Type}.
Variable minimatch : string -> string -> bool -> bool.
Variable Localization_get : string -> list string -> string.
Variable asRelativePath : string -> string.
Variable rangeBetween : nat -> nat -> Range.

(** X28.  The violations of one import all lie on the range
    of the import, and they are either a single error, from the rule
    engine, with the cache untouched, or at most three warnings; an
    import that is not relative yields at most the error and leaves the
    cache untouched. *)
Theorem _checkImport_one_error_or_warnings fs graph imp fsPath
    currentFilePathRelative options :
  let out := _checkImport minimatch Localization_get asRelativePath
               rangeBetween fs graph imp fsPath currentFilePathRelative
               options in
  Forall (fun v => range v = _createRangeFromImport rangeBetween imp) (fst out) /\
  ((exists v, fst out = [v] /\ severity v = Error /\ snd out = graph) \/
   (Forall (fun v => severity v = Warning) (fst out) /\
    (List.length (fst out) <= 3)%nat)) /\
  (startsWith (ImportParser.path imp) "." = false ->
   (List.length (fst out) <= 1)%nat /\ snd out = graph).
Proof.
  cbv zeta. unfold _checkImport.
  destruct (RuleEngine.validate _ _ _ _ _) as [[[] archMessage]|];
    [cbn [fst snd];
     split; [by repeat constructor|];
     split; [left; eexists; by repeat split|]; intros _; split; [simpl; lia|done]|..].
  all: destruct (startsWith (ImportParser.path imp) ".");
    [|cbn [fst snd]; split; [constructor|];
      split; [right; split; [constructor|simpl; lia]|]; intros _;
      split; [simpl; lia|done]].
  all: destruct (checkEncapsulation options);
    [destruct (RuleEngine.checkEncapsulation _ _) as [[[] encMessage]|]|];
    (destruct (checkCycles options);
     [destruct (GraphAnalyzer.checkCycle _ _ _ _)
        as [[[[] cycleMessage]|] graph']|]);
    (destruct (enableAI options);
     [destruct (SmartAdvisor.analyze _ _ _) as [[[] sc aiMessage]|]|]);
    cbn [fst snd app];
    (split; [by repeat constructor|]);
    (split; [right; split; [by repeat constructor|simpl; lia]|done]).
Qed.

End ImportChecks.

(** ** The depth at which the search gives up *)

Section ChainFacts.
Import JsString DeepCycleDetector.
Variable g : gmap string (list string).

Lemma enter_entered file entered :
  enter file (entered_state entered) = entered_state (entered ++ [file]).
Proof.
  unfold enter, entered_state. cbn [visited recursionStack cyclePath].
  rewrite fmap_app, list_to_set_app_L. simpl.
  f_equal; set_solver.
Qed.

Lemma not_entered file pre post :
  NoDup (normalize <$> pre ++ file :: post) ->
  normalize file ∉ (list_to_set (normalize <$> pre) : gset string).
Proof.
  rewrite fmap_app, fmap_cons. intros Hnd.
  apply NoDup_app in Hnd as (_ & Hdis & _).
  rewrite elem_of_list_to_set. intros Hin. apply (Hdis _ Hin). left.
Qed.

(** The search walks down a chain of first dependencies and closes it
    on the file the chain goes back to. *)
Local Ltac depth_lia := unfold MAX_DEPTH in *; lia.

Lemma _dfs_chain post : forall pre file back fuel,
  NoDup (normalize <$> pre ++ file :: post) ->
  first_dependency_chain g (pre ++ file :: post) back ->
  normalize back ∈ (list_to_set (normalize <$> pre ++ file :: post) : gset string) ->
  (List.length (pre ++ file :: post) <= MAX_DEPTH)%nat ->
  (MAX_DEPTH < fuel + List.length pre)%nat ->
  _dfs g fuel file (entered_state pre) (List.length pre) =
  (true, push_path back (entered_state (pre ++ file :: post))).
Proof.
  induction post as [|file' post IH]; intros pre file back fuel Hnd Hchain Hback Hlen Hfuel.
  - rewrite length_app in Hlen. simpl in Hlen.
    destruct fuel as [|[|fuel]]; [depth_lia..|].
    destruct (Hchain (List.length pre) file back) as [rest Hg].
    { by rewrite list_lookup_middle. }
    { rewrite <- app_assoc. simpl.
      replace (S (List.length pre)) with (List.length pre + 1)%nat by lia.
      rewrite lookup_app_r by lia.
      by replace (List.length pre + 1 - List.length pre)%nat with 1%nat by lia. }
    apply (_dfs_descend g (S fuel) file back rest (entered_state pre)
             (List.length pre)); [depth_lia| | |exact Hg|].
    + by eapply not_entered.
    + by eapply not_entered.
    + rewrite enter_entered. apply _dfs_hit; [depth_lia|done].
  - rewrite length_app in Hlen. simpl in Hlen.
    destruct fuel as [|fuel]; [depth_lia|].
    destruct (Hchain (List.length pre) file file') as [rest Hg].
    { by rewrite list_lookup_middle. }
    { rewrite <- app_assoc. simpl.
      replace (S (List.length pre)) with (List.length pre + 1)%nat by lia.
      rewrite lookup_app_r by lia.
      by replace (List.length pre + 1 - List.length pre)%nat with 1%nat by lia. }
    apply (_dfs_descend g fuel file file' rest (entered_state pre)
             (List.length pre)); [depth_lia| | |exact Hg|].
    + by eapply not_entered.
    + by eapply not_entered.
    + rewrite enter_entered.
      replace (pre ++ file :: file' :: post) with ((pre ++ [file]) ++ file' :: post)
        in * by (by rewrite <- app_assoc).
      replace (S (List.length pre)) with (List.length (pre ++ [file]))
        by (rewrite length_app; simpl; lia).
      apply IH; try done.
      * rewrite !length_app. simpl. depth_lia.
      * rewrite length_app. simpl. depth_lia.
Qed.

(** The search gives up on a chain of single dependencies that is
    longer than [MAX_DEPTH]. *)
Lemma _dfs_chain_cut post : forall pre file back fuel,
  NoDup (normalize <$> pre ++ file :: post) ->
  single_dependency_chain g (pre ++ file :: post) back ->
  List.length (pre ++ file :: post) = S MAX_DEPTH ->
  fst (_dfs g fuel file (entered_state pre) (List.length pre)) = false.
Proof.
  induction post as [|file' post IH]; intros pre file back fuel Hnd Hchain Hlen.
  - rewrite length_app in Hlen. simpl in Hlen.
    destruct fuel as [|fuel]; [done|].
    pose proof (Hchain (List.length pre) file back) as Hg.
    rewrite list_lookup_middle in Hg by done.
    rewrite <- app_assoc in Hg. simpl in Hg.
    replace (S (List.length pre)) with (List.length pre + 1)%nat in Hg by lia.
    rewrite lookup_app_r in Hg by lia.
    replace (List.length pre + 1 - List.length pre)%nat with 1%nat in Hg by lia.
    specialize (Hg eq_refl eq_refl).
    rewrite _dfs_enter; [|depth_lia|by eapply not_entered..].
    rewrite Hg. change (default [] (Some [back])) with [back].
    rewrite for_deps_cons.
    replace (List.length pre) with MAX_DEPTH by lia.
    by destruct fuel.
  - rewrite length_app in Hlen. simpl in Hlen.
    destruct fuel as [|fuel]; [done|].
    pose proof (Hchain (List.length pre) file file') as Hg.
    rewrite list_lookup_middle in Hg by done.
    rewrite <- app_assoc in Hg. simpl in Hg.
    replace (S (List.length pre)) with (List.length pre + 1)%nat in Hg by lia.
    rewrite lookup_app_r in Hg by lia.
    replace (List.length pre + 1 - List.length pre)%nat with 1%nat in Hg by lia.
    specialize (Hg eq_refl eq_refl).
    rewrite _dfs_enter; [|depth_lia|by eapply not_entered..].
    rewrite Hg. change (default [] (Some [file'])) with [file'].
    rewrite for_deps_cons, enter_entered.
    replace (pre ++ file :: file' :: post) with ((pre ++ [file]) ++ file' :: post)
      in * by (by rewrite <- app_assoc).
    specialize (IH (pre ++ [file]) file' back fuel Hnd Hchain).
    assert (Hl : List.length (pre ++ [file]) = S (List.length pre))
      by (rewrite length_app; simpl; lia).
    rewrite length_app, Hl in IH. simpl in IH.
    destruct (_dfs g fuel file' _ _) as [[] st']; [|done].
    assert (true = false); [apply IH; lia|done].
Qed.

(** X16.  A cycle that the search reaches through first dependencies
    is reported, with all its files in order and their number as the
    depth, when it has from two to [MAX_DEPTH] files; on a chain of
    [MAX_DEPTH + 1] distinct files with one dependency each the search
    gives up and nothing is reported, wherever the last file leads. *)
Theorem detectDeepCycle_finds_cycles_up_to_max_depth start others back :
  let files := start :: others in
  NoDup (normalize <$> files) ->
  (first_dependency_chain g files start ->
   (2 <= List.length files <= MAX_DEPTH)%nat ->
   detectDeepCycle g start =
   Some (mkCycle true (files ++ [start]) (List.length files)
           (cycle_message (files ++ [start])))) /\
  (single_dependency_chain g files back ->
   List.length files = S MAX_DEPTH ->
   detectDeepCycle g start = None).
Proof.
  cbv zeta. intros Hnd. split.
  - intros Hchain Hlen. unfold detectDeepCycle.
    change initial with (entered_state []).
    assert (Hrun : _dfs g (S MAX_DEPTH) start (entered_state []) 0 =
                   (true, push_path start (entered_state (start :: others)))).
    { apply (_dfs_chain others [] start start (S MAX_DEPTH)); try done.
      - simpl. set_solver.
      - simpl in *. lia.
      - simpl. unfold MAX_DEPTH. lia. }
    rewrite Hrun. cbn [push_path entered_state cyclePath andb app].
    simpl in Hlen.
    replace (2 <? List.length (start :: others ++ [start]))%nat with true.
    + do 2 f_equal. simpl. rewrite length_app. simpl. lia.
    + symmetry. apply Nat.ltb_lt. simpl. rewrite length_app. simpl. lia.
  - intros Hchain Hlen. unfold detectDeepCycle.
    change initial with (entered_state []).
    pose proof (_dfs_chain_cut others [] start back (S MAX_DEPTH) Hnd Hchain Hlen)
      as Hcut.
    change (List.length []) with 0%nat in Hcut.
    by destruct (_dfs g (S MAX_DEPTH) start (entered_state []) 0) as [[] st].
Qed.

End ChainFacts.

Lemma detectDeepCycle_finds_cycles_up_to_max_depth_witness :
  DeepCycleDetector.detectDeepCycle (ring_of (take 10 eleven_files)) "/p/f0.js" =
    Some (DeepCycleDetector.mkCycle true
            (take 10 eleven_files ++ ["/p/f0.js"]) 10
            (DeepCycleDetector.cycle_message
               (take 10 eleven_files ++ ["/p/f0.js"]))) /\
  DeepCycleDetector.detectDeepCycle (ring_of eleven_files) "/p/f0.js" = None.
Proof.
  split.
  - apply (detectDeepCycle_finds_cycles_up_to_max_depth
             (ring_of (take 10 eleven_files)) "/p/f0.js"
             (tail (take 10 eleven_files)) "/p/f0.js").
    + apply (bool_decide_unpack _). vm_compute. exact I.
    + intros i file next Hi Hn.
      do 10 (destruct i as [|i]; [simpl in *; inversion Hi; inversion Hn; subst;
                                  eexists; vm_compute; reflexivity|]).
      done.
    + simpl. unfold DeepCycleDetector.MAX_DEPTH. lia.
  - apply (detectDeepCycle_finds_cycles_up_to_max_depth
             (ring_of eleven_files) "/p/f0.js" (tail eleven_files) "/p/f0.js").
    + apply (bool_decide_unpack _). vm_compute. exact I.
    + intros i file next Hi Hn.
      do 11 (destruct i as [|i]; [simpl in *; inversion Hi; inversion Hn; subst;
                                  vm_compute; reflexivity|]).
      done.
    + reflexivity.
Defined.

(** ** Coupling *)

Section CouplingFacts.
Import JsString MetricsCalculator.
Variable fs : Fs.t.

Lemma fold_set_get {V} (value : string -> V) files (m0 : JsMap.t V) key :
  JsMap.get (fold_left (fun m file => JsMap.set m file (value file)) files m0)
            key =
  if bool_decide (key ∈ files) then Some (value key) else JsMap.get m0 key.
Proof.
  revert m0. induction files as [|x files IH]; intros m0; [done|].
  cbn [fold_left]. rewrite IH, JsMap_get_set.
  destruct (decide (key = x)) as [->|Hne].
  - rewrite String.eqb_refl.
    rewrite (bool_decide_eq_true_2 (x ∈ x :: files)) by left.
    by case_bool_decide.
  - apply not_eq_sym, String.eqb_neq in Hne as Hne'. rewrite Hne'.
    case_bool_decide as Hin.
    + by rewrite (bool_decide_eq_true_2 (key ∈ x :: files)) by (by right).
    + by rewrite (bool_decide_eq_false_2 (key ∈ x :: files)) by set_solver.
Qed.

Lemma JsMap_set_Forall {V} (P : string * V -> Prop) (m : JsMap.t V) k v :
  Forall P m -> P (k, v) -> Forall P (JsMap.set m k v).
Proof.
  intros Hm Hkv. induction Hm as [|[k0 v0] m H0 Hm IH]; simpl.
  - by constructor.
  - destruct (String.eqb k0 k) eqn:E.
    + apply String.eqb_eq in E as ->. by constructor.
    + by constructor.
Qed.

Lemma fold_set_entries {V} (value : string -> V) files (m0 : JsMap.t V) :
  Forall (fun entry => snd entry = value (fst entry)) m0 ->
  NoDup (map fst m0) ->
  let m := fold_left (fun m file => JsMap.set m file (value file)) files m0 in
  Forall (fun entry => snd entry = value (fst entry)) m /\ NoDup (map fst m).
Proof.
  cbv zeta. revert m0. induction files as [|x files IH]; intros m0 H0 Hnd; [done|].
  cbn [fold_left]. apply IH.
  - by apply JsMap_set_Forall.
  - by apply JsMap_set_NoDup.
Qed.

Lemma total_length_cons k l (m : JsMap.t (list string)) :
  total_length ((k, l) :: m) = (List.length l + total_length m)%nat.
Proof. done. Qed.

Lemma total_length_set (m : JsMap.t (list string)) k x :
  total_length (JsMap.set m k (default [] (JsMap.get m k) ++ [x])) =
  S (total_length m).
Proof.
  induction m as [|[k0 l0] m IH]; [done|].
  cbn [JsMap.get JsMap.set]. destruct (String.eqb k0 k) eqn:E.
  - rewrite !total_length_cons. simpl. rewrite length_app. simpl. lia.
  - rewrite !total_length_cons, IH. lia.
Qed.

Lemma total_length_app (m1 m2 : JsMap.t (list string)) :
  total_length (m1 ++ m2) = (total_length m1 + total_length m2)%nat.
Proof.
  induction m1 as [|[k l] m1 IH]; [done|].
  change (((k, l) :: m1) ++ m2) with ((k, l) :: (m1 ++ m2)).
  rewrite !total_length_cons, IH. lia.
Qed.

Lemma total_length_fresh (m : JsMap.t (list string)) k :
  JsMap.has m k = false -> total_length (JsMap.set m k []) = total_length m.
Proof.
  intros Hk. rewrite JsMap_set_fresh.
  - rewrite total_length_app, total_length_cons. simpl.
    change (total_length []) with 0%nat. lia.
  - intros Hin. apply JsMap_get_has in Hin. congruence.
Qed.

Lemma note_dependent_total filePaths file m dep :
  (total_length (note_dependent filePaths file m dep) <= S (total_length m))%nat.
Proof.
  unfold note_dependent. destruct (truthy _); [|lia].
  rewrite total_length_set.
  destruct (JsMap.has m _) eqn:Hhas; simpl; [lia|].
  by rewrite total_length_fresh.
Qed.

Lemma dependents_of_file_total filePaths file deps m :
  (total_length (fold_left (note_dependent filePaths file) deps m)
   <= total_length m + List.length deps)%nat.
Proof.
  revert m. induction deps as [|d deps IHd]; intros m; simpl; [lia|].
  etransitivity; [apply IHd|].
  pose proof (note_dependent_total filePaths file m d). lia.
Qed.

Lemma dependents_total filePaths (entries : JsMap.t (list string)) m :
  (total_length
     (fold_left (fun m entry =>
                   fold_left (note_dependent filePaths (fst entry))
                             (snd entry) m)
                entries m)
   <= total_length m + total_length entries)%nat.
Proof.
  revert m. induction entries as [|[file deps] entries IH]; intros m.
  - simpl. change (total_length []) with 0%nat. lia.
  - cbn [fold_left fst snd]. etransitivity; [apply IH|].
    pose proof (dependents_of_file_total filePaths file deps m).
    rewrite total_length_cons. lia.
Qed.

Lemma total_length_delete_le (m : JsMap.t (list string)) k :
  (total_length (JsMap.delete m k) <= total_length m)%nat.
Proof.
  induction m as [|[k1 l1] m IH]; [done|].
  rewrite JsMap_delete_cons.
  destruct (String.eqb k1 k); rewrite !total_length_cons; lia.
Qed.

Lemma total_length_delete (m : JsMap.t (list string)) k :
  (length_or_zero m k + total_length (JsMap.delete m k) <= total_length m)%nat.
Proof.
  unfold length_or_zero.
  induction m as [|[k0 l0] m IH]; [done|].
  rewrite JsMap_delete_cons. cbn [JsMap.get].
  destruct (String.eqb k0 k) eqn:E; rewrite !total_length_cons.
  - pose proof (total_length_delete_le m k). lia.
  - lia.
Qed.

Lemma sum_list_cons x l : sum_list (x :: l) = (x + sum_list l)%nat.
Proof. done. Qed.

(** Distinct keys read at most what the map holds. *)
Lemma sum_reads_le keys (m : JsMap.t (list string)) :
  NoDup keys ->
  (sum_list (length_or_zero m <$> keys) <= total_length m)%nat.
Proof.
  intros Hnd. revert m. induction Hnd as [|k keys Hk Hnd IH]; intros m.
  - simpl. lia.
  - rewrite fmap_cons, sum_list_cons.
    pose proof (total_length_delete m k) as Hdel.
    specialize (IH (JsMap.delete m k)).
    assert (Heq : length_or_zero (JsMap.delete m k) <$> keys =
                  length_or_zero m <$> keys).
    { apply list_fmap_ext. intros i k' Hk'. unfold length_or_zero.
      rewrite JsMap_get_delete.
      destruct (String.eqb k k') eqn:E; [|done].
      apply String.eqb_eq in E as <-.
      apply list_elem_of_lookup_2 in Hk'. done. }
    rewrite Heq in IH. lia.
Qed.

Lemma sum_with_key (f h : string -> nat) keys k0 c :
  k0 ∈ keys -> (forall k, k <> k0 -> f k = h k) -> h k0 = 0%nat -> f k0 = c ->
  (sum_list (h <$> keys) + c <= sum_list (f <$> keys))%nat.
Proof.
  intros Hin Hother Hzero Hc.
  assert (Hle : forall l, (sum_list (h <$> l) <= sum_list (f <$> l))%nat).
  { induction l as [|k l IH]; [done|].
    rewrite !fmap_cons, !sum_list_cons.
    destruct (decide (k = k0)) as [->|Hne]; [lia|].
    rewrite (Hother k Hne). lia. }
  induction keys as [|k keys IH]; [by apply elem_of_nil in Hin|].
  rewrite !fmap_cons, !sum_list_cons.
  destruct (decide (k = k0)) as [->|Hne].
  - specialize (Hle keys). lia.
  - rewrite (Hother k Hne).
    apply elem_of_cons in Hin as [?|Hin]; [congruence|].
    specialize (IH Hin). lia.
Qed.

(** Keys that cover a map with distinct keys read all it holds. *)
Lemma sum_reads_ge keys (m : JsMap.t (list string)) :
  NoDup (map fst m) -> (forall k, k ∈ map fst m -> k ∈ keys) ->
  (total_length m <= sum_list (length_or_zero m <$> keys))%nat.
Proof.
  induction m as [|[k0 l0] m IH]; intros Hnd Hsub.
  - change (total_length []) with 0%nat. lia.
  - simpl in Hnd. apply NoDup_cons in Hnd as [Hk0 Hnd].
    specialize (IH Hnd).
    assert (Hsub' : forall k, k ∈ map fst m -> k ∈ keys).
    { intros k Hk. apply Hsub. simpl. by right. }
    specialize (IH Hsub').
    pose proof (sum_with_key (length_or_zero ((k0, l0) :: m))
                  (length_or_zero m) keys k0 (List.length l0)) as Hsum.
    rewrite total_length_cons.
    etransitivity; [|apply Hsum].
    + lia.
    + apply Hsub. simpl. left.
    + intros k Hne. unfold length_or_zero. simpl.
      apply not_eq_sym, String.eqb_neq in Hne. by rewrite Hne.
    + unfold length_or_zero.
      destruct (JsMap.get m k0) eqn:Hg; [|done].
      assert (JsMap.has m k0 = true) by (unfold JsMap.has; by rewrite Hg).
      by apply JsMap_get_has in H.
    + unfold length_or_zero. simpl. by rewrite String.eqb_refl.
Qed.

(** X29.  After [analyze], the efferent coupling reported for an
    analysed file is the number of imports parsed from it and its
    afferent coupling the number of importers recorded for it; a file
    that was not analysed has the report of zeros; the total is the sum
    of the two; and over the project the afferent couplings never add
    up to more than the efferent ones. *)
Theorem analyze_counts_imports_and_importers filePaths :
  let m := analyze fs filePaths in
  (forall file,
     let report := calculateCoupling m file in
     (file ∈ filePaths ->
      efferentCoupling report = List.length (_getFileDependencies fs file) /\
      afferentCoupling report = length_or_zero (dependentMap m) file) /\
     (file ∉ filePaths -> report = mkReport 0 0 0 "Low Coupling (Good)") /\
     totalCoupling report =
       (afferentCoupling report + efferentCoupling report)%nat) /\
  (totalAfferentCoupling m <= totalEfferentCoupling m)%nat.
Proof.
  cbv zeta.
  set (D := dependencyMap (analyze fs filePaths)).
  set (M := dependentMap (analyze fs filePaths)).
  set (value := fun filePath =>
                  mkCoupling (length_or_zero M filePath)
                             (length_or_zero D filePath)).
  assert (HCdef : couplingData (analyze fs filePaths) =
                  fold_left (fun m filePath =>
                               JsMap.set m filePath (value filePath))
                            filePaths []) by reflexivity.
  assert (HDdef : D = fold_left (fun m filePath =>
                                   JsMap.set m filePath
                                     (_getFileDependencies fs filePath))
                                filePaths []) by reflexivity.
  assert (HMdef : M = fold_left (fun m entry =>
                                   fold_left
                                     (note_dependent filePaths (fst entry))
                                     (snd entry) m) D []) by reflexivity.
  assert (HD : forall k, JsMap.get D k =
                 if bool_decide (k ∈ filePaths)
                 then Some (_getFileDependencies fs k) else None).
  { intros k. rewrite HDdef. by rewrite fold_set_get. }
  assert (HC : forall k, JsMap.get (couplingData (analyze fs filePaths)) k =
                 if bool_decide (k ∈ filePaths) then Some (value k) else None).
  { intros k. rewrite HCdef. by rewrite fold_set_get. }
  split.
  - intros file. unfold calculateCoupling. rewrite HC.
    split; [|split; [|done]].
    + intros Hin. rewrite (bool_decide_eq_true_2 _ Hin).
      unfold value.
      cbn [default afferent efferent afferentCoupling efferentCoupling].
      split; [|done]. unfold length_or_zero. rewrite HD.
      by rewrite (bool_decide_eq_true_2 _ Hin).
    + intros Hout. by rewrite (bool_decide_eq_false_2 _ Hout).
  - unfold totalAfferentCoupling, totalEfferentCoupling.
    destruct (fold_set_entries value filePaths [] (Forall_nil_2 _)
                (NoDup_nil_2)) as [Hentries HndC].
    rewrite <- HCdef in Hentries, HndC.
    destruct (fold_set_entries (_getFileDependencies fs) filePaths []
                (Forall_nil_2 _) (NoDup_nil_2)) as [_ HndD].
    rewrite <- HDdef in HndD.
    set (C := couplingData (analyze fs filePaths)) in *.
    assert (Hread : forall k, k ∈ map fst C ->
              coupling_of (analyze fs filePaths) k = value k).
    { intros k Hk. apply JsMap_get_has in Hk. unfold JsMap.has in Hk.
      unfold coupling_of. fold C. unfold C in Hk |- *. rewrite HC in Hk |- *.
      by case_bool_decide. }
    rewrite (list_fmap_ext
               (fun filePath =>
                  afferent (coupling_of (analyze fs filePaths) filePath))
               (length_or_zero M) (map fst C))
      by (intros i k Hk; apply list_elem_of_lookup_2 in Hk;
          by rewrite (Hread k Hk)).
    rewrite (list_fmap_ext
               (fun filePath =>
                  efferent (coupling_of (analyze fs filePaths) filePath))
               (length_or_zero D) (map fst C))
      by (intros i k Hk; apply list_elem_of_lookup_2 in Hk;
          by rewrite (Hread k Hk)).
    etransitivity; [apply sum_reads_le, HndC|].
    rewrite HMdef.
    etransitivity; [apply (dependents_total filePaths D [])|].
    change (total_length []) with 0%nat. simpl.
    apply sum_reads_ge; [done|].
    intros k Hk. apply JsMap_get_has in Hk. apply JsMap_get_has.
    unfold JsMap.has in *. unfold C. rewrite HC. rewrite HD in Hk.
    by case_bool_decide.
Qed.

End CouplingFacts.

(** ** The line of an offset *)

Section LineFacts.
Import JsString UnusedImportDetector.

Lemma line_breaks_cons c l :
  line_breaks (c :: l) =
  ((if is_newline c then 1 else 0) + line_breaks l)%nat.
Proof.
  unfold line_breaks. rewrite filter_cons.
  destruct (is_newline c); by case_decide.
Qed.

Lemma line_loop_split l : forall piece i charCount index,
  (charCount <= index)%nat ->
  line_loop (split_chars is_newline l piece) i charCount index =
  if (index <=? charCount + List.length piece + List.length l)%nat
  then Some (i + line_breaks
                   (take (index - (charCount + List.length piece)) l))%nat
  else None.
Proof.
  induction l as [|c l IH]; intros piece i charCount index Hle.
  - cbn [split_chars line_loop]. rewrite length_of_chars, length_rev.
    rewrite take_nil. change (line_breaks []) with 0%nat.
    rewrite Nat.add_0_r. cbn [List.length]. rewrite Nat.add_0_r.
    destruct (index <? charCount + (List.length piece + 1))%nat eqn:E1;
      destruct (index <=? charCount + List.length piece)%nat eqn:E2;
      try done.
    + apply Nat.ltb_lt in E1. apply Nat.leb_gt in E2. lia.
    + apply Nat.ltb_ge in E1. apply Nat.leb_le in E2. lia.
  - cbn [split_chars]. destruct (is_newline c) eqn:Hc.
    + cbn [line_loop]. rewrite length_of_chars, length_rev.
      destruct (index <? charCount + (List.length piece + 1))%nat eqn:E1.
      * apply Nat.ltb_lt in E1.
        replace (index - (charCount + List.length piece))%nat with 0%nat by lia.
        rewrite take_0. change (line_breaks []) with 0%nat.
        rewrite Nat.add_0_r.
        replace (index <=? charCount + List.length piece
                           + List.length (c :: l))%nat
          with true; [done|].
        symmetry. apply Nat.leb_le. simpl. lia.
      * apply Nat.ltb_ge in E1. rewrite IH by lia.
        cbn [List.length]. rewrite Nat.add_0_r.
        replace (index - (charCount + List.length piece))%nat
          with (S (index - (charCount + (List.length piece + 1))))%nat by lia.
        cbn [take]. rewrite line_breaks_cons, Hc.
        replace (charCount + (List.length piece + 1) + List.length l)%nat
          with (charCount + List.length piece + S (List.length l))%nat by lia.
        destruct (_ <=? _)%nat; [|done]. f_equal. lia.
    + rewrite IH by done. cbn [List.length].
      replace (charCount + S (List.length piece) + List.length l)%nat
        with (charCount + List.length piece + S (List.length l))%nat by lia.
      destruct (_ <=? _)%nat eqn:E; [|done]. f_equal. f_equal.
      destruct (index - (charCount + List.length piece))%nat as [|n] eqn:Hn.
      * replace (index - (charCount + S (List.length piece)))%nat
          with 0%nat by lia.
        by rewrite !take_0.
      * replace (index - (charCount + S (List.length piece)))%nat
          with n by lia.
        cbn [take]. by rewrite line_breaks_cons, Hc.
Qed.

Lemma length_split_chars l : forall piece,
  List.length (split_chars is_newline l piece) = S (line_breaks l).
Proof.
  induction l as [|c l IH]; intros piece; [done|].
  cbn [split_chars]. rewrite line_breaks_cons.
  destruct (is_newline c); simpl; by rewrite IH.
Qed.

(** X30.  On the lines of a text, [_getLineNumber] returns for every
    offset the number of line breaks before it; past the end of the
    text it returns the last line. *)
Theorem _getLineNumber_counts_line_breaks content index :
  _getLineNumber (lines_of content) index =
  Z.of_nat (line_breaks (take index (chars content))).
Proof.
  unfold _getLineNumber, lines_of, split.
  rewrite line_loop_split by lia. simpl.
  rewrite Nat.sub_0_r.
  destruct (index <=? List.length (chars content))%nat eqn:E; [done|].
  apply Nat.leb_gt in E. rewrite length_split_chars.
  rewrite take_ge by lia. lia.
Qed.

End LineFacts.
